(** * DueDesk backend: payment status, aggregation and payment mutation

    A shallow embedding of [duedesk-backend/index.js]:
    - [calculateCustomerDetails], the derived view of a customer row;
    - the summaries built by [GET /api/customers] and
      [GET /api/dashboard/summary];
    - the handler of [PATCH /api/customers/:id/payment] over the
      [customers] table;
    - the routes that create, read, replace and delete a customer, with
      the email pattern they check, and the tables a run of requests can
      reach;
    - the SQL text of the customer list;
    - the logic of the dashboard page: its summary, its status badge and
      what its two forms check before they call the API.

    Numbers.  The amounts are JavaScript numbers, that is IEEE 754
    binary64 values, stored in SQLite REAL columns.  The file has two
    layers.

    - The routes, the table and the page are embedded with the amounts as
      rationals [Q].  The statements made on this layer depend on the
      amounts only through comparisons ([<], [>=], [===]), which are
      exact on binary64 numbers, name the operation the code applies
      ([amountPaid + paymentAmount]) without using what it evaluates to,
      or use that a sum with an amount that is not negative is not
      smaller, which rounding keeps.
    - [Module B64] embeds the numbers themselves, with NaN, the
      infinities, the signed zero and the rounding of each operation, and
      over them the calculator, the payment sum, the page's balance check
      and the collection efficiency.  Every statement about a computed
      amount, percentage or mean is made on this layer (the last part of
      the file). *)

From Stdlib Require Import ZArith QArith Qminmax Qround Qabs Qpower Qreduction.
From Stdlib Require Import Lqa Lia.
From Stdlib Require Import Ascii String List Bool Permutation Sorted.
From stdpp Require Import gmap.
Import ListNotations.

Local Open Scope string_scope.
Local Open Scope Q_scope.

(** ** JavaScript primitives used by the backend *)

Module JS.

(** [a < b], [a > b], [a >= b], [a === b] on numbers. *)
Definition lt (a b : Q) : bool := negb (Qle_bool b a).
Definition gt (a b : Q) : bool := negb (Qle_bool a b).
Definition ge (a b : Q) : bool := Qle_bool b a.
Definition strict_eq (a b : Q) : bool := Qeq_bool a b.

(** [Math.max(a, b)] and [Math.min(a, b)]. *)
Definition Math_max (a b : Q) : Q := if gt b a then b else a.
Definition Math_min (a b : Q) : Q := if lt b a then b else a.

(** [Math.round(x)]: the integer nearest to [x], halves going up. *)
Definition Math_round (x : Q) : Q := inject_Z (Qfloor (x + (1 # 2))).

(** Values that can sit in a field of a parsed JSON body; a field that
    is absent reads as [JUndefined]. *)
Inductive value : Type :=
| JUndefined
| JNull
| JBool (b : bool)
| JNum (q : Q)
| JStr (s : string)
| JObject.

(** [typeof v !== 'number'] *)
Definition not_a_number (v : value) : bool :=
  match v with JNum _ => false | _ => true end.

(** [v === s] for a string literal [s]. *)
Definition is_string (v : value) (s : string) : bool :=
  match v with JStr t => String.eqb t s | _ => false end.

(** [const { f = d } = body]: the default applies to [undefined] only. *)
Definition default_to (d v : value) : value :=
  match v with JUndefined => d | _ => v end.

(** [array.includes(s)] on an array of strings. *)
Definition includes (l : list string) (s : string) : bool :=
  existsb (String.eqb s) l.

End JS.

(** ** The data model *)

(** A row of the [customers] table. *)
Record customer : Type := {
  id : Z;
  name : string;
  number : string;
  email : string;
  amountToPay : Q;
  amountPaid : Q;
  createdAt : string;
  updatedAt : string
}.

(** The object returned by [calculateCustomerDetails]: the row itself
    ([...customer]) and the four derived fields. *)
Record customerDetails : Type := {
  row : customer;
  amountRemaining : Q;
  overpayment : Q;
  paymentStatus : string;
  paymentPercentage : Q
}.

(** ** The payment status calculator *)

Definition calculateCustomerDetails (c : customer) : customerDetails :=
  let amountRemaining := JS.Math_max 0 (amountToPay c - amountPaid c) in
  let overpayment := JS.Math_max 0 (amountPaid c - amountToPay c) in
  let paymentStatus :=
    if JS.strict_eq (amountPaid c) 0 then "Not Paid"
    else if JS.ge (amountPaid c) (amountToPay c) then
      (if JS.gt (amountPaid c) (amountToPay c) then "Overpaid" else "Paid")
    else "Partially Paid" in
  {| row := c;
     amountRemaining := amountRemaining;
     overpayment := overpayment;
     paymentStatus := paymentStatus;
     paymentPercentage :=
       if JS.gt (amountToPay c) 0
       then JS.Math_min 100 ((amountPaid c / amountToPay c) * 100)
       else 0 |}.

(** A row with the given amounts; the other columns do not enter the
    calculator. *)
Definition mkAmounts (i : Z) (toPay paid : Q) : customer :=
  {| id := i; name := "n"; number := "0"; email := "e@x.io";
     amountToPay := toPay; amountPaid := paid;
     createdAt := "2024-01-01 00:00:00"; updatedAt := "2024-01-01 00:00:00" |}.

(** The four defining conditions of the status, as the specification words
    them, to be compared with the branches of the calculator. *)
Definition cond_NotPaid (toPay paid : Q) : bool := Qeq_bool paid 0.
Definition cond_PartiallyPaid (toPay paid : Q) : bool :=
  JS.gt paid 0 && JS.lt paid toPay.
Definition cond_Paid (toPay paid : Q) : bool :=
  Qeq_bool paid toPay && JS.gt toPay 0.
Definition cond_Overpaid (toPay paid : Q) : bool := JS.gt paid toPay.

(** The status the specification's conditions select, if any does. *)
Definition spec_status (toPay paid : Q) : list string :=
  (if cond_NotPaid toPay paid then ["Not Paid"] else [])
  ++ (if cond_PartiallyPaid toPay paid then ["Partially Paid"] else [])
  ++ (if cond_Paid toPay paid then ["Paid"] else [])
  ++ (if cond_Overpaid toPay paid then ["Overpaid"] else []).

(** ** The aggregator *)

(** [validStatuses] of [GET /api/customers]; the same four keys index
    [statusCounts]. *)
Definition validStatuses : list string :=
  ["Not Paid"; "Partially Paid"; "Paid"; "Overpaid"].

(** Every element carries one of the four statuses. *)
Definition validDetails (l : list customerDetails) : Prop :=
  Forall (fun d => In (paymentStatus d) validStatuses) l.

(** [l.filter(c => c.paymentStatus === s)] *)
Definition withStatus (s : string) (l : list customerDetails)
  : list customerDetails :=
  List.filter (fun c => String.eqb (paymentStatus c) s) l.

(** [l.reduce((sum, c) => sum + f(c), 0)] *)
Definition reduce_sum (f : customerDetails -> Q) (l : list customerDetails) : Q :=
  fold_left (fun sum c => sum + f c) l 0.

(** [Math.round(x * 100) / 100] *)
Definition round2 (x : Q) : Q := JS.Math_round (x * 100) / 100.

Record statusCountsT : Type := {
  count_NotPaid : nat;
  count_PartiallyPaid : nat;
  count_Paid : nat;
  count_Overpaid : nat
}.

Definition countStatuses (l : list customerDetails) : statusCountsT :=
  {| count_NotPaid := length (withStatus "Not Paid" l);
     count_PartiallyPaid := length (withStatus "Partially Paid" l);
     count_Paid := length (withStatus "Paid" l);
     count_Overpaid := length (withStatus "Overpaid" l) |}.

(** The four buckets added up. *)
Definition bucketSum (k : statusCountsT) : nat :=
  (count_NotPaid k + count_PartiallyPaid k + count_Paid k + count_Overpaid k)%nat.

(** The fields the two summaries have in common. *)
Record totalsT : Type := {
  totalCustomers : nat;
  totalAmountToPay : Q;
  totalAmountPaid : Q;
  totalAmountRemaining : Q;
  totalOverpayment : Q;
  statusCounts : statusCountsT
}.

(** The monetary totals are rounded where the response is written. *)
Definition roundTotals (t : totalsT) : totalsT :=
  {| totalCustomers := totalCustomers t;
     totalAmountToPay := round2 (totalAmountToPay t);
     totalAmountPaid := round2 (totalAmountPaid t);
     totalAmountRemaining := round2 (totalAmountRemaining t);
     totalOverpayment := round2 (totalOverpayment t);
     statusCounts := statusCounts t |}.

Definition totalsOf (l : list customerDetails) : totalsT :=
  {| totalCustomers := length l;
     totalAmountToPay := reduce_sum (fun c => amountToPay (row c)) l;
     totalAmountPaid := reduce_sum (fun c => amountPaid (row c)) l;
     totalAmountRemaining := reduce_sum amountRemaining l;
     totalOverpayment := reduce_sum overpayment l;
     statusCounts := countStatuses l |}.

(** *** [GET /api/customers]

    [rows] is what [db.all] hands to the callback (search, ordering and
    paging happen in the SQL query); [status] is the [status] query
    parameter, [None] when it is absent. *)
Record customersResponse : Type := {
  data : list customerDetails;
  summary : totalsT
}.

Definition getCustomers (rows : list customer) (status : option string)
  : customersResponse :=
  let customersWithDetails := map calculateCustomerDetails rows in
  let customersWithDetails :=
    match status with
    | Some s =>
        if negb (String.eqb s "") && JS.includes validStatuses s
        then withStatus s customersWithDetails
        else customersWithDetails
    | None => customersWithDetails
    end in
  {| data := customersWithDetails;
     summary := roundTotals (totalsOf customersWithDetails) |}.

(** *** [GET /api/dashboard/summary] *)

Record dashboardSummary : Type := {
  totals : totalsT;
  recentCustomers : list customerDetails;
  overdueCustomers : list customerDetails;
  collectionEfficiency : Q
}.

Section Dashboard.

(** [new Date(s)] as a time value.  It is applied to the [createdAt]
    column only, which the store fills in itself ([DEFAULT
    CURRENT_TIMESTAMP]) and no route writes, so every value parses. *)
Variable Date_ms : string -> Z.

(** The comparator [(a, b) => new Date(b.createdAt) - new Date(a.createdAt)]. *)
Definition byCreatedAtDesc (a b : customerDetails) : Z :=
  (Date_ms (createdAt (row b)) - Date_ms (createdAt (row a)))%Z.

(** [Array.prototype.sort] is stable: an element stays in front of the
    later elements it does not compare greater than. *)
Fixpoint sort_insert (x : customerDetails) (l : list customerDetails)
  : list customerDetails :=
  match l with
  | [] => [x]
  | y :: l' =>
      if (byCreatedAtDesc x y <=? 0)%Z then x :: y :: l'
      else y :: sort_insert x l'
  end.

Definition sort (l : list customerDetails) : list customerDetails :=
  fold_right sort_insert [] l.

(** The summary object.  [sort] works in place, so the properties
    evaluated after [recentCustomers] see the array in its sorted order. *)
Definition dashboardSummaryOf (rows : list customer) : dashboardSummary :=
  let customersWithDetails := map calculateCustomerDetails rows in
  let totals0 := totalsOf customersWithDetails in
  let sorted := sort customersWithDetails in
  let summary0 :=
    {| totals := totals0;
       recentCustomers := firstn 5 sorted;
       overdueCustomers :=
         List.filter
           (fun c => String.eqb (paymentStatus c) "Not Paid"
                     && JS.gt (amountToPay (row c)) 0) sorted;
       collectionEfficiency :=
         if (0 <? length sorted)%nat
         then reduce_sum paymentPercentage sorted
              / inject_Z (Z.of_nat (length sorted))
         else 0 |} in
  {| totals := roundTotals (totals summary0);
     recentCustomers := recentCustomers summary0;
     overdueCustomers := overdueCustomers summary0;
     collectionEfficiency := round2 (collectionEfficiency summary0) |}.

End Dashboard.

(** The arithmetic mean of a list of numbers, 0 for the empty list. *)
Definition Qsum (l : list Q) : Q := fold_right Qplus 0 l.

Definition mean (l : list Q) : Q :=
  match l with
  | [] => 0
  | _ => Qsum l / inject_Z (Z.of_nat (length l))
  end.

(** ** [PATCH /api/customers/:id/payment] *)

(** [customerId] is [parseInt(req.params.id)], [None] standing for [NaN];
    the two body fields are [JUndefined] when the body lacks them. *)
Record paymentRequest : Type := {
  customerId : option Z;
  paymentAmount : JS.value;
  paymentType : JS.value
}.

Inductive response : Type :=
| Failure (status : Z) (error : string)
| Success (details : customerDetails) (message : string).

(** [UPDATE customers SET amountPaid = ?, updatedAt = CURRENT_TIMESTAMP] *)
Definition setAmountPaid (now : string) (newAmountPaid : Q) (c : customer)
  : customer :=
  {| id := id c; name := name c; number := number c; email := email c;
     amountToPay := amountToPay c; amountPaid := newAmountPaid;
     createdAt := createdAt c; updatedAt := now |}.

(** The handler, over the table as a map from primary key to row; [now]
    is the store's [CURRENT_TIMESTAMP].  It returns the response and the
    table it leaves behind.  The store itself is taken to answer every
    statement (the [err] branches of the callbacks, which answer 500, are
    not part of the model); the last [None] branch stands for the read-back
    of the row just written finding nothing, which [patchPayment_accepted]
    below shows never happens. *)
Definition patchPayment (now : string) (db : gmap Z customer)
    (req : paymentRequest) : response * gmap Z customer :=
  let paymentType := JS.default_to (JS.JStr "add") (paymentType req) in
  match customerId req with
  | None | Some 0%Z => (Failure 400 "Valid customer ID is required", db)
  | Some customerId =>
      match paymentAmount req with
      | JS.JNum paymentAmount =>
          if JS.lt paymentAmount 0
          then (Failure 400 "Payment amount must be a positive number", db)
          else
            match db !! customerId with
            | None => (Failure 404 "Customer not found", db)
            | Some customer =>
                let newAmountPaid :=
                  if JS.is_string paymentType "set" then paymentAmount
                  else amountPaid customer + paymentAmount in
                let db' :=
                  <[customerId := setAmountPaid now newAmountPaid customer]> db in
                match db' !! customerId with
                | Some updatedCustomer =>
                    (Success (calculateCustomerDetails updatedCustomer)
                       ("Payment "
                        ++ (if JS.is_string paymentType "add"
                            then "added" else "updated")
                        ++ " successfully"),
                     db')
                | None => (Failure 500 "no such row", db')
                end
            end
      | _ => (Failure 400 "Payment amount must be a positive number", db)
      end
  end.

(** Whether a response reports success, and the HTTP status it carries
    ([res.json] without [res.status] answers 200). *)
Definition accepted (r : response) : bool :=
  match r with Success _ _ => true | Failure _ _ => false end.

Definition statusCode (r : response) : Z :=
  match r with Success _ _ => 200%Z | Failure code _ => code end.


(** The percentages of a sequence of rows, one per row, in the order of
    the rows. *)
Definition percentages (rows : list customer) : list Q :=
  map (fun r => paymentPercentage (calculateCustomerDetails r)) rows.

(** Three customers who each paid 1 of 3. *)
Definition thirds : list customer :=
  [mkAmounts 1 3 1; mkAmounts 2 3 1; mkAmounts 3 3 1].

(** A clock for the examples: every [createdAt] reads as the same instant. *)
Definition sameInstant (s : string) : Z := 0%Z.

(** A table with one customer, who owes 100 and has paid 50. *)
Definition db1 : gmap Z customer := {[ 1%Z := mkAmounts 1 100 50 ]}.

Definition payment (i : Z) (amount : Q) (type : JS.value) : paymentRequest :=
  {| customerId := Some i; paymentAmount := JS.JNum amount;
     paymentType := type |}.

(** The stored [amountPaid] of customer [i], if there is such a row. *)
Definition storedPaid (db : gmap Z customer) (i : Z) : option Q :=
  amountPaid <$> db !! i.

(** ** Regular expressions

    The fragment of JavaScript regular expressions that the routes use:
    character classes, concatenation, alternation and repetition, matched
    against the whole string (the patterns are anchored with [^] and [$]).
    Strings are sequences of characters with codes below 256. *)

Module Regex.

Inductive t : Type :=
| Empty
| Eps
| Class (p : ascii -> bool)
| Seq (r s : t)
| Alt (r s : t)
| Star (r : t).

(** [r+] *)
Definition Plus (r : t) : t := Seq r (Star r).

(** A literal character. *)
Definition Chr (c : ascii) : t := Class (Ascii.eqb c).

(** Whether [r] accepts the empty string. *)
Fixpoint nullable (r : t) : bool :=
  match r with
  | Empty => false
  | Eps => true
  | Class _ => false
  | Seq r s => nullable r && nullable s
  | Alt r s => nullable r || nullable s
  | Star _ => true
  end.

(** What is left of [r] once it has read [c]. *)
Fixpoint deriv (c : ascii) (r : t) : t :=
  match r with
  | Empty => Empty
  | Eps => Empty
  | Class p => if p c then Eps else Empty
  | Seq r s =>
      if nullable r then Alt (Seq (deriv c r) s) (deriv c s)
      else Seq (deriv c r) s
  | Alt r s => Alt (deriv c r) (deriv c s)
  | Star r => Seq (deriv c r) (Star r)
  end.

(** [/^r$/.test(s)] *)
Fixpoint test (r : t) (s : string) : bool :=
  match s with
  | EmptyString => nullable r
  | String c s' => test (deriv c r) s'
  end.

(** The strings a regular expression denotes. *)
Inductive lang : t -> string -> Prop :=
| lang_Eps : lang Eps ""
| lang_Class p c : p c = true -> lang (Class p) (String c "")
| lang_Seq r s u v : lang r u -> lang s v -> lang (Seq r s) (u ++ v)
| lang_Alt_l r s u : lang r u -> lang (Alt r s) u
| lang_Alt_r r s u : lang s u -> lang (Alt r s) u
| lang_Star_nil r : lang (Star r) ""
| lang_Star_cons r u v : lang r u -> lang (Star r) v -> lang (Star r) (u ++ v).

End Regex.

(** The class [\s] on characters with codes below 256: tab, line feed,
    vertical tab, form feed, carriage return, space and no-break space. *)
Definition is_space (c : ascii) : bool :=
  let n := nat_of_ascii c in
  ((9 <=? n) && (n <=? 13) || (n =? 32) || (n =? 160))%nat.

(** The class [[^\s@]]. *)
Definition plain (c : ascii) : bool := negb (is_space c || Ascii.eqb c "@").

(** [const emailRegex = /^[^\s@]+@[^\s@]+\.[^\s@]+$/] *)
Definition emailRegex : Regex.t :=
  Regex.Seq (Regex.Plus (Regex.Class plain))
    (Regex.Seq (Regex.Chr "@")
       (Regex.Seq (Regex.Plus (Regex.Class plain))
          (Regex.Seq (Regex.Chr ".") (Regex.Plus (Regex.Class plain))))).

(** Every character of [s] satisfies [p]. *)
Fixpoint all_chars (p : ascii -> bool) (s : string) : bool :=
  match s with
  | EmptyString => true
  | String c s' => p c && all_chars p s'
  end.

(** How many characters of [s] satisfy [p]. *)
Fixpoint count_chars (p : ascii -> bool) (s : string) : nat :=
  match s with
  | EmptyString => 0
  | String c s' => ((if p c then 1 else 0) + count_chars p s')%nat
  end.

(** A non-empty run of characters that are neither white space nor [@]. *)
Definition plain_run (s : string) : Prop := s <> "" /\ all_chars plain s = true.

(** ** The routes that create, read, replace and delete a customer

    The body of [POST /api/customers] and [PUT /api/customers/:id].  The
    code tests the two amounts with [typeof], so they are arbitrary
    values here; it uses the three text fields as strings without a test,
    and the model covers the bodies in which each of them is a string or
    absent ([None]). *)
Record customerBody : Type := {
  body_name : option string;
  body_number : option string;
  body_email : option string;
  body_amountToPay : JS.value;
  body_amountPaid : JS.value
}.

(** What these routes answer: an error with its HTTP status, or a status
    with the derived view of a row (under the key [data], or
    [deletedCustomer] for [DELETE]) and, on most routes, a message. *)
Inductive reply : Type :=
| Refused (status : Z) (error : string)
| Served (status : Z) (details : customerDetails) (message : option string).

(** [!s] for a text field. *)
Definition missing (o : option string) : bool :=
  match o with Some s => String.eqb s "" | None => true end.

(** The fields of a body that passed the checks. *)
Record customerFields : Type := {
  f_name : string;
  f_number : string;
  f_email : string;
  f_amountToPay : Q;
  f_amountPaid : Q
}.

(** The checks that [POST] and [PUT] both run on the body, in the order
    of the code; the result is the error text or the checked fields. *)
Definition validateBody (name number email : option string)
    (amountToPay amountPaid : JS.value) : string + customerFields :=
  if missing name || missing number || missing email
  then inl "Name, number, and email are required"
  else if negb (Regex.test emailRegex (default "" email))
  then inl "Please provide a valid email address"
  else
    match amountToPay, amountPaid with
    | JS.JNum toPay, JS.JNum paid =>
        if JS.lt toPay 0 || JS.lt paid 0
        then inl "Amounts cannot be negative"
        else inr {| f_name := default "" name;
                    f_number := default "" number;
                    f_email := default "" email;
                    f_amountToPay := toPay;
                    f_amountPaid := paid |}
    | _, _ => inl "Amounts must be numbers"
    end.

(** [SELECT * FROM customers WHERE email = ?] finds a row. *)
Definition emailTaken (db : gmap Z customer) (e : string) : bool :=
  existsb (fun kc => String.eqb (email kc.2) e) (map_to_list db).

(** [SELECT * FROM customers WHERE email = ? AND id != ?] finds a row. *)
Definition emailTakenByOther (db : gmap Z customer) (e : string) (i : Z) : bool :=
  existsb (fun kc => String.eqb (email kc.2) e && negb (kc.1 =? i)%Z)
    (map_to_list db).

(** [POST /api/customers].  [lastID] is the key the store gives the new
    row ([this.lastID]) and [now] its [CURRENT_TIMESTAMP].  As in
    [patchPayment], the last [None] branch is the read-back finding
    nothing, which does not happen. *)
Definition postCustomer (now : string) (lastID : Z) (db : gmap Z customer)
    (body : customerBody) : reply * gmap Z customer :=
  let amountToPay := JS.default_to (JS.JNum 0) (body_amountToPay body) in
  let amountPaid := JS.default_to (JS.JNum 0) (body_amountPaid body) in
  match validateBody (body_name body) (body_number body) (body_email body)
          amountToPay amountPaid with
  | inl error => (Refused 400 error, db)
  | inr f =>
      if emailTaken db (f_email f)
      then (Refused 409 "Customer with this email already exists", db)
      else
        let db' :=
          <[lastID := {| id := lastID; name := f_name f; number := f_number f;
                         email := f_email f;
                         amountToPay := f_amountToPay f;
                         amountPaid := f_amountPaid f;
                         createdAt := now; updatedAt := now |}]> db in
        match db' !! lastID with
        | Some newCustomer =>
            (Served 201 (calculateCustomerDetails newCustomer)
               (Some "Customer created successfully"), db')
        | None => (Refused 500 "no such row", db')
        end
  end.

(** [PUT /api/customers/:id] *)
Definition putCustomer (now : string) (db : gmap Z customer)
    (customerId : option Z) (body : customerBody) : reply * gmap Z customer :=
  match customerId with
  | None | Some 0%Z => (Refused 400 "Valid customer ID is required", db)
  | Some customerId =>
      match validateBody (body_name body) (body_number body) (body_email body)
              (body_amountToPay body) (body_amountPaid body) with
      | inl error => (Refused 400 error, db)
      | inr f =>
          match db !! customerId with
          | None => (Refused 404 "Customer not found", db)
          | Some row =>
              let updateCustomer :=
                let db' :=
                  <[customerId :=
                      {| id := id row; name := f_name f; number := f_number f;
                         email := f_email f;
                         amountToPay := f_amountToPay f;
                         amountPaid := f_amountPaid f;
                         createdAt := createdAt row; updatedAt := now |}]> db in
                match db' !! customerId with
                | Some updatedCustomer =>
                    (Served 200 (calculateCustomerDetails updatedCustomer)
                       (Some "Customer updated successfully"), db')
                | None => (Refused 500 "no such row", db')
                end in
              if negb (String.eqb (email row) (f_email f))
              then
                if emailTakenByOther db (f_email f) customerId
                then (Refused 409 "Email already exists for another customer", db)
                else updateCustomer
              else updateCustomer
          end
      end
  end.

(** [GET /api/customers/:id] *)
Definition getCustomer (db : gmap Z customer) (customerId : option Z) : reply :=
  match customerId with
  | None | Some 0%Z => Refused 400 "Valid customer ID is required"
  | Some customerId =>
      match db !! customerId with
      | None => Refused 404 "Customer not found"
      | Some row => Served 200 (calculateCustomerDetails row) None
      end
  end.

(** [DELETE /api/customers/:id] *)
Definition deleteCustomer (db : gmap Z customer) (customerId : option Z)
  : reply * gmap Z customer :=
  match customerId with
  | None | Some 0%Z => (Refused 400 "Valid customer ID is required", db)
  | Some customerId =>
      match db !! customerId with
      | None => (Refused 404 "Customer not found", db)
      | Some customer =>
          (Served 200 (calculateCustomerDetails customer)
             (Some "Customer deleted successfully"),
           delete customerId db)
      end
  end.

(** The answer of [patchPayment] in the shape of the other routes. *)
Definition replyOf (r : response) : reply :=
  match r with
  | Failure status error => Refused status error
  | Success details message => Served 200 details (Some message)
  end.

Definition refused (r : reply) : bool :=
  match r with Refused _ _ => true | Served _ _ _ => false end.

(** ** The table over a run of requests *)

(** The requests that can change the table.  For [POST], [lastID] is the
    key the store assigns. *)
Inductive request : Type :=
| POST (now : string) (lastID : Z) (body : customerBody)
| PUT (now : string) (customerId : option Z) (body : customerBody)
| PATCH (now : string) (req : paymentRequest)
| DELETE (customerId : option Z).

Definition serve (db : gmap Z customer) (r : request) : reply * gmap Z customer :=
  match r with
  | POST now lastID body => postCustomer now lastID db body
  | PUT now customerId body => putCustomer now db customerId body
  | PATCH now req =>
      let (resp, db') := patchPayment now db req in (replyOf resp, db')
  | DELETE customerId => deleteCustomer db customerId
  end.

(** The store's side of a request: [INTEGER PRIMARY KEY AUTOINCREMENT]
    hands out keys from 1 upwards and never one that is in use. *)
Definition admissible (db : gmap Z customer) (r : request) : Prop :=
  match r with
  | POST _ lastID _ => (0 < lastID)%Z /\ db !! lastID = None
  | _ => True
  end.

(** The tables the API can build, starting from the empty one. *)
Inductive reachable : gmap Z customer -> Prop :=
| reachable_empty : reachable ∅
| reachable_serve db r :
    reachable db -> admissible db r -> reachable (serve db r).2.

(** What holds of a stored row. *)
Definition wellFormedRow (i : Z) (c : customer) : Prop :=
  id c = i /\ (0 < i)%Z
  /\ name c <> "" /\ number c <> ""
  /\ Regex.test emailRegex (email c) = true
  /\ 0 <= amountToPay c /\ 0 <= amountPaid c.

(** No two rows share an email address. *)
Definition uniqueEmails (db : gmap Z customer) : Prop :=
  forall i j c d,
    db !! i = Some c -> db !! j = Some d -> email c = email d -> i = j.

Definition tableInvariant (db : gmap Z customer) : Prop :=
  map_Forall wellFormedRow db /\ uniqueEmails db.

(** A body with all five fields present. *)
Definition fullBody (n num e : string) (toPay paid : Q) : customerBody :=
  {| body_name := Some n; body_number := Some num; body_email := Some e;
     body_amountToPay := JS.JNum toPay; body_amountPaid := JS.JNum paid |}.

(** The row with key [i] made of checked fields: what [POST] inserts
    (created and updated now) and what [PUT] leaves (created as before). *)
Definition rowOfFields (i : Z) (created now : string) (f : customerFields)
  : customer :=
  {| id := i; name := f_name f; number := f_number f; email := f_email f;
     amountToPay := f_amountToPay f; amountPaid := f_amountPaid f;
     createdAt := created; updatedAt := now |}.

(** The key a request addresses: the key given to the new row, or the
    [:id] of the path. *)
Definition target (r : request) : option Z :=
  match r with
  | POST _ lastID _ => Some lastID
  | PUT _ customerId _ => customerId
  | PATCH _ req => customerId req
  | DELETE customerId => customerId
  end.


(** A table with two customers. *)
Definition db2 : gmap Z customer :=
  <[2%Z := {| id := 2; name := "Bob"; number := "556"; email := "bob@x.io";
              amountToPay := 80; amountPaid := 80;
              createdAt := "2024-01-02 00:00:00";
              updatedAt := "2024-01-02 00:00:00" |}]>
    (<[1%Z := {| id := 1; name := "Ann"; number := "555"; email := "ann@x.io";
                 amountToPay := 100; amountPaid := 50;
                 createdAt := "2024-01-01 00:00:00";
                 updatedAt := "2024-01-01 00:00:00" |}]> ∅).

(** A body without [amountPaid], and the row it makes under key 3. *)
Definition bodyCy : customerBody :=
  {| body_name := Some "Cy"; body_number := Some "557";
     body_email := Some "cy@x.io";
     body_amountToPay := JS.JNum 40; body_amountPaid := JS.JUndefined |}.

Definition rowCy : customer :=
  {| id := 3; name := "Cy"; number := "557"; email := "cy@x.io";
     amountToPay := 40; amountPaid := 0; createdAt := "T"; updatedAt := "T" |}.


(** [a] was created no earlier than [b]. *)
Definition newerOrSame (Date_ms : string -> Z) (a b : customerDetails) : Prop :=
  (Date_ms (createdAt (row b)) <= Date_ms (createdAt (row a)))%Z.

(** ** The query of [GET /api/customers] *)

Definition validSortFields : list string :=
  ["name"; "email"; "amountToPay"; "amountPaid"; "createdAt"; "updatedAt"].

Definition validOrder : list string := ["ASC"; "DESC"].

Section ListQuery.

(** [String.prototype.toUpperCase] and [parseInt] (with [None] for
    [NaN]), on which the construction of the query does not depend. *)
Variable toUpperCase : string -> string.
Variable parseInt : string -> option Z.

(** The SQL text and its parameters, from the query-string parameters
    [sortBy], [order], [limit] and [offset] ([None] when absent; the
    defaults are those of the destructuring, and [parseInt(0)] is 0). *)
Definition listQuery (sortBy order limit offset : option string)
  : string * list (option Z) :=
  let sortBy := default "name" sortBy in
  let order := default "ASC" order in
  let query := "SELECT * FROM customers" in
  let query :=
    if JS.includes validSortFields sortBy
       && JS.includes validOrder (toUpperCase order)
    then query ++ " ORDER BY " ++ sortBy ++ " " ++ toUpperCase order
    else query in
  match limit with
  | Some l =>
      if negb (String.eqb l "")
      then (query ++ " LIMIT ? OFFSET ?",
            [parseInt l;
             match offset with Some o => parseInt o | None => Some 0%Z end])
      else (query, [])
  | None => (query, [])
  end.

End ListQuery.

(** Every text the query can be: with or without one of the twelve
    orderings, with or without the paging clause. *)
Definition orderings : list string :=
  flat_map (fun f => map (fun o => " ORDER BY " ++ f ++ " " ++ o) validOrder)
    validSortFields.

Definition allQueries : list string :=
  flat_map (fun o => ["SELECT * FROM customers" ++ o;
                      "SELECT * FROM customers" ++ o ++ " LIMIT ? OFFSET ?"])
    ("" :: orderings).

(** ASCII upper case, for the examples. *)
Definition upperAscii (c : ascii) : ascii :=
  let n := nat_of_ascii c in
  if ((97 <=? n) && (n <=? 122))%nat then ascii_of_nat (n - 32) else c.

Fixpoint upper (s : string) : string :=
  match s with
  | EmptyString => EmptyString
  | String c s' => String (upperAscii c) (upper s')
  end.

(** ** The dashboard page

    The logic of the React component [App] that does not draw: the
    summary, the status badge, and what the two forms check before they
    call the API. *)

Module App.

(** [interface Entry], the element type of the list the page keeps (the
    [data] of [GET /api/customers]). *)
Record Entry : Type := {
  id : option Z;
  name : string;
  number : string;
  email : string;
  amountToPay : Q;
  amountPaid : Q
}.

(** The five text inputs of the customer form. *)
Record Form : Type := {
  form_name : string;
  form_number : string;
  form_email : string;
  form_amountToPay : string;
  form_amountPaid : string
}.

(** [typeof x === 'number'] on a field declared [number]. *)
Definition isNumber (x : Q) : bool := negb (JS.not_a_number (JS.JNum x)).

Record Summary : Type := {
  totalAmountToPay : Q;
  totalAmountPaid : Q;
  totalPending : Q;
  customersCount : nat;
  fullyPaidCount : nat;
  pendingCount : nat
}.

(** [const summary = useMemo(...)] *)
Definition summary (entries : list Entry) : Summary :=
  if (length entries =? 0)%nat
  then {| totalAmountToPay := 0; totalAmountPaid := 0; totalPending := 0;
          customersCount := 0; fullyPaidCount := 0; pendingCount := 0 |}
  else
    let totalAmountToPay :=
      fold_left
        (fun sum entry =>
           sum + (if isNumber (amountToPay entry) then amountToPay entry else 0))
        entries 0 in
    let totalAmountPaid :=
      fold_left
        (fun sum entry =>
           sum + (if isNumber (amountPaid entry) then amountPaid entry else 0))
        entries 0 in
    {| totalAmountToPay := totalAmountToPay;
       totalAmountPaid := totalAmountPaid;
       totalPending := totalAmountToPay - totalAmountPaid;
       customersCount := length entries;
       fullyPaidCount :=
         length
           (List.filter
              (fun entry =>
                 isNumber (amountToPay entry) && isNumber (amountPaid entry)
                 && JS.ge (amountPaid entry) (amountToPay entry)) entries);
       pendingCount :=
         length
           (List.filter
              (fun entry =>
                 isNumber (amountToPay entry) && isNumber (amountPaid entry)
                 && JS.gt (amountToPay entry) (amountPaid entry)) entries) |}.

(** [getStatusBadge]: the text of the badge. *)
Definition getStatusBadge (amountToPay amountPaid : Q) : string :=
  let pending := amountToPay - amountPaid in
  if JS.ge 0 pending then "Paid"
  else if JS.gt amountPaid 0 then "Partial"
  else "Pending".

(** [String.prototype.trim] *)
Fixpoint trimStart (s : string) : string :=
  match s with
  | EmptyString => EmptyString
  | String c s' => if is_space c then trimStart s' else s
  end.

Fixpoint trimEnd (s : string) : string :=
  match s with
  | EmptyString => EmptyString
  | String c s' =>
      match trimEnd s' with
      | EmptyString => if is_space c then EmptyString else String c EmptyString
      | t => String c t
      end
  end.

Definition trim (s : string) : string := trimEnd (trimStart s).

(** The JSON body the customer form sends. *)
Record Payload : Type := {
  payload_name : string;
  payload_number : string;
  payload_email : string;
  payload_amountToPay : Q;
  payload_amountPaid : Q
}.

Section Forms.

(** [parseFloat], with [None] for [NaN]; a text it would read as an
    infinity is outside the model, as the amounts are rationals. *)
Variable parseFloat : string -> option Q.

(** [parseFloat(s) < 0] *)
Definition negative (s : string) : bool :=
  match parseFloat s with Some q => JS.lt q 0 | None => false end.

(** [parseFloat(s) || 0] *)
Definition orZero (s : string) : Q :=
  match parseFloat s with
  | Some q => if JS.strict_eq q 0 then 0 else q
  | None => 0
  end.

(** [handleSubmit], up to the call: the error it shows or the payload it
    sends. *)
Definition handleSubmit (form : Form) : string + Payload :=
  if String.eqb (trim (form_name form)) "" then inl "Customer name is required"
  else if String.eqb (trim (form_number form)) "" then inl "Phone number is required"
  else if String.eqb (trim (form_email form)) "" then inl "Email address is required"
  else if negb (Regex.test emailRegex (trim (form_email form)))
  then inl "Please enter a valid email address"
  else if negative (form_amountToPay form) || negative (form_amountPaid form)
  then inl "Amounts cannot be negative"
  else
    match parseFloat (form_amountToPay form) with
    | None => inl "Amount to pay must be a valid number"
    | Some _ =>
        inr {| payload_name := trim (form_name form);
               payload_number := trim (form_number form);
               payload_email := trim (form_email form);
               payload_amountToPay := orZero (form_amountToPay form);
               payload_amountPaid := orZero (form_amountPaid form) |}
    end.

End Forms.

(** [handlePaymentClick]: the error it shows, or the entry it opens the
    payment form for. *)
Definition handlePaymentClick (entry : Entry) : string + Entry :=
  match id entry with
  | None | Some 0%Z => inl "Cannot process payment: Missing customer ID"
  | Some _ =>
      let remainingAmount := amountToPay entry - amountPaid entry in
      if JS.ge 0 remainingAmount
      then inl "This customer has no pending payment. Payment is already complete!"
      else inr entry
  end.

End App.


(** The body of the request the customer form makes. *)
Definition bodyOf (p : App.Payload) : customerBody :=
  {| body_name := Some (App.payload_name p);
     body_number := Some (App.payload_number p);
     body_email := Some (App.payload_email p);
     body_amountToPay := JS.JNum (App.payload_amountToPay p);
     body_amountPaid := JS.JNum (App.payload_amountPaid p) |}.


(** A form with blanks around the text and no amount paid, a [parseFloat]
    that reads the one number in it, and the payload the form makes. *)
Definition formAnn : App.Form :=
  {| App.form_name := " Ann "; App.form_number := "555";
     App.form_email := "ann@x.io "; App.form_amountToPay := "100";
     App.form_amountPaid := "" |}.

Definition parse100 (s : string) : option Q :=
  if String.eqb s "100" then Some 100 else None.

Definition payloadAnn : App.Payload :=
  {| App.payload_name := "Ann"; App.payload_number := "555";
     App.payload_email := "ann@x.io"; App.payload_amountToPay := 100;
     App.payload_amountPaid := 0 |}.

(** Whether a string begins, or ends, with a white-space character. *)
Definition starts_with_space (s : string) : bool :=
  match s with String c _ => is_space c | EmptyString => false end.

Fixpoint ends_with_space (s : string) : bool :=
  match s with
  | EmptyString => false
  | String c EmptyString => is_space c
  | String _ s' => ends_with_space s'
  end.

(** A text field as the page sends it: not empty, no white space at
    either end. *)
Definition trimmed (s : string) : Prop :=
  s <> "" /\ starts_with_space s = false /\ ends_with_space s = false.

(** ** Binary64 numbers

    The JavaScript numbers of the program are IEEE 754 binary64 values.
    [B64.num] is that type by value: NaN, the two infinities, the negative
    zero, and the finite numbers as rationals ([Fin 0] is the positive
    zero).  An operation computes the exact rational result and rounds it
    to the nearest binary64 number, ties to even, as the language
    specification prescribes for [+], [-], [*] and [/].  The calculator,
    the payment route's sum, the page's balance check and the dashboard's
    collection efficiency are embedded a second time over this type; the
    statements about what these compute numerically are made there. *)

Module B64.

Inductive num : Type :=
| NaN
| Inf (neg : bool)
| NZero
| Fin (q : Q).

(** [2^k] *)
Definition pow2 (k : Z) : Q := Qpower 2 k.

(** The exponent [e] with [2^e <= q < 2^(e+1)], for [q > 0]. *)
Definition binade (q : Q) : Z :=
  let e0 := (Z.log2 (Qnum q) - Z.log2 (Zpos (Qden q)))%Z in
  if Qle_bool (pow2 e0) q then e0 else (e0 - 1)%Z.

(** The integer nearest to [x], the even one of two that are equally
    near. *)
Definition rne (x : Q) : Z :=
  let f := Qfloor x in
  let d := x - inject_Z f in
  if Qle_bool d (1 # 2)
  then if Qeq_bool d (1 # 2) then (if Z.even f then f else f + 1)%Z else f
  else (f + 1)%Z.

(** The distance between neighbouring binary64 numbers around [q > 0]:
    53 significant bits, down to the exponent -1022 of the subnormal
    numbers. *)
Definition quantum (q : Q) : Q := pow2 (Z.max (binade q) (-1022) - 52).

(** The multiple of [quantum q] nearest to [q]. *)
Definition nearest (q : Q) : Q := inject_Z (rne (q / quantum q)) * quantum q.

(** A magnitude [q >= 0] rounded to binary64; [None] is the overflow to
    infinity. *)
Definition round_mag (q : Q) : option Q :=
  if Qeq_bool q 0 then Some 0
  else if Qle_bool (pow2 1024) (nearest q) then None
       else Some (Qred (nearest q)).

Definition negative (q : Q) : bool := negb (Qle_bool 0 q).

(** The number with sign [s] (true: negative) and rounded magnitude [o]. *)
Definition mk (s : bool) (o : option Q) : num :=
  match o with
  | None => Inf s
  | Some m =>
      if Qeq_bool m 0 then (if s then NZero else Fin 0)
      else Fin (if s then - m else m)
  end.

(** The number a decimal literal denotes, in a JSON body or for
    [parseFloat]: the binary64 number nearest to it. *)
Definition of_Q (q : Q) : num := mk (negative q) (round_mag (Qabs q)).

Definition sign (a : num) : bool :=
  match a with
  | NaN => false
  | Inf s => s
  | NZero => true
  | Fin q => negative q
  end.

Definition val (a : num) : Q :=
  match a with Fin q => q | _ => 0 end.

Definition is_zero (a : num) : bool :=
  match a with NZero => true | Fin q => Qeq_bool q 0 | _ => false end.

(** [-a] *)
Definition neg (a : num) : num :=
  match a with
  | NaN => NaN
  | Inf s => Inf (negb s)
  | NZero => Fin 0
  | Fin q => if Qeq_bool q 0 then NZero else Fin (- q)
  end.

(** [a + b] *)
Definition add (a b : num) : num :=
  match a, b with
  | NaN, _ | _, NaN => NaN
  | Inf s1, Inf s2 => if Bool.eqb s1 s2 then Inf s1 else NaN
  | Inf s, _ | _, Inf s => Inf s
  | _, _ =>
      let v := val a + val b in
      if Qeq_bool v 0 then (if sign a && sign b then NZero else Fin 0)
      else mk (negative v) (round_mag (Qabs v))
  end.

(** [a - b] *)
Definition sub (a b : num) : num := add a (neg b).

(** [a * b] *)
Definition mul (a b : num) : num :=
  match a, b with
  | NaN, _ | _, NaN => NaN
  | Inf s1, Inf s2 => Inf (xorb s1 s2)
  | Inf _, _ => if is_zero b then NaN else Inf (xorb (sign a) (sign b))
  | _, Inf _ => if is_zero a then NaN else Inf (xorb (sign a) (sign b))
  | _, _ => mk (xorb (sign a) (sign b)) (round_mag (Qabs (val a) * Qabs (val b)))
  end.

(** [a / b] *)
Definition div (a b : num) : num :=
  match a, b with
  | NaN, _ | _, NaN => NaN
  | Inf _, Inf _ => NaN
  | Inf _, _ => Inf (xorb (sign a) (sign b))
  | _, Inf _ => mk (xorb (sign a) (sign b)) (Some 0)
  | _, _ =>
      if is_zero b
      then if is_zero a then NaN else Inf (xorb (sign a) (sign b))
      else mk (xorb (sign a) (sign b)) (round_mag (Qabs (val a) / Qabs (val b)))
  end.

(** [a < b], [a <= b], [a > b], [a >= b], [a === b]: false as soon as one
    side is NaN; the two zeros are equal. *)
Definition lt (a b : num) : bool :=
  match a, b with
  | NaN, _ | _, NaN => false
  | Inf s1, Inf s2 => s1 && negb s2
  | Inf s, _ => s
  | _, Inf s => negb s
  | _, _ => negb (Qle_bool (val b) (val a))
  end.

Definition le (a b : num) : bool :=
  match a, b with
  | NaN, _ | _, NaN => false
  | Inf s1, Inf s2 => s1 || negb s2
  | Inf s, _ => s
  | _, Inf s => negb s
  | _, _ => Qle_bool (val a) (val b)
  end.

Definition gt (a b : num) : bool := lt b a.
Definition ge (a b : num) : bool := le b a.

Definition strict_eq (a b : num) : bool :=
  match a, b with
  | NaN, _ | _, NaN => false
  | Inf s1, Inf s2 => Bool.eqb s1 s2
  | Inf _, _ | _, Inf _ => false
  | _, _ => Qeq_bool (val a) (val b)
  end.

(** [Math.max(a, b)] and [Math.min(a, b)]: NaN if one argument is, and
    the positive zero counts as greater than the negative one. *)
Definition Math_max (a b : num) : num :=
  match a, b with
  | NaN, _ | _, NaN => NaN
  | _, _ =>
      if lt a b then b
      else if lt b a then a
      else if is_zero a && is_zero b
           then (if sign a && sign b then NZero else Fin 0)
           else a
  end.

Definition Math_min (a b : num) : num :=
  match a, b with
  | NaN, _ | _, NaN => NaN
  | _, _ =>
      if lt a b then a
      else if lt b a then b
      else if is_zero a && is_zero b
           then (if sign a || sign b then NZero else Fin 0)
           else a
  end.

(** [Math.round(a)]: the integer nearest to [a], halves going up; what
    rounds to zero from below is the negative zero. *)
Definition Math_round (a : num) : num :=
  match a with
  | Fin q =>
      if Qeq_bool q 0 then a
      else
        let r := Qfloor (q + (1 # 2)) in
        if (r =? 0)%Z then (if negative q then NZero else Fin 0)
        else Fin (inject_Z r)
  | _ => a
  end.

(** [isNaN(a)] *)
Definition isNaN (a : num) : bool :=
  match a with NaN => true | _ => false end.

Definition zero : num := Fin 0.
Definition hundred : num := Fin 100.

(** [array.length] as a number (an array has fewer than 2^32 elements, so
    nothing is rounded). *)
Definition of_nat (n : nat) : num := Fin (inject_Z (Z.of_nat n)).

(** Neither NaN nor infinite. *)
Definition finite (a : num) : Prop :=
  match a with NZero | Fin _ => True | _ => False end.

(** [Fin] holds any rational; the binary64 numbers among them are those
    that rounding leaves as they are. *)
Definition is_double (a : num) : bool :=
  match a with
  | Fin q =>
      match round_mag (Qabs q) with
      | Some m => Qeq_bool m (Qabs q)
      | None => false
      end
  | _ => true
  end.

(** The whole multiples of the smallest positive binary64 number. *)
Definition on_grid (q : Q) : Prop := exists k : Z, q == inject_Z k * pow2 (-1074).

(** [x] is [+Infinity] or a finite number not below [c]. *)
Definition at_least (c : Q) (x : num) : Prop :=
  x = Inf false \/ exists q, x = Fin q /\ c <= q.

(** A finite number between 0 and [b]. *)
Definition between0 (b : Q) (x : num) : Prop := finite x /\ 0 <= val x <= b.

(** *** The program over binary64 *)

Record customer : Type := {
  id : Z;
  name : string;
  number : string;
  email : string;
  amountToPay : num;
  amountPaid : num;
  createdAt : string;
  updatedAt : string
}.

Record customerDetails : Type := {
  row : customer;
  amountRemaining : num;
  overpayment : num;
  paymentStatus : string;
  paymentPercentage : num
}.

Definition calculateCustomerDetails (c : customer) : customerDetails :=
  let amountRemaining := Math_max zero (sub (amountToPay c) (amountPaid c)) in
  let overpayment := Math_max zero (sub (amountPaid c) (amountToPay c)) in
  let paymentStatus :=
    if strict_eq (amountPaid c) zero then "Not Paid"
    else if ge (amountPaid c) (amountToPay c) then
      (if gt (amountPaid c) (amountToPay c) then "Overpaid" else "Paid")
    else "Partially Paid" in
  {| row := c;
     amountRemaining := amountRemaining;
     overpayment := overpayment;
     paymentStatus := paymentStatus;
     paymentPercentage :=
       if gt (amountToPay c) zero
       then Math_min hundred (mul (div (amountPaid c) (amountToPay c)) hundred)
       else zero |}.

Definition mkAmounts (i : Z) (toPay paid : num) : customer :=
  {| id := i; name := "n"; number := "0"; email := "e@x.io";
     amountToPay := toPay; amountPaid := paid;
     createdAt := "2024-01-01 00:00:00"; updatedAt := "2024-01-01 00:00:00" |}.

(** [UPDATE customers SET amountPaid = ?, updatedAt = CURRENT_TIMESTAMP] *)
Definition setAmountPaid (now : string) (newAmountPaid : num) (c : customer)
  : customer :=
  {| id := id c; name := name c; number := number c; email := email c;
     amountToPay := amountToPay c; amountPaid := newAmountPaid;
     createdAt := createdAt c; updatedAt := now |}.

(** The payment route from its guard on [paymentAmount] (line 392) to the
    derived view it answers with (line 437), for the row [customer] that
    [db.get] found.  [paymentAmount] is a number by its type; [set] says
    whether [paymentType === 'set']; [None] is the answer 400.  The row
    read back is the row with the new amount (a sum of amounts that are
    not negative is never NaN, which the store would keep as NULL). *)
Definition patchPaymentOn (now : string) (customer : customer)
    (paymentAmount : num) (set : bool) : option customerDetails :=
  if lt paymentAmount zero then None
  else
    let newAmountPaid :=
      if set then paymentAmount else add (amountPaid customer) paymentAmount in
    Some (calculateCustomerDetails (setAmountPaid now newAmountPaid customer)).

(** The checks of the page's [handlePayment] on [amount =
    parseFloat(paymentAmount)] (lines 793-801), for an entry that has an
    id: [true] when the request is sent. *)
Definition handlePayment (amountToPay amountPaid amount : num) : bool :=
  if isNaN amount || le amount zero then false
  else
    let remainingAmount := sub amountToPay amountPaid in
    if gt amount remainingAmount then false else true.

(** [Math.round(x * 100) / 100] *)
Definition round2 (x : num) : num := div (Math_round (mul x hundred)) hundred.

Section Dashboard64.

Variable Date_ms : string -> Z.

Definition byCreatedAtDesc (a b : customerDetails) : Z :=
  (Date_ms (createdAt (row b)) - Date_ms (createdAt (row a)))%Z.

Fixpoint sort_insert (x : customerDetails) (l : list customerDetails)
  : list customerDetails :=
  match l with
  | [] => [x]
  | y :: l' =>
      if (byCreatedAtDesc x y <=? 0)%Z then x :: y :: l'
      else y :: sort_insert x l'
  end.

Definition sort (l : list customerDetails) : list customerDetails :=
  fold_right sort_insert [] l.

(** [collectionEfficiency] of [GET /api/dashboard/summary] as it is sent:
    the [reduce] of lines 517-518 runs over the array that
    [recentCustomers] has sorted in place, and line 525 rounds. *)
Definition collectionEfficiency (rows : list customer) : num :=
  let customersWithDetails := map calculateCustomerDetails rows in
  let sorted := sort customersWithDetails in
  round2
    (if (0 <? length sorted)%nat
     then div (fold_left (fun sum c => add sum (paymentPercentage c)) sorted zero)
            (of_nat (length sorted))
     else zero).

End Dashboard64.

(** The mean of a list of numbers as binary64 computes it from left to
    right, 0 for the empty list. *)
Definition mean (l : list num) : num :=
  match l with
  | [] => zero
  | _ => div (fold_left add l zero) (of_nat (length l))
  end.

End B64.

(** * Properties *)

(** ** The comparisons and [Math] functions against [Q]'s order *)

Lemma lt_spec a b : JS.lt a b = true <-> a < b.
Proof.
  unfold JS.lt. rewrite negb_true_iff, <- not_true_iff_false, Qle_bool_iff.
  split; [apply Qnot_le_lt | apply Qlt_not_le].
Qed.

Lemma lt_false a b : JS.lt a b = false <-> b <= a.
Proof.
  rewrite <- not_true_iff_false, lt_spec.
  split; [apply Qnot_lt_le | apply Qle_not_lt].
Qed.

Lemma gt_spec a b : JS.gt a b = true <-> b < a.
Proof. apply lt_spec. Qed.

Lemma gt_false a b : JS.gt a b = false <-> a <= b.
Proof. apply lt_false. Qed.

Lemma ge_spec a b : JS.ge a b = true <-> b <= a.
Proof. apply Qle_bool_iff. Qed.

Lemma ge_false a b : JS.ge a b = false <-> a < b.
Proof.
  unfold JS.ge. rewrite <- not_true_iff_false, Qle_bool_iff.
  split; [apply Qnot_le_lt | apply Qlt_not_le].
Qed.

Lemma strict_eq_spec a b : JS.strict_eq a b = true <-> a == b.
Proof. apply Qeq_bool_iff. Qed.

Lemma strict_eq_false a b : JS.strict_eq a b = false <-> ~ a == b.
Proof.
  unfold JS.strict_eq. rewrite <- not_true_iff_false, Qeq_bool_iff. tauto.
Qed.

(** Turn the boolean tests in the hypotheses into facts of the order. *)
Ltac js_facts :=
  repeat match goal with
  | H : JS.lt _ _ = true |- _ => apply lt_spec in H
  | H : JS.lt _ _ = false |- _ => apply lt_false in H
  | H : JS.gt _ _ = true |- _ => apply gt_spec in H
  | H : JS.gt _ _ = false |- _ => apply gt_false in H
  | H : JS.ge _ _ = true |- _ => apply ge_spec in H
  | H : JS.ge _ _ = false |- _ => apply ge_false in H
  | H : JS.strict_eq _ _ = true |- _ => apply strict_eq_spec in H
  | H : JS.strict_eq _ _ = false |- _ => apply strict_eq_false in H
  | H : Qeq_bool _ _ = true |- _ => apply Qeq_bool_iff in H
  | H : Qeq_bool _ _ = false |- _ => apply Qeq_bool_neq in H
  end.

(** Split on every comparison the goal branches on. *)
Ltac js_cases :=
  repeat match goal with
  | |- context [JS.lt ?a ?b] => destruct (JS.lt a b) eqn:?
  | |- context [JS.gt ?a ?b] => destruct (JS.gt a b) eqn:?
  | |- context [JS.ge ?a ?b] => destruct (JS.ge a b) eqn:?
  | |- context [JS.strict_eq ?a ?b] => destruct (JS.strict_eq a b) eqn:?
  | |- context [Qeq_bool ?a ?b] => destruct (Qeq_bool a b) eqn:?
  end; js_facts.


Lemma Math_max_0_cases x :
  (x <= 0 /\ JS.Math_max 0 x == 0) \/ (0 < x /\ JS.Math_max 0 x == x).
Proof. unfold JS.Math_max. js_cases; [right | left]; split; auto with qarith. Qed.

(** ** The examples of the specification *)

Example status_100_0 :
  paymentStatus (calculateCustomerDetails (mkAmounts 1 100 0)) = "Not Paid".
Proof. reflexivity. Qed.

Example status_100_50 :
  paymentStatus (calculateCustomerDetails (mkAmounts 1 100 50)) = "Partially Paid".
Proof. reflexivity. Qed.

Example status_100_100 :
  paymentStatus (calculateCustomerDetails (mkAmounts 1 100 100)) = "Paid".
Proof. reflexivity. Qed.

Example status_100_150 :
  paymentStatus (calculateCustomerDetails (mkAmounts 1 100 150)) = "Overpaid".
Proof. reflexivity. Qed.

Example status_0_0 :
  paymentStatus (calculateCustomerDetails (mkAmounts 1 0 0)) = "Not Paid".
Proof. reflexivity. Qed.

Example percentage_100_50 :
  paymentPercentage (calculateCustomerDetails (mkAmounts 1 100 50)) == 50.
Proof. reflexivity. Qed.

Example overpayment_100_150 :
  overpayment (calculateCustomerDetails (mkAmounts 1 100 150)) == 50
  /\ amountRemaining (calculateCustomerDetails (mkAmounts 1 100 150)) == 0
  /\ paymentPercentage (calculateCustomerDetails (mkAmounts 1 100 150)) == 100.
Proof. repeat split. Qed.

(** ** The calculator *)

(** The status in terms of the order on the two amounts, for any row. *)
Lemma paymentStatus_cases c :
  let s := paymentStatus (calculateCustomerDetails c) in
  (amountPaid c == 0 /\ s = "Not Paid")
  \/ (~ amountPaid c == 0 /\ amountPaid c < amountToPay c /\ s = "Partially Paid")
  \/ (~ amountPaid c == 0 /\ amountPaid c == amountToPay c /\ s = "Paid")
  \/ (~ amountPaid c == 0 /\ amountToPay c < amountPaid c /\ s = "Overpaid").
Proof.
  simpl. js_cases;
    first [ left; split; [lra | reflexivity]
          | right; left; split; [lra | split; [lra | reflexivity]]
          | right; right; left; split; [lra | split; [lra | reflexivity]]
          | right; right; right; split; [lra | split; [lra | reflexivity]] ].
Qed.

(** C1. For non-negative amounts the status is "Not Paid" when nothing was
    paid (also for the pair 0, 0), "Partially Paid" when the paid amount is
    positive and below the amount to pay, "Paid" when the two are equal and
    positive, and "Overpaid" when the paid amount exceeds the amount to
    pay. *)
Theorem paymentStatus_by_condition c :
  0 <= amountToPay c -> 0 <= amountPaid c ->
  let s := paymentStatus (calculateCustomerDetails c) in
  (amountPaid c == 0 -> s = "Not Paid")
  /\ (0 < amountPaid c -> amountPaid c < amountToPay c -> s = "Partially Paid")
  /\ (amountPaid c == amountToPay c -> 0 < amountToPay c -> s = "Paid")
  /\ (amountToPay c < amountPaid c -> s = "Overpaid").
Proof.
  intros HtoPay Hpaid s. subst s.
  destruct (paymentStatus_cases c) as [[E ->]|[[N [L ->]]|[[N [E ->]]|[N [G ->]]]]];
    repeat split; intros; try reflexivity; exfalso; lra.
Qed.

Lemma paymentStatus_by_condition_witness :
  (0 <= 100 /\ 0 <= 50)
  /\ paymentStatus (calculateCustomerDetails (mkAmounts 7 100 50)) = "Partially Paid"
  /\ paymentStatus (calculateCustomerDetails (mkAmounts 7 0 0)) = "Not Paid".
Proof.
  split; [split; discriminate |]. split.
  - destruct (paymentStatus_by_condition (mkAmounts 7 100 50))
      as (_ & H & _ & _); [discriminate | discriminate |].
    apply H; reflexivity.
  - destruct (paymentStatus_by_condition (mkAmounts 7 0 0))
      as (H & _ & _ & _); [discriminate | discriminate |].
    apply H; reflexivity.
Defined.

Lemma validStatuses_NoDup : List.NoDup validStatuses.
Proof.
  unfold validStatuses.
  repeat apply List.NoDup_cons; try apply List.NoDup_nil;
    simpl; intros H; repeat (destruct H as [H|H]; [discriminate |]); exact H.
Qed.

Lemma paymentStatus_valid c :
  In (paymentStatus (calculateCustomerDetails c)) validStatuses.
Proof.
  destruct (paymentStatus_cases c) as [[_ E]|[(_ & _ & E)|[(_ & _ & E)|(_ & _ & E)]]];
    cbv zeta in E; rewrite E; simpl; auto.
Qed.

(** C3. For non-negative amounts exactly one of the four defining
    conditions holds, the calculator returns the status of that condition,
    and this status is one of four distinct values; the calculator is a
    function defined on every row, with no error outcome. *)
Theorem paymentStatus_exactly_one c :
  0 <= amountToPay c -> 0 <= amountPaid c ->
  let toPay := amountToPay c in
  let paid := amountPaid c in
  (Nat.b2n (cond_NotPaid toPay paid) + Nat.b2n (cond_PartiallyPaid toPay paid)
   + Nat.b2n (cond_Paid toPay paid) + Nat.b2n (cond_Overpaid toPay paid) = 1)%nat
  /\ spec_status toPay paid = [paymentStatus (calculateCustomerDetails c)]
  /\ In (paymentStatus (calculateCustomerDetails c)) validStatuses
  /\ List.NoDup validStatuses.
Proof.
  intros HtoPay Hpaid toPay paid. subst toPay paid.
  split; [| split; [| split; [apply paymentStatus_valid | apply validStatuses_NoDup]]].
  - unfold cond_NotPaid, cond_PartiallyPaid, cond_Paid, cond_Overpaid.
    js_cases; simpl; try reflexivity; exfalso; lra.
  - unfold spec_status, cond_NotPaid, cond_PartiallyPaid, cond_Paid, cond_Overpaid.
    simpl. unfold JS.strict_eq.
    js_cases; simpl; try reflexivity; exfalso; lra.
Qed.

Lemma paymentStatus_exactly_one_witness :
  (0 <= 100 /\ 0 <= 100)
  /\ spec_status 100 100
     = [paymentStatus (calculateCustomerDetails (mkAmounts 3 100 100))]
  /\ In (paymentStatus (calculateCustomerDetails (mkAmounts 3 100 100)))
       validStatuses.
Proof.
  split; [split; discriminate |].
  destruct (paymentStatus_exactly_one (mkAmounts 3 100 100))
    as (_ & H & I & _); [discriminate | discriminate |].
  split; [exact H | exact I].
Defined.

(** C4 is a statement about the computed percentage: it is settled over
    binary64 numbers, in the last part of the file. *)



(** C6 relates computed amounts: it is settled over binary64 numbers, in
    the last part of the file. *)

(** ** The aggregator *)

Lemma validDetails_map rows : validDetails (map calculateCustomerDetails rows).
Proof.
  unfold validDetails. apply List.Forall_forall. intros d Hd.
  apply in_map_iff in Hd. destruct Hd as (r & <- & _).
  apply paymentStatus_valid.
Qed.

Lemma validDetails_withStatus s l : validDetails l -> validDetails (withStatus s l).
Proof.
  unfold validDetails, withStatus. rewrite !List.Forall_forall.
  intros H d Hd. apply filter_In in Hd. now apply H.
Qed.

(** Each element falls in exactly one bucket, so the buckets partition the
    array. *)
Lemma bucketSum_length l :
  validDetails l -> bucketSum (countStatuses l) = length l.
Proof.
  unfold validDetails, bucketSum, countStatuses, withStatus. simpl.
  induction 1 as [| d l Hd _ IH]; [reflexivity |].
  simpl in Hd. simpl.
  destruct Hd as [E|[E|[E|[E|[]]]]]; rewrite <- E; simpl; lia.
Qed.

Lemma sort_insert_Permutation Date_ms x l :
  Permutation (sort_insert Date_ms x l) (x :: l).
Proof.
  induction l as [| y l IH]; simpl; [reflexivity |].
  destruct (byCreatedAtDesc Date_ms x y <=? 0)%Z; [reflexivity |].
  rewrite IH. apply perm_swap.
Qed.

Lemma sort_Permutation Date_ms l : Permutation (sort Date_ms l) l.
Proof.
  induction l as [| x l IH]; simpl; [reflexivity |].
  rewrite sort_insert_Permutation. now apply perm_skip.
Qed.

Lemma sort_length Date_ms l : length (sort Date_ms l) = length l.
Proof. apply Permutation_length, sort_Permutation. Qed.

(** C8. In both summaries the four status buckets add up to the number of
    customers reported. *)
Theorem statusCounts_sum_totalCustomers Date_ms rows status :
  let s1 := summary (getCustomers rows status) in
  let s2 := totals (dashboardSummaryOf Date_ms rows) in
  bucketSum (statusCounts s1) = totalCustomers s1
  /\ bucketSum (statusCounts s2) = totalCustomers s2.
Proof.
  simpl. split.
  - destruct status as [s|]; [destruct (_ && _) |];
      apply bucketSum_length;
      try apply validDetails_withStatus; apply validDetails_map.
  - apply bucketSum_length, validDetails_map.
Qed.

(** C9, as stated, fails: three customers who each paid a third have mean
    33.33..., and the dashboard reports 33.33. *)
Lemma collectionEfficiency_not_the_mean :
  collectionEfficiency (dashboardSummaryOf sameInstant thirds) == 3333 # 100
  /\ mean (percentages thirds) == 100 # 3
  /\ ~ collectionEfficiency (dashboardSummaryOf sameInstant thirds)
       == mean (percentages thirds).
Proof. repeat split. intros H. vm_compute in H. discriminate H. Qed.

(** ** The payment mutation *)

Lemma paymentType_not_set type :
  type <> JS.JStr "set" ->
  JS.is_string (JS.default_to (JS.JStr "add") type) "set" = false.
Proof.
  intros N. destruct type as [| | b | q | s |]; try reflexivity.
  simpl. apply String.eqb_neq. congruence.
Qed.






(** Whether a request is rejected does not depend on its [paymentType]. *)
Lemma rejection_independent_of_paymentType now (db : gmap Z customer) o a type type' :
  let req t := {| customerId := o; paymentAmount := a; paymentType := t |} in
  (patchPayment now db (req type)).1 = (patchPayment now db (req type')).1
  \/ (accepted (patchPayment now db (req type)).1 = true
      /\ accepted (patchPayment now db (req type')).1 = true).
Proof.
  simpl. unfold patchPayment. simpl.
  destruct o as [[| p | p] |]; auto;
    destruct a; auto; destruct (JS.lt q 0); auto;
    destruct (db !! _) eqn:E; auto;
    right; rewrite !lookup_insert_eq; auto.
Qed.

(** A negative amount, or an amount that is no number, is refused with
    status 400 and the table stays as it was. *)
Lemma patchPayment_rejects_negative now (db : gmap Z customer) o a type :
  (JS.not_a_number a = true \/ exists q, a = JS.JNum q /\ q < 0) ->
  let r := patchPayment now db
             {| customerId := o; paymentAmount := a; paymentType := type |} in
  statusCode r.1 = 400%Z /\ r.2 = db.
Proof.
  intros H. unfold patchPayment. simpl.
  destruct o as [[| p | p] |]; simpl; auto;
    destruct H as [H | (q & -> & H)];
    try (destruct a; try discriminate H; simpl; now auto);
    apply lt_spec in H; rewrite H; simpl; auto.
Qed.

(** C2 fails at 0: the test is [paymentAmount < 0], so a payment of 0 is
    accepted; with "set" it overwrites the 50 already paid, and with "add"
    it is accepted as well. *)
Theorem zero_payment_accepted :
  let set := patchPayment "T" db1 (payment 1 0 (JS.JStr "set")) in
  let add := patchPayment "T" db1 (payment 1 0 (JS.JStr "add")) in
  storedPaid db1 1 = Some 50
  /\ accepted set.1 = true /\ statusCode set.1 = 200%Z
  /\ storedPaid set.2 1 = Some 0
  /\ accepted add.1 = true /\ set.2 <> db1.
Proof.
  simpl. repeat split. intros E.
  assert (F : storedPaid (patchPayment "T" db1 (payment 1 0 (JS.JStr "set"))).2 1
              = storedPaid db1 1) by now rewrite E.
  vm_compute in F. discriminate F.
Qed.

(** ** Regular expressions: the matcher against the language *)

Lemma append_String c (s t : string) : String c s ++ t = String c (s ++ t).
Proof. reflexivity. Qed.

Lemma append_nil_r (s : string) : s ++ "" = s.
Proof.
  induction s as [| c s IH]; [reflexivity |]. rewrite append_String. congruence.
Qed.

Lemma append_assoc (s u v : string) : (s ++ u) ++ v = s ++ (u ++ v).
Proof.
  induction s as [| c s IH]; [reflexivity |]. rewrite !append_String. congruence.
Qed.

Lemma append_eq_nil (u v : string) : u ++ v = "" -> u = "" /\ v = "".
Proof.
  destruct u; [intros E; split; [reflexivity | exact E] |].
  rewrite append_String. discriminate.
Qed.

Lemma append_eq_String (u v : string) c s :
  u ++ v = String c s ->
  (u = "" /\ v = String c s) \/ (exists u', u = String c u' /\ s = u' ++ v).
Proof.
  destruct u as [| d u]; [intros E; left; split; [reflexivity | exact E] |].
  rewrite append_String. intros E. injection E as -> <-. right. eauto.
Qed.

Lemma nullable_lang r : Regex.nullable r = true <-> Regex.lang r "".
Proof.
  split.
  - induction r as [| | p | r IHr s IHs | r IHr s IHs | r IHr]; simpl; intros H;
      try discriminate.
    + constructor.
    + apply andb_true_iff in H. destruct H as [Hr Hs].
      change "" with ("" ++ ""). constructor; auto.
    + apply orb_true_iff in H. destruct H; [apply Regex.lang_Alt_l | apply Regex.lang_Alt_r]; auto.
    + constructor.
  - intros H. remember "" as w eqn:Ew.
    induction H as [| p c Hc | r s u v _ IHu _ IHv | r s u _ IH | r s u _ IH
                    | r | r u v _ _ _ _]; simpl; try reflexivity; try discriminate.
    + apply append_eq_nil in Ew. destruct Ew as [-> ->].
      now rewrite IHu, IHv.
    + now rewrite IH.
    + rewrite IH by assumption. apply orb_true_r.
Qed.

Lemma deriv_sound c r : forall s, Regex.lang (Regex.deriv c r) s -> Regex.lang r (String c s).
Proof.
  induction r as [| | p | r IHr q IHq | r IHr q IHq | r IHr]; simpl; intros s H.
  - inversion H.
  - inversion H.
  - destruct (p c) eqn:Hp; inversion H; subst. now constructor.
  - assert (S1 : forall w, Regex.lang (Regex.Seq (Regex.deriv c r) q) w ->
                           Regex.lang (Regex.Seq r q) (String c w)).
    { intros w Hw. inversion Hw; subst.
      change (String c (u ++ v)) with (String c u ++ v). constructor; auto. }
    destruct (Regex.nullable r) eqn:N; [| now apply S1].
    inversion H; subst; [now apply S1 |].
    change (String c s) with ("" ++ String c s).
    constructor; [now apply nullable_lang | auto].
  - inversion H; subst; [apply Regex.lang_Alt_l | apply Regex.lang_Alt_r]; auto.
  - inversion H; subst.
    change (String c (u ++ v)) with (String c u ++ v). constructor; auto.
Qed.

Lemma deriv_complete c r w :
  Regex.lang r w -> forall s, w = String c s -> Regex.lang (Regex.deriv c r) s.
Proof.
  induction 1 as [| p d Hd | r q u v Hu IHu Hv IHv | r q u _ IH | r q u _ IH
                  | r | r u v Hu IHu Hv IHv]; intros s E; simpl.
  - discriminate.
  - injection E as -> <-. rewrite Hd. constructor.
  - apply append_eq_String in E. destruct E as [[-> ->] | (u' & -> & ->)].
    + apply nullable_lang in Hu. rewrite Hu. apply Regex.lang_Alt_r. now apply IHv.
    + assert (L : Regex.lang (Regex.Seq (Regex.deriv c r) q) (u' ++ v))
        by (constructor; auto).
      destruct (Regex.nullable r); [now apply Regex.lang_Alt_l | exact L].
  - apply Regex.lang_Alt_l. now apply IH.
  - apply Regex.lang_Alt_r. now apply IH.
  - discriminate.
  - apply append_eq_String in E. destruct E as [[-> ->] | (u' & -> & ->)].
    + now apply IHv.
    + constructor; auto.
Qed.

(** The matcher decides membership in the language. *)
Lemma test_lang s : forall r, Regex.test r s = true <-> Regex.lang r s.
Proof.
  induction s as [| c s IH]; intros r; simpl.
  - apply nullable_lang.
  - rewrite IH. split; [apply deriv_sound |].
    intros H. now apply (deriv_complete c r (String c s)).
Qed.

Lemma lang_Seq_inv r q w :
  Regex.lang (Regex.Seq r q) w <->
  exists u v, w = u ++ v /\ Regex.lang r u /\ Regex.lang q v.
Proof.
  split.
  - intros H. inversion H; subst. eauto.
  - intros (u & v & -> & Hu & Hv). now constructor.
Qed.

Lemma lang_Class_inv p w :
  Regex.lang (Regex.Class p) w <-> exists c, w = String c "" /\ p c = true.
Proof.
  split.
  - intros H. inversion H; subst. eauto.
  - intros (c & -> & Hc). now constructor.
Qed.

Lemma lang_Star_Class p w :
  Regex.lang (Regex.Star (Regex.Class p)) w <-> all_chars p w = true.
Proof.
  split.
  - intros H. remember (Regex.Star (Regex.Class p)) as r eqn:Er.
    induction H as [| | | | | r | r u v Hu _ Hv IHv]; try discriminate; [reflexivity |].
    injection Er as ->. inversion Hu as [| q c Hc | | | | |]; subst.
    change (String c "" ++ v) with (String c v). simpl.
    rewrite IHv by reflexivity. now rewrite Hc.
  - induction w as [| c w IH]; simpl; intros H; [constructor |].
    apply andb_true_iff in H. destruct H as [Hc Hw].
    change (String c w) with (String c "" ++ w).
    constructor; [now constructor | auto].
Qed.

Lemma lang_Plus_Class p w :
  Regex.lang (Regex.Plus (Regex.Class p)) w <-> w <> "" /\ all_chars p w = true.
Proof.
  unfold Regex.Plus. rewrite lang_Seq_inv. split.
  - intros (u & v & -> & Hu & Hv).
    apply lang_Class_inv in Hu. destruct Hu as (c & -> & Hc).
    apply lang_Star_Class in Hv. change (String c "" ++ v) with (String c v).
    simpl. rewrite Hc, Hv. split; [discriminate | reflexivity].
  - intros [N H]. destruct w as [| c w]; [contradiction |].
    simpl in H. apply andb_true_iff in H. destruct H as [Hc Hw].
    exists (String c ""), w. split; [reflexivity |].
    split; [now constructor | now apply lang_Star_Class].
Qed.

(** ** The email pattern *)

Lemma all_chars_app p (u v : string) :
  all_chars p (u ++ v) = all_chars p u && all_chars p v.
Proof.
  induction u as [| c u IH]; [reflexivity |].
  rewrite append_String. simpl. rewrite IH. apply andb_assoc.
Qed.

Lemma count_chars_app p (u v : string) :
  count_chars p (u ++ v) = (count_chars p u + count_chars p v)%nat.
Proof.
  induction u as [| c u IH]; [reflexivity |].
  rewrite append_String. simpl. rewrite IH. lia.
Qed.

Lemma length_append (u v : string) :
  String.length (u ++ v) = (String.length u + String.length v)%nat.
Proof.
  induction u as [| c u IH]; [reflexivity |].
  rewrite append_String. simpl. now rewrite IH.
Qed.

Lemma all_chars_count_0 p q (s : string) :
  (forall c, p c = true -> q c = false) ->
  all_chars p s = true -> count_chars q s = 0%nat.
Proof.
  intros Hpq. induction s as [| c s IH]; simpl; [reflexivity |].
  intros H. apply andb_true_iff in H. destruct H as [Hc Hs].
  rewrite (Hpq c Hc), IH by assumption. reflexivity.
Qed.

Lemma plain_not_at c : plain c = true -> Ascii.eqb "@" c = false.
Proof.
  unfold plain. rewrite negb_true_iff, orb_false_iff. intros [_ H].
  now rewrite Ascii.eqb_sym.
Qed.

Lemma plain_not_space c : plain c = true -> is_space c = false.
Proof. unfold plain. rewrite negb_true_iff, orb_false_iff. tauto. Qed.

Lemma plain_run_length s : plain_run s -> (1 <= String.length s)%nat.
Proof. intros [N _]. destruct s; [contradiction | simpl; lia]. Qed.

Lemma emailRegex_parts s :
  Regex.test emailRegex s = true ->
  exists l d1 d2,
    s = l ++ "@" ++ d1 ++ "." ++ d2
    /\ plain_run l /\ plain_run d1 /\ plain_run d2.
Proof.
  rewrite test_lang. unfold emailRegex, Regex.Chr.
  - intros H.
    apply lang_Seq_inv in H. destruct H as (l & r1 & -> & Hl & H).
    apply lang_Seq_inv in H. destruct H as (a & r2 & -> & Ha & H).
    apply lang_Seq_inv in H. destruct H as (d1 & r3 & -> & Hd1 & H).
    apply lang_Seq_inv in H. destruct H as (b & d2 & -> & Hb & Hd2).
    apply lang_Class_inv in Ha. destruct Ha as (ca & -> & Ea).
    apply lang_Class_inv in Hb. destruct Hb as (cb & -> & Eb).
    apply Ascii.eqb_eq in Ea, Eb. subst ca cb.
    apply lang_Plus_Class in Hl, Hd1, Hd2.
    exists l, d1, d2. auto.
Qed.

(** The pattern accepts exactly the strings [l@d1.d2] in which [l], [d1]
    and [d2] are non-empty and free of white space and of [@]. *)
Theorem emailRegex_accepts s :
  Regex.test emailRegex s = true <->
  exists l d1 d2,
    s = l ++ "@" ++ d1 ++ "." ++ d2
    /\ plain_run l /\ plain_run d1 /\ plain_run d2.
Proof.
  split; [apply emailRegex_parts |].
  intros (l & d1 & d2 & -> & Hl & Hd1 & Hd2).
  apply test_lang. unfold emailRegex, Regex.Chr.
  apply lang_Plus_Class in Hl, Hd1, Hd2.
  constructor; [assumption |].
  constructor; [constructor; apply Ascii.eqb_refl |].
  constructor; [assumption |].
  constructor; [constructor; apply Ascii.eqb_refl | assumption].
Qed.

Example email_ok : Regex.test emailRegex "ann@example.com" = true.
Proof. reflexivity. Qed.

Example email_no_dot : Regex.test emailRegex "ann@example" = false.
Proof. reflexivity. Qed.

Example email_two_ats : Regex.test emailRegex "a@b@c.d" = false.
Proof. reflexivity. Qed.

Example email_space : Regex.test emailRegex "a b@c.d" = false.
Proof. reflexivity. Qed.

Example email_dot_first : Regex.test emailRegex "a@.d" = false.
Proof. reflexivity. Qed.

(** An accepted address has exactly one [@], no white space and at least
    five characters. *)
Theorem emailRegex_accepted_shape s :
  Regex.test emailRegex s = true ->
  count_chars (Ascii.eqb "@") s = 1%nat
  /\ count_chars is_space s = 0%nat
  /\ (5 <= String.length s)%nat.
Proof.
  intros H. apply emailRegex_parts in H.
  destruct H as (l & d1 & d2 & -> & Hl & Hd1 & Hd2).
  pose proof (plain_run_length _ Hl). pose proof (plain_run_length _ Hd1).
  pose proof (plain_run_length _ Hd2).
  destruct Hl as [_ Hl], Hd1 as [_ Hd1], Hd2 as [_ Hd2].
  rewrite !count_chars_app, !length_append.
  rewrite (all_chars_count_0 plain (Ascii.eqb "@") l),
    (all_chars_count_0 plain (Ascii.eqb "@") d1),
    (all_chars_count_0 plain (Ascii.eqb "@") d2) by (auto using plain_not_at).
  rewrite (all_chars_count_0 plain is_space l),
    (all_chars_count_0 plain is_space d1),
    (all_chars_count_0 plain is_space d2) by (auto using plain_not_space).
  change (count_chars (Ascii.eqb "@") "@") with 1%nat.
  change (count_chars (Ascii.eqb "@") ".") with 0%nat.
  change (count_chars is_space "@") with 0%nat.
  change (count_chars is_space ".") with 0%nat.
  change (String.length "@") with 1%nat.
  change (String.length ".") with 1%nat.
  repeat split; lia.
Qed.

Lemma emailRegex_accepted_shape_witness :
  Regex.test emailRegex "a@b.c" = true
  /\ count_chars (Ascii.eqb "@") "a@b.c" = 1%nat
  /\ String.length "a@b.c" = 5%nat.
Proof.
  split; [reflexivity |].
  destruct (emailRegex_accepted_shape "a@b.c" eq_refl) as (A & _ & _).
  split; [exact A | reflexivity].
Defined.

(** ** The routes over the table *)

Lemma missing_false o : missing o = false -> exists s, o = Some s /\ s <> "".
Proof.
  destruct o as [s |]; simpl; [| discriminate].
  intros H. apply String.eqb_neq in H. eauto.
Qed.

(** What a body that passes the checks looks like. *)
Lemma validateBody_inr n num e a p f :
  validateBody n num e a p = inr f ->
  n = Some (f_name f) /\ num = Some (f_number f) /\ e = Some (f_email f)
  /\ a = JS.JNum (f_amountToPay f) /\ p = JS.JNum (f_amountPaid f)
  /\ f_name f <> "" /\ f_number f <> ""
  /\ Regex.test emailRegex (f_email f) = true
  /\ 0 <= f_amountToPay f /\ 0 <= f_amountPaid f.
Proof.
  unfold validateBody.
  destruct (missing n) eqn:Mn; [discriminate |].
  destruct (missing num) eqn:Mnum; [discriminate |].
  destruct (missing e) eqn:Me; [discriminate |]. simpl.
  apply missing_false in Mn, Mnum, Me.
  destruct Mn as (n' & -> & Nn), Mnum as (num' & -> & Nnum), Me as (e' & -> & Ne).
  simpl. destruct (Regex.test emailRegex e') eqn:T; [| discriminate]. simpl.
  destruct a as [| | | toPay | |]; try discriminate.
  destruct p as [| | | paid | |]; try discriminate.
  destruct (JS.lt toPay 0) eqn:L1; [discriminate |].
  destruct (JS.lt paid 0) eqn:L2; [discriminate |]. simpl.
  intros E. injection E as <-. simpl. js_facts. repeat split; auto.
Qed.

(** The two look-ups by email, in terms of the rows. *)
Lemma emailTaken_spec (db : gmap Z customer) e :
  emailTaken db e = true <-> exists i c, db !! i = Some c /\ email c = e.
Proof.
  unfold emailTaken. rewrite existsb_exists. split.
  - intros ([i c] & Hin & He). apply list_elem_of_In, elem_of_map_to_list in Hin.
    apply String.eqb_eq in He. eauto.
  - intros (i & c & Hc & He). exists (i, c). split.
    + now apply list_elem_of_In, elem_of_map_to_list.
    + now apply String.eqb_eq.
Qed.

Lemma emailTaken_false (db : gmap Z customer) e :
  emailTaken db e = false <-> forall i c, db !! i = Some c -> email c <> e.
Proof.
  rewrite <- not_true_iff_false, emailTaken_spec. split.
  - intros N i c Hc He. apply N. eauto.
  - intros H (i & c & Hc & He). exact (H i c Hc He).
Qed.

Lemma emailTakenByOther_spec (db : gmap Z customer) e k :
  emailTakenByOther db e k = true <->
  exists i c, db !! i = Some c /\ email c = e /\ i <> k.
Proof.
  unfold emailTakenByOther. rewrite existsb_exists. split.
  - intros ([i c] & Hin & He). apply list_elem_of_In, elem_of_map_to_list in Hin.
    apply andb_true_iff in He. destruct He as [He Hi].
    apply String.eqb_eq in He. apply negb_true_iff, Z.eqb_neq in Hi. eauto.
  - intros (i & c & Hc & He & Hi). exists (i, c). split.
    + now apply list_elem_of_In, elem_of_map_to_list.
    + apply andb_true_iff. split; [now apply String.eqb_eq |].
      now apply negb_true_iff, Z.eqb_neq.
Qed.

Lemma emailTakenByOther_false (db : gmap Z customer) e k :
  emailTakenByOther db e k = false <->
  forall i c, db !! i = Some c -> i <> k -> email c <> e.
Proof.
  rewrite <- not_true_iff_false, emailTakenByOther_spec. split.
  - intros N i c Hc Hi He. apply N. eauto.
  - intros H (i & c & Hc & He & Hi). exact (H i c Hc Hi He).
Qed.

(** Each route either refuses and leaves the table as it was, or serves
    and writes one row. *)
Lemma postCustomer_cases now lastID (db : gmap Z customer) body :
  let r := postCustomer now lastID db body in
  (refused r.1 = true /\ r.2 = db)
  \/ (exists f,
        validateBody (body_name body) (body_number body) (body_email body)
          (JS.default_to (JS.JNum 0) (body_amountToPay body))
          (JS.default_to (JS.JNum 0) (body_amountPaid body)) = inr f
        /\ emailTaken db (f_email f) = false
        /\ r = (Served 201 (calculateCustomerDetails (rowOfFields lastID now now f))
                  (Some "Customer created successfully"),
                <[lastID := rowOfFields lastID now now f]> db)).
Proof.
  simpl. unfold postCustomer.
  destruct (validateBody _ _ _ _ _) as [e | f] eqn:V; [left; auto |].
  destruct (emailTaken db (f_email f)) eqn:T; [left; auto |].
  right. exists f. rewrite lookup_insert_eq. auto.
Qed.

Lemma putCustomer_cases now (db : gmap Z customer) o body :
  let r := putCustomer now db o body in
  (refused r.1 = true /\ r.2 = db)
  \/ (exists i f c,
        o = Some i /\ i <> 0%Z
        /\ validateBody (body_name body) (body_number body) (body_email body)
             (body_amountToPay body) (body_amountPaid body) = inr f
        /\ db !! i = Some c
        /\ (email c = f_email f \/ emailTakenByOther db (f_email f) i = false)
        /\ r = (Served 200
                  (calculateCustomerDetails (rowOfFields (id c) (createdAt c) now f))
                  (Some "Customer updated successfully"),
                <[i := rowOfFields (id c) (createdAt c) now f]> db)).
Proof.
  simpl. unfold putCustomer.
  destruct o as [i |]; [| left; auto].
  assert (Hmain : i <> 0%Z ->
    let r :=
      match validateBody (body_name body) (body_number body) (body_email body)
              (body_amountToPay body) (body_amountPaid body) with
      | inl error => (Refused 400 error, db)
      | inr f =>
          match db !! i with
          | None => (Refused 404 "Customer not found", db)
          | Some row =>
              let updateCustomer :=
                let db' := <[i := rowOfFields (id row) (createdAt row) now f]> db in
                match db' !! i with
                | Some updatedCustomer =>
                    (Served 200 (calculateCustomerDetails updatedCustomer)
                       (Some "Customer updated successfully"), db')
                | None => (Refused 500 "no such row", db')
                end in
              if negb (String.eqb (email row) (f_email f))
              then
                if emailTakenByOther db (f_email f) i
                then (Refused 409 "Email already exists for another customer", db)
                else updateCustomer
              else updateCustomer
          end
      end in
    (refused r.1 = true /\ r.2 = db)
    \/ (exists i' f c,
          Some i = Some i' /\ i' <> 0%Z
          /\ validateBody (body_name body) (body_number body) (body_email body)
               (body_amountToPay body) (body_amountPaid body) = inr f
          /\ db !! i' = Some c
          /\ (email c = f_email f \/ emailTakenByOther db (f_email f) i' = false)
          /\ r = (Served 200
                    (calculateCustomerDetails (rowOfFields (id c) (createdAt c) now f))
                    (Some "Customer updated successfully"),
                  <[i' := rowOfFields (id c) (createdAt c) now f]> db))).
  { intros Hi. simpl.
    destruct (validateBody _ _ _ _ _) as [e | f] eqn:V; [left; auto |].
    destruct (db !! i) as [c |] eqn:Hc; [| left; auto].
    rewrite lookup_insert_eq.
    destruct (String.eqb (email c) (f_email f)) eqn:E; simpl.
    - apply String.eqb_eq in E. right. exists i, f, c. auto 10.
    - destruct (emailTakenByOther db (f_email f) i) eqn:T; [left; auto |].
      right. exists i, f, c. auto 10. }
  destruct i as [| p | p]; [left; auto | |]; apply Hmain; discriminate.
Qed.

Lemma deleteCustomer_cases (db : gmap Z customer) o :
  let r := deleteCustomer db o in
  (refused r.1 = true /\ r.2 = db)
  \/ (exists i c,
        o = Some i /\ i <> 0%Z /\ db !! i = Some c
        /\ r = (Served 200 (calculateCustomerDetails c)
                  (Some "Customer deleted successfully"), delete i db)).
Proof.
  simpl. unfold deleteCustomer.
  destruct o as [[| p | p] |]; try (left; split; reflexivity);
    (destruct (db !! _) as [c |] eqn:Hc; [| left; auto]);
    right; eexists _, c; repeat split; auto; discriminate.
Qed.

Lemma patchPayment_cases now (db : gmap Z customer) req :
  let r := patchPayment now db req in
  (accepted r.1 = false /\ r.2 = db)
  \/ (exists i amount c,
        customerId req = Some i /\ i <> 0%Z
        /\ paymentAmount req = JS.JNum amount /\ 0 <= amount
        /\ db !! i = Some c
        /\ accepted r.1 = true
        /\ r.2 = <[i := setAmountPaid now
                          (if JS.is_string
                                (JS.default_to (JS.JStr "add") (paymentType req)) "set"
                           then amount else amountPaid c + amount) c]> db).
Proof.
  simpl. destruct req as [o a t]. unfold patchPayment. simpl.
  destruct o as [i |]; [| left; auto].
  destruct a as [| | | amount | |];
    try (destruct i; left; split; reflexivity).
  destruct (JS.lt amount 0) eqn:L; [destruct i; left; split; reflexivity |].
  js_facts.
  destruct i as [| p | p]; [left; auto | |];
    (destruct (db !! _) as [c |] eqn:Hc; [| left; auto]);
    rewrite lookup_insert_eq; right; eexists _, amount, c;
    repeat split; auto; discriminate.
Qed.

(** ** What every reachable table satisfies *)

Lemma uniqueEmails_insert (db : gmap Z customer) k c' :
  uniqueEmails db ->
  (forall j d, db !! j = Some d -> j <> k -> email d <> email c') ->
  uniqueEmails (<[k := c']> db).
Proof.
  intros U Hnew i j c d Hi Hj E.
  destruct (decide (i = k)) as [-> | Ni]; destruct (decide (j = k)) as [-> | Nj];
    [reflexivity | | |].
  - rewrite lookup_insert_eq in Hi. rewrite lookup_insert_ne in Hj by auto.
    injection Hi as <-. exfalso. exact (Hnew j d Hj Nj (eq_sym E)).
  - rewrite lookup_insert_eq in Hj. rewrite lookup_insert_ne in Hi by auto.
    injection Hj as <-. exfalso. exact (Hnew i c Hi Ni E).
  - rewrite lookup_insert_ne in Hi, Hj by auto. exact (U i j c d Hi Hj E).
Qed.

Lemma uniqueEmails_delete (db : gmap Z customer) k :
  uniqueEmails db -> uniqueEmails (delete k db).
Proof.
  intros U i j c d Hi Hj E.
  apply lookup_delete_Some in Hi, Hj. destruct Hi as [_ Hi], Hj as [_ Hj].
  exact (U i j c d Hi Hj E).
Qed.

(** Rewriting a row without touching its email keeps the emails unique. *)
Lemma uniqueEmails_same_email (db : gmap Z customer) k c c' :
  uniqueEmails db -> db !! k = Some c -> email c' = email c ->
  uniqueEmails (<[k := c']> db).
Proof.
  intros U Hc E. apply uniqueEmails_insert; [exact U |].
  intros j d Hd Nj Ed. apply Nj. apply (U j k d c Hd Hc). congruence.
Qed.

Lemma wellFormedRow_fields i created now f :
  (0 < i)%Z ->
  f_name f <> "" -> f_number f <> "" ->
  Regex.test emailRegex (f_email f) = true ->
  0 <= f_amountToPay f -> 0 <= f_amountPaid f ->
  wellFormedRow i (rowOfFields i created now f).
Proof. unfold wellFormedRow. simpl. auto 10. Qed.

Lemma tableInvariant_post now lastID (db : gmap Z customer) body :
  tableInvariant db -> (0 < lastID)%Z -> db !! lastID = None ->
  tableInvariant (postCustomer now lastID db body).2.
Proof.
  intros [W U] Hpos Hfresh.
  destruct (postCustomer_cases now lastID db body) as [[_ ->] | (f & V & T & ->)];
    [split; assumption |].
  apply validateBody_inr in V.
  destruct V as (_ & _ & _ & _ & _ & Hn & Hnum & He & HtoPay & Hpaid).
  simpl. split.
  - apply map_Forall_insert_2; [| exact W]. now apply wellFormedRow_fields.
  - apply uniqueEmails_insert; [exact U |].
    intros j d Hd _. simpl. exact (proj1 (emailTaken_false db _) T j d Hd).
Qed.

Lemma tableInvariant_put now (db : gmap Z customer) o body :
  tableInvariant db -> tableInvariant (putCustomer now db o body).2.
Proof.
  intros [W U].
  destruct (putCustomer_cases now db o body)
    as [[_ ->] | (i & f & c & -> & Hi & V & Hc & He & ->)]; [split; assumption |].
  apply validateBody_inr in V.
  destruct V as (_ & _ & _ & _ & _ & Hn & Hnum & Hre & HtoPay & Hpaid).
  destruct (W i c Hc) as (Hid & Hpos & _). simpl. split.
  - apply map_Forall_insert_2; [| exact W]. rewrite Hid.
    now apply wellFormedRow_fields.
  - destruct He as [He | He].
    + now apply (uniqueEmails_same_email db i c).
    + apply uniqueEmails_insert; [exact U |].
      intros j d Hd Nj. simpl. exact (proj1 (emailTakenByOther_false db _ i) He j d Hd Nj).
Qed.

Lemma tableInvariant_patch now (db : gmap Z customer) req :
  tableInvariant db -> tableInvariant (patchPayment now db req).2.
Proof.
  intros [W U].
  destruct (patchPayment_cases now db req)
    as [[_ ->] | (i & amount & c & _ & Hi & _ & Hamount & Hc & _ & ->)];
    [split; assumption |].
  destruct (W i c Hc) as (Hid & Hpos & Hn & Hnum & Hre & HtoPay & Hpaid). split.
  - apply map_Forall_insert_2; [| exact W].
    unfold wellFormedRow. simpl. repeat split; auto.
    destruct (JS.is_string _ _); lra.
  - now apply (uniqueEmails_same_email db i c).
Qed.

Lemma tableInvariant_delete (db : gmap Z customer) o :
  tableInvariant db -> tableInvariant (deleteCustomer db o).2.
Proof.
  intros [W U].
  destruct (deleteCustomer_cases db o) as [[_ ->] | (i & c & _ & _ & _ & ->)];
    [split; assumption |].
  simpl. split; [now apply map_Forall_delete | now apply uniqueEmails_delete].
Qed.

Lemma tableInvariant_serve (db : gmap Z customer) r :
  tableInvariant db -> admissible db r -> tableInvariant (serve db r).2.
Proof.
  intros I A. destruct r as [now lastID body | now o body | now req | o]; simpl.
  - destruct A as [Hpos Hfresh]. now apply tableInvariant_post.
  - now apply tableInvariant_put.
  - pose proof (tableInvariant_patch now db req I) as P.
    destruct (patchPayment now db req). exact P.
  - now apply tableInvariant_delete.
Qed.

Lemma tableInvariant_empty : tableInvariant (∅ : gmap Z customer).
Proof.
  split; [apply map_Forall_empty |].
  intros i j c d Hi. now rewrite lookup_empty in Hi.
Qed.

Lemma reachable_wellFormed (db : gmap Z customer) :
  reachable db -> map_Forall wellFormedRow db.
Proof.
  intros R. enough (I : tableInvariant db) by apply I.
  induction R as [| db r _ IH A];
    [apply tableInvariant_empty | now apply tableInvariant_serve].
Qed.

(** In every table built from the empty one by requests whose [name],
    [number] and [email] are JSON strings or absent (the bodies
    [customerBody] holds; what the store keeps for another JSON value is
    decided by the SQLite driver, which is not part of the sources), each
    row sits under its own positive id, has a non-empty name and number,
    an email the pattern accepts and amounts that are not negative, and no
    two rows have the same email. *)
Theorem reachable_tableInvariant (db : gmap Z customer) :
  reachable db -> tableInvariant db.
Proof.
  induction 1 as [| db r R IH A].
  - apply tableInvariant_empty.
  - destruct r as [now lastID body | now o body | now req | o];
      apply tableInvariant_serve; assumption.
Qed.

Lemma reachable_tableInvariant_witness :
  let db := (serve ∅ (POST "T" 1 (fullBody "Ann" "555" "ann@x.io" 100 0))).2 in
  reachable db /\ tableInvariant db.
Proof.
  assert (R : reachable (serve ∅ (POST "T" 1 (fullBody "Ann" "555" "ann@x.io" 100 0))).2).
  { apply reachable_serve; [constructor |]. split; [reflexivity | reflexivity]. }
  split; [exact R | exact (reachable_tableInvariant _ R)].
Defined.

(** ** What a request does to the table *)

Lemma refused_replyOf r : refused (replyOf r) = negb (accepted r).
Proof. now destruct r. Qed.

(** A request that is refused, on any route and for any reason, leaves
    the table exactly as it was. *)
Theorem refused_leaves_table (db : gmap Z customer) r :
  refused (serve db r).1 = true -> (serve db r).2 = db.
Proof.
  destruct r as [now lastID body | now o body | now req | o]; simpl.
  - destruct (postCustomer_cases now lastID db body) as [[_ E] | (f & _ & _ & E)];
      [auto | rewrite E; discriminate].
  - destruct (putCustomer_cases now db o body)
      as [[_ E] | (i & f & c & _ & _ & _ & _ & _ & E)]; [auto | rewrite E; discriminate].
  - destruct (patchPayment_cases now db req)
      as [[_ E] | (i & a & c & _ & _ & _ & _ & _ & A & _)];
      destruct (patchPayment now db req) as [resp db']; simpl in *; [auto |].
    rewrite refused_replyOf, A. discriminate.
  - destruct (deleteCustomer_cases db o) as [[_ E] | (i & c & _ & _ & _ & E)];
      [auto | rewrite E; discriminate].
Qed.

Lemma refused_leaves_table_witness :
  refused (serve db2 (PUT "T" (Some 1%Z) (fullBody "Ann" "555" "bob@x.io" 100 50))).1
  = true
  /\ (serve db2 (PUT "T" (Some 1%Z) (fullBody "Ann" "555" "bob@x.io" 100 50))).2
     = db2.
Proof.
  assert (H : refused (serve db2 (PUT "T" (Some 1%Z)
                (fullBody "Ann" "555" "bob@x.io" 100 50))).1 = true)
    by (vm_compute; reflexivity).
  split; [exact H | exact (refused_leaves_table _ _ H)].
Defined.

(** A request changes no row other than the one it addresses. *)
Theorem serve_other_rows (db : gmap Z customer) r j :
  target r <> Some j -> (serve db r).2 !! j = db !! j.
Proof.
  intros N. destruct r as [now lastID body | now o body | now req | o]; simpl in *.
  - destruct (postCustomer_cases now lastID db body) as [[_ ->] | (f & _ & _ & ->)];
      [reflexivity |].
    simpl. apply lookup_insert_ne. congruence.
  - destruct (putCustomer_cases now db o body)
      as [[_ ->] | (i & f & c & -> & _ & _ & _ & _ & ->)]; [reflexivity |].
    simpl. apply lookup_insert_ne. congruence.
  - destruct (patchPayment_cases now db req)
      as [[_ E] | (i & a & c & Hi & _ & _ & _ & _ & _ & E)];
      destruct (patchPayment now db req) as [resp db']; simpl in *; subst db';
      [reflexivity |].
    apply lookup_insert_ne. congruence.
  - destruct (deleteCustomer_cases db o) as [[_ ->] | (i & c & -> & _ & _ & ->)];
      [reflexivity |].
    simpl. apply lookup_delete_ne. congruence.
Qed.

Lemma serve_other_rows_witness :
  target (PATCH "T" (payment 1 30 (JS.JStr "add"))) <> Some 2%Z
  /\ (serve db2 (PATCH "T" (payment 1 30 (JS.JStr "add")))).2 !! 2%Z = db2 !! 2%Z.
Proof.
  assert (N : target (PATCH "T" (payment 1 30 (JS.JStr "add"))) <> Some 2%Z)
    by discriminate.
  split; [exact N | exact (serve_other_rows db2 _ 2%Z N)].
Defined.

(** A customer that [POST] has created is what [GET] by the new id
    returns; the row holds the text fields of the body, the amounts of the
    body with 0 for an absent one, and the store's time in both
    timestamps. *)
Theorem post_then_get now lastID (db db' : gmap Z customer) body d m :
  lastID <> 0%Z ->
  postCustomer now lastID db body = (Served 201 d m, db') ->
  getCustomer db' (Some lastID) = Served 200 d None
  /\ id (row d) = lastID
  /\ body_name body = Some (name (row d))
  /\ body_number body = Some (number (row d))
  /\ body_email body = Some (email (row d))
  /\ JS.default_to (JS.JNum 0) (body_amountToPay body) = JS.JNum (amountToPay (row d))
  /\ JS.default_to (JS.JNum 0) (body_amountPaid body) = JS.JNum (amountPaid (row d))
  /\ createdAt (row d) = now /\ updatedAt (row d) = now.
Proof.
  intros N E.
  destruct (postCustomer_cases now lastID db body) as [[R _] | (f & V & _ & E')].
  - rewrite E in R. discriminate.
  - rewrite E in E'. injection E' as -> _ ->.
    apply validateBody_inr in V. destruct V as (Vn & Vnum & Ve & Va & Vp & _).
    split; [| simpl; auto 10].
    unfold getCustomer. rewrite lookup_insert_eq.
    destruct lastID; [contradiction | reflexivity | reflexivity].
Qed.

Lemma post_then_get_witness :
  (3 <> 0)%Z
  /\ postCustomer "T" 3 db2 bodyCy
     = (Served 201 (calculateCustomerDetails rowCy)
          (Some "Customer created successfully"), <[3%Z := rowCy]> db2)
  /\ getCustomer (<[3%Z := rowCy]> db2) (Some 3%Z)
     = Served 200 (calculateCustomerDetails rowCy) None
  /\ amountPaid rowCy == 0.
Proof.
  assert (N : (3 <> 0)%Z) by discriminate.
  assert (E : postCustomer "T" 3 db2 bodyCy
              = (Served 201 (calculateCustomerDetails rowCy)
                   (Some "Customer created successfully"), <[3%Z := rowCy]> db2))
    by (vm_compute; reflexivity).
  split; [exact N |]. split; [exact E |].
  split; [exact (proj1 (post_then_get "T" 3 db2 _ bodyCy _ _ N E)) | reflexivity].
Defined.

(** [PUT] with the customer's own email is not a conflict; [PUT] with the
    email of another customer is answered 409 and changes nothing. *)
Theorem put_email_conflict now (db : gmap Z customer) i c body f :
  uniqueEmails db -> i <> 0%Z -> db !! i = Some c ->
  validateBody (body_name body) (body_number body) (body_email body)
    (body_amountToPay body) (body_amountPaid body) = inr f ->
  (f_email f = email c -> refused (putCustomer now db (Some i) body).1 = false)
  /\ (forall j d, j <> i -> db !! j = Some d -> f_email f = email d ->
      putCustomer now db (Some i) body
      = (Refused 409 "Email already exists for another customer", db)).
Proof.
  intros U Ni Hc V.
  assert (P : putCustomer now db (Some i) body =
              if negb (String.eqb (email c) (f_email f))
              then
                if emailTakenByOther db (f_email f) i
                then (Refused 409 "Email already exists for another customer", db)
                else (Served 200
                        (calculateCustomerDetails (rowOfFields (id c) (createdAt c) now f))
                        (Some "Customer updated successfully"),
                      <[i := rowOfFields (id c) (createdAt c) now f]> db)
              else (Served 200
                      (calculateCustomerDetails (rowOfFields (id c) (createdAt c) now f))
                      (Some "Customer updated successfully"),
                    <[i := rowOfFields (id c) (createdAt c) now f]> db)).
  { unfold putCustomer. rewrite V, Hc, lookup_insert_eq.
    destruct i; [contradiction | reflexivity | reflexivity]. }
  rewrite P. split.
  - intros E. rewrite E, String.eqb_refl. reflexivity.
  - intros j d Nj Hd E.
    assert (Ne : email c <> f_email f).
    { intros E'. apply Nj. apply (U j i d c Hd Hc). congruence. }
    apply String.eqb_neq in Ne. rewrite Ne. simpl.
    assert (T : emailTakenByOther db (f_email f) i = true).
    { apply emailTakenByOther_spec. exists j, d. auto. }
    now rewrite T.
Qed.

Lemma uniqueEmails_empty : uniqueEmails (∅ : gmap Z customer).
Proof. intros i j c d Hi. now rewrite lookup_empty in Hi. Qed.

Lemma uniqueEmails_db2 : uniqueEmails db2.
Proof.
  unfold db2. apply uniqueEmails_insert.
  - apply uniqueEmails_insert; [apply uniqueEmails_empty |].
    intros j d Hd. now rewrite lookup_empty in Hd.
  - intros j d Hd Nj. apply lookup_insert_Some in Hd.
    destruct Hd as [[<- <-] | [_ Hd]]; [discriminate |].
    now rewrite lookup_empty in Hd.
Qed.

Lemma put_email_conflict_witness :
  refused (putCustomer "T" db2 (Some 1%Z) (fullBody "Ann B" "555" "ann@x.io" 120 50)).1
  = false
  /\ putCustomer "T" db2 (Some 1%Z) (fullBody "Ann" "555" "bob@x.io" 100 50)
     = (Refused 409 "Email already exists for another customer", db2).
Proof.
  assert (N : (1 <> 0)%Z) by discriminate.
  assert (H1 : db2 !! 1%Z = Some (rowOfFields 1 "2024-01-01 00:00:00"
                 "2024-01-01 00:00:00"
                 {| f_name := "Ann"; f_number := "555"; f_email := "ann@x.io";
                    f_amountToPay := 100; f_amountPaid := 50 |})) by reflexivity.
  split.
  - refine (proj1 (put_email_conflict "T" db2 1 _
              (fullBody "Ann B" "555" "ann@x.io" 120 50)
              {| f_name := "Ann B"; f_number := "555"; f_email := "ann@x.io";
                 f_amountToPay := 120; f_amountPaid := 50 |}
              uniqueEmails_db2 N H1 eq_refl) eq_refl).
  - refine (proj2 (put_email_conflict "T" db2 1 _
              (fullBody "Ann" "555" "bob@x.io" 100 50)
              {| f_name := "Ann"; f_number := "555"; f_email := "bob@x.io";
                 f_amountToPay := 100; f_amountPaid := 50 |}
              uniqueEmails_db2 N H1 eq_refl) 2%Z _ _ eq_refl eq_refl).
    discriminate.
Defined.

(** Once a customer is deleted, the reply carries the row as it was, the
    id answers 404 on every route, and the table has one row less. *)
Theorem delete_then_gone (db : gmap Z customer) i c :
  i <> 0%Z -> db !! i = Some c ->
  let r := deleteCustomer db (Some i) in
  r.1 = Served 200 (calculateCustomerDetails c) (Some "Customer deleted successfully")
  /\ r.2 !! i = None
  /\ size r.2 = pred (size db)
  /\ getCustomer r.2 (Some i) = Refused 404 "Customer not found"
  /\ (deleteCustomer r.2 (Some i)).1 = Refused 404 "Customer not found"
  /\ (forall now amount type,
        0 <= amount ->
        (patchPayment now r.2 (payment i amount type)).1
        = Failure 404 "Customer not found")
  /\ (forall now body f,
        validateBody (body_name body) (body_number body) (body_email body)
          (body_amountToPay body) (body_amountPaid body) = inr f ->
        (putCustomer now r.2 (Some i) body).1 = Refused 404 "Customer not found").
Proof.
  intros N Hc r.
  assert (E : r = (Served 200 (calculateCustomerDetails c)
                     (Some "Customer deleted successfully"), delete i db)).
  { subst r. unfold deleteCustomer. rewrite Hc.
    destruct i; [contradiction | reflexivity | reflexivity]. }
  rewrite E. simpl.
  assert (G : delete i db !! i = None) by apply lookup_delete_eq.
  split; [reflexivity |]. split; [exact G |].
  split; [now apply map_size_delete_Some |].
  split; [unfold getCustomer; rewrite G; now destruct i |].
  split; [unfold deleteCustomer; rewrite G; now destruct i |].
  split.
  - intros now amount type Hamount.
    assert (L : JS.lt amount 0 = false) by now apply lt_false.
    unfold patchPayment, payment. simpl. rewrite L, G. now destruct i.
  - intros now body f V. unfold putCustomer. rewrite V, G. now destruct i.
Qed.

Lemma delete_then_gone_witness :
  (2 <> 0)%Z
  /\ getCustomer (deleteCustomer db2 (Some 2%Z)).2 (Some 2%Z)
     = Refused 404 "Customer not found"
  /\ size (deleteCustomer db2 (Some 2%Z)).2 = 1%nat.
Proof.
  assert (N : (2 <> 0)%Z) by discriminate.
  destruct (delete_then_gone db2 2 _ N eq_refl) as (_ & _ & S & G & _).
  split; [exact N |]. split; [exact G | exact S].
Defined.

(** ** More on the payment route *)

(** A payment request, accepted or not, keeps every row in place with its
    id, name, number, email, amount to pay and creation time; unless its
    [paymentType] is "set", no stored [amountPaid] goes down. *)
Theorem patchPayment_keeps_rows now (db : gmap Z customer) req j c :
  db !! j = Some c ->
  exists c',
    (patchPayment now db req).2 !! j = Some c'
    /\ id c' = id c /\ name c' = name c /\ number c' = number c
    /\ email c' = email c /\ amountToPay c' = amountToPay c
    /\ createdAt c' = createdAt c
    /\ (paymentType req <> JS.JStr "set" -> amountPaid c <= amountPaid c').
Proof.
  intros Hc.
  destruct (patchPayment_cases now db req)
    as [[_ ->] | (i & a & d & _ & _ & _ & Ha & Hd & _ & ->)].
  - exists c. repeat split; auto. intros _. lra.
  - destruct (decide (i = j)) as [-> | N].
    + rewrite lookup_insert_eq. rewrite Hc in Hd. injection Hd as <-.
      eexists. split; [reflexivity |]. simpl. repeat split.
      intros T. rewrite (paymentType_not_set _ T). lra.
    + rewrite lookup_insert_ne by exact N.
      exists c. repeat split; auto. intros _. lra.
Qed.

Lemma patchPayment_keeps_rows_witness :
  is_Some (db2 !! 1%Z)
  /\ exists c',
      (patchPayment "T" db2 (payment 1 30 (JS.JStr "add"))).2 !! 1%Z = Some c'
      /\ amountToPay c' = 100 /\ 50 <= amountPaid c'.
Proof.
  split; [eexists; reflexivity |].
  destruct (patchPayment_keeps_rows "T" db2 (payment 1 30 (JS.JStr "add")) 1 _ eq_refl)
    as (c' & L & _ & _ & _ & _ & A & _ & M).
  exists c'. split; [exact L |]. split; [exact A |]. apply M. discriminate.
Defined.

(** ** The status read backwards *)

(** The order of the two amounts, read back from the status. *)
Ltac status_inv c H :=
  destruct (paymentStatus_cases c)
    as [[? ?] | [(? & ? & ?) | [(? & ? & ?) | (? & ? & ?)]]];
  cbv zeta in *; first [congruence | tauto].

Lemma status_NotPaid_inv c :
  paymentStatus (calculateCustomerDetails c) = "Not Paid" -> amountPaid c == 0.
Proof. intros H. status_inv c H. Qed.

Lemma status_PartiallyPaid_inv c :
  paymentStatus (calculateCustomerDetails c) = "Partially Paid" ->
  ~ amountPaid c == 0 /\ amountPaid c < amountToPay c.
Proof. intros H. status_inv c H. Qed.

Lemma status_Paid_inv c :
  paymentStatus (calculateCustomerDetails c) = "Paid" ->
  ~ amountPaid c == 0 /\ amountPaid c == amountToPay c.
Proof. intros H. status_inv c H. Qed.

Lemma status_Overpaid_inv c :
  paymentStatus (calculateCustomerDetails c) = "Overpaid" ->
  ~ amountPaid c == 0 /\ amountToPay c < amountPaid c.
Proof. intros H. status_inv c H. Qed.

(** ** More on the summaries *)

Lemma includes_In l s : JS.includes l s = true <-> In s l.
Proof.
  unfold JS.includes. rewrite existsb_exists. split.
  - intros (x & Hx & E). apply String.eqb_eq in E. now subst.
  - intros H. exists s. split; [assumption | apply String.eqb_refl].
Qed.





(** ** The dashboard's lists *)

Section SortFacts.

Variable Date_ms : string -> Z.

Lemma byCreatedAtDesc_le a b :
  (byCreatedAtDesc Date_ms a b <=? 0)%Z = true <-> newerOrSame Date_ms a b.
Proof. unfold byCreatedAtDesc, newerOrSame. rewrite Z.leb_le. lia. Qed.

Lemma newerOrSame_trans a b c :
  newerOrSame Date_ms a b -> newerOrSame Date_ms b c -> newerOrSame Date_ms a c.
Proof. unfold newerOrSame. lia. Qed.

Lemma sort_insert_In x l d :
  In d (sort_insert Date_ms x l) <-> d = x \/ In d l.
Proof.
  induction l as [| y l IH]; simpl; [intuition |].
  destruct (byCreatedAtDesc Date_ms x y <=? 0)%Z; simpl; [intuition |].
  rewrite IH. intuition.
Qed.

Lemma sort_insert_sorted x l :
  StronglySorted (newerOrSame Date_ms) l ->
  StronglySorted (newerOrSame Date_ms) (sort_insert Date_ms x l).
Proof.
  induction 1 as [| y l Hl IH Hy]; simpl.
  - constructor; constructor.
  - destruct (byCreatedAtDesc Date_ms x y <=? 0)%Z eqn:E.
    + apply byCreatedAtDesc_le in E. constructor; [now constructor |].
      constructor; [assumption |].
      rewrite List.Forall_forall in *. intros z Hz.
      apply (newerOrSame_trans x y z); auto.
    + constructor; [assumption |].
      rewrite List.Forall_forall in *. intros z Hz.
      apply sort_insert_In in Hz. destruct Hz as [-> | Hz]; [| auto].
      unfold byCreatedAtDesc in E. apply Z.leb_gt in E.
      unfold newerOrSame. lia.
Qed.

Lemma sort_sorted l : StronglySorted (newerOrSame Date_ms) (sort Date_ms l).
Proof.
  induction l as [| x l IH]; simpl; [constructor |].
  now apply sort_insert_sorted.
Qed.

Lemma sorted_firstn_skipn (l : list customerDetails) n a b :
  StronglySorted (newerOrSame Date_ms) l ->
  In a (firstn n l) -> In b (skipn n l) -> newerOrSame Date_ms a b.
Proof.
  intros S. revert n. induction S as [| x l Hl IH Hx]; intros n Ha Hb.
  - destruct n; contradiction.
  - destruct n as [| n]; [contradiction |]. simpl in Ha, Hb.
    destruct Ha as [<- | Ha]; [| now apply (IH n)].
    rewrite List.Forall_forall in Hx. apply Hx.
    clear -Hb. revert n Hb. induction l as [| y l IHl]; intros n Hb.
    + destruct n; contradiction.
    + destruct n as [| n]; [exact Hb |]. right. now apply (IHl n).
Qed.

Lemma sorted_firstn (l : list customerDetails) n :
  StronglySorted (newerOrSame Date_ms) l ->
  StronglySorted (newerOrSame Date_ms) (firstn n l).
Proof.
  intros S. revert n. induction S as [| x l Hl IH Hx]; intros n.
  - destruct n; constructor.
  - destruct n as [| n]; simpl; [constructor |].
    constructor; [apply IH |].
    rewrite List.Forall_forall in *. intros z Hz. apply Hx.
    clear -Hz. revert n Hz. induction l as [| y l IHl]; intros n Hz.
    + destruct n; contradiction.
    + destruct n as [| n]; [contradiction |]. simpl in Hz.
      destruct Hz as [<- | Hz]; [now left | right; now apply (IHl n)].
Qed.

(** [recentCustomers] holds the five customers created last (all of them
    when there are fewer), newest first: it is in descending order of
    [createdAt], and together with the customers left out it makes up the
    whole table, none of those left out being newer than one listed. *)
Theorem recentCustomers_newest rows :
  let recent := recentCustomers (dashboardSummaryOf Date_ms rows) in
  length recent = Nat.min 5 (length rows)
  /\ StronglySorted (newerOrSame Date_ms) recent
  /\ exists rest,
       Permutation (recent ++ rest) (map calculateCustomerDetails rows)
       /\ forall a b, In a recent -> In b rest -> newerOrSame Date_ms a b.
Proof.
  unfold dashboardSummaryOf. cbn [recentCustomers].
  set (sorted := sort Date_ms (map calculateCustomerDetails rows)).
  assert (S : StronglySorted (newerOrSame Date_ms) sorted) by apply sort_sorted.
  split.
  - rewrite length_firstn. unfold sorted. now rewrite sort_length, length_map.
  - split; [now apply sorted_firstn |].
    exists (skipn 5 sorted). split.
    + rewrite firstn_skipn. apply sort_Permutation.
    + intros a b. now apply sorted_firstn_skipn.
Qed.

(** [overdueCustomers] holds exactly the customers who owe something and
    have paid nothing. *)
Theorem overdueCustomers_spec rows d :
  In d (overdueCustomers (dashboardSummaryOf Date_ms rows)) <->
  exists r, In r rows /\ d = calculateCustomerDetails r
            /\ amountPaid r == 0 /\ 0 < amountToPay r.
Proof.
  unfold dashboardSummaryOf. cbn [overdueCustomers].
  rewrite filter_In, andb_true_iff, String.eqb_eq, gt_spec.
  assert (P : In d (sort Date_ms (map calculateCustomerDetails rows))
              <-> In d (map calculateCustomerDetails rows)).
  { split; apply Permutation_in;
      [apply sort_Permutation | symmetry; apply sort_Permutation]. }
  rewrite P, in_map_iff. split.
  - intros [(r & <- & Hr) [St G]]. exists r.
    repeat split; auto. now apply status_NotPaid_inv.
  - intros (r & Hr & -> & E & G). split; [eauto |]. split; [| exact G].
    simpl. apply strict_eq_spec in E. now rewrite E.
Qed.

End SortFacts.

(** Customers created at the same instant keep the order of the table. *)
Lemma sort_insert_stable Date_ms k x l :
  List.filter (fun d => (Date_ms (createdAt (row d)) =? k)%Z)
    (sort_insert Date_ms x l)
  = List.filter (fun d => (Date_ms (createdAt (row d)) =? k)%Z) (x :: l).
Proof.
  induction l as [| y l IH]; [reflexivity |].
  cbn [sort_insert].
  destruct (byCreatedAtDesc Date_ms x y <=? 0)%Z eqn:E; [reflexivity |].
  unfold byCreatedAtDesc in E. apply Z.leb_gt in E.
  cbn [List.filter] in *. rewrite IH.
  destruct (Date_ms (createdAt (row x)) =? k)%Z eqn:Ex;
    destruct (Date_ms (createdAt (row y)) =? k)%Z eqn:Ey; try reflexivity.
  apply Z.eqb_eq in Ex, Ey. lia.
Qed.

(** The sort is stable: among the customers created at any one instant,
    the sorted array has the order of the array it was given. *)
Theorem sort_stable Date_ms k l :
  List.filter (fun d => (Date_ms (createdAt (row d)) =? k)%Z) (sort Date_ms l)
  = List.filter (fun d => (Date_ms (createdAt (row d)) =? k)%Z) l.
Proof.
  induction l as [| x l IH]; [reflexivity |].
  cbn [sort fold_right]. fold (sort Date_ms l).
  rewrite sort_insert_stable. cbn [List.filter]. now rewrite IH.
Qed.

(** ** The query of the customer list *)

(** Whatever the request says, the SQL text is one of 26 fixed texts:
    nothing of the request reaches it but a sort field and a direction
    taken from the two lists, and it has exactly as many [?] as there are
    parameters. *)
Theorem listQuery_fixed_texts toUpperCase parseInt sortBy order limit offset :
  let q := listQuery toUpperCase parseInt sortBy order limit offset in
  In q.1 allQueries
  /\ count_chars (Ascii.eqb "?") q.1 = length q.2.
Proof.
  assert (A : forall o, In o ("" :: orderings) ->
            In ("SELECT * FROM customers" ++ o) allQueries
            /\ In ("SELECT * FROM customers" ++ o ++ " LIMIT ? OFFSET ?") allQueries).
  { intros o Ho. unfold allQueries. rewrite !in_flat_map.
    split; exists o; (split; [exact Ho | simpl; auto]). }
  assert (C : forall o, In o ("" :: orderings) ->
            count_chars (Ascii.eqb "?") ("SELECT * FROM customers" ++ o) = 0%nat).
  { intros o Ho. vm_compute in Ho.
    repeat (destruct Ho as [<- | Ho]; [reflexivity |]). contradiction. }
  unfold listQuery.
  set (f := default "name" sortBy). set (d := toUpperCase (default "ASC" order)).
  assert (O : exists o, In o ("" :: orderings) /\
            (if JS.includes validSortFields f && JS.includes validOrder d
             then "SELECT * FROM customers" ++ " ORDER BY " ++ f ++ " " ++ d
             else "SELECT * FROM customers") = "SELECT * FROM customers" ++ o).
  { destruct (JS.includes validSortFields f) eqn:If;
      [destruct (JS.includes validOrder d) eqn:Id |]; cbn [andb].
    - exists (" ORDER BY " ++ f ++ " " ++ d). split; [| reflexivity].
      apply in_cons. unfold orderings. apply in_flat_map. exists f.
      split; [now apply includes_In |].
      apply in_map_iff. exists d. split; [reflexivity | now apply includes_In].
    - exists "". split; [apply in_eq | reflexivity].
    - exists "". split; [apply in_eq | reflexivity]. }
  destruct O as (o & Ho & ->).
  destruct (A o Ho) as [A1 A2]. pose proof (C o Ho) as C1.
  assert (C2 : count_chars (Ascii.eqb "?")
                 (("SELECT * FROM customers" ++ o) ++ " LIMIT ? OFFSET ?") = 2%nat).
  { rewrite count_chars_app, C1. reflexivity. }
  rewrite append_assoc in C2.
  destruct limit as [l |]; [destruct (String.eqb l "") |]; simpl; auto.
Qed.

Example listQuery_default :
  listQuery upper (fun _ => None) None None None None
  = ("SELECT * FROM customers ORDER BY name ASC", []).
Proof. reflexivity. Qed.

Example listQuery_injection :
  listQuery upper (fun _ => Some 10%Z)
    (Some "name; DROP TABLE customers") (Some "desc") (Some "10") None
  = ("SELECT * FROM customers LIMIT ? OFFSET ?", [Some 10%Z; Some 0%Z]).
Proof. reflexivity. Qed.

(** ** The dashboard page against the API *)






(** The API sets no upper limit on what is paid: the same payment sent
    twice is accepted twice. *)
Example api_accepts_overpayment :
  let db' := (patchPayment "T" db1 (payment 1 50 (JS.JStr "add"))).2 in
  accepted (patchPayment "T" db' (payment 1 50 (JS.JStr "add"))).1 = true
  /\ storedPaid (patchPayment "T" db' (payment 1 50 (JS.JStr "add"))).2 1 = Some 150.
Proof. split; reflexivity. Qed.

(** Whatever the customer form lets through (with amounts that
    [parseFloat] reads as finite numbers or not at all) passes every check
    the API makes on the body: the API takes over the trimmed text and the
    two amounts as they are, so that [POST] can only answer 201 or 409. *)
Theorem form_passes_api_checks parseFloat form p :
  App.handleSubmit parseFloat form = inr p ->
  validateBody (body_name (bodyOf p)) (body_number (bodyOf p))
    (body_email (bodyOf p))
    (JS.default_to (JS.JNum 0) (body_amountToPay (bodyOf p)))
    (JS.default_to (JS.JNum 0) (body_amountPaid (bodyOf p)))
  = inr {| f_name := App.payload_name p; f_number := App.payload_number p;
           f_email := App.payload_email p;
           f_amountToPay := App.payload_amountToPay p;
           f_amountPaid := App.payload_amountPaid p |}
  /\ forall now lastID (db : gmap Z customer),
       let r := (postCustomer now lastID db (bodyOf p)).1 in
       (exists d m, r = Served 201 d m)
       \/ r = Refused 409 "Customer with this email already exists".
Proof.
  intros H. unfold App.handleSubmit in H.
  destruct (String.eqb (App.trim (App.form_name form)) "") eqn:En; [discriminate |].
  destruct (String.eqb (App.trim (App.form_number form)) "") eqn:Enum; [discriminate |].
  destruct (String.eqb (App.trim (App.form_email form)) "") eqn:Ee; [discriminate |].
  destruct (Regex.test emailRegex (App.trim (App.form_email form))) eqn:T;
    [| discriminate].
  cbn [negb] in H.
  destruct (App.negative parseFloat (App.form_amountToPay form)) eqn:N1; [discriminate |].
  destruct (App.negative parseFloat (App.form_amountPaid form)) eqn:N2; [discriminate |].
  cbn [orb] in H.
  assert (A1 : JS.lt (App.orZero parseFloat (App.form_amountToPay form)) 0 = false).
  { unfold App.negative, App.orZero in *.
    destruct (parseFloat (App.form_amountToPay form)) as [q |]; [| reflexivity].
    destruct (JS.strict_eq q 0); [reflexivity | exact N1]. }
  assert (A2 : JS.lt (App.orZero parseFloat (App.form_amountPaid form)) 0 = false).
  { unfold App.negative, App.orZero in *.
    destruct (parseFloat (App.form_amountPaid form)) as [q |]; [| reflexivity].
    destruct (JS.strict_eq q 0); [reflexivity | exact N2]. }
  destruct (parseFloat (App.form_amountToPay form)) as [q |] eqn:Pq; [| discriminate].
  injection H as <-.
  assert (V : validateBody (Some (App.trim (App.form_name form)))
                (Some (App.trim (App.form_number form)))
                (Some (App.trim (App.form_email form)))
                (JS.JNum (App.orZero parseFloat (App.form_amountToPay form)))
                (JS.JNum (App.orZero parseFloat (App.form_amountPaid form)))
              = inr {| f_name := App.trim (App.form_name form);
                       f_number := App.trim (App.form_number form);
                       f_email := App.trim (App.form_email form);
                       f_amountToPay := App.orZero parseFloat (App.form_amountToPay form);
                       f_amountPaid := App.orZero parseFloat (App.form_amountPaid form) |}).
  { unfold validateBody, missing. rewrite En, Enum, Ee. cbn [orb from_option Datatypes.id].
    rewrite T. cbn [negb]. now rewrite A1, A2. }
  split; [exact V |].
  intros now lastID db. unfold postCustomer. cbn [bodyOf body_name body_number
    body_email body_amountToPay body_amountPaid App.payload_name App.payload_number
    App.payload_email App.payload_amountToPay App.payload_amountPaid JS.default_to].
  rewrite V. cbn [f_email].
  destruct (emailTaken db (App.trim (App.form_email form))); [now right |].
  left. rewrite lookup_insert_eq. eauto.
Qed.

Lemma form_passes_api_checks_witness :
  App.handleSubmit parse100 formAnn = inr payloadAnn
  /\ exists d m, (postCustomer "T" 1 ∅ (bodyOf payloadAnn)).1 = Served 201 d m.
Proof.
  assert (H : App.handleSubmit parse100 formAnn = inr payloadAnn) by reflexivity.
  split; [exact H |].
  destruct (proj2 (form_passes_api_checks parse100 formAnn payloadAnn H) "T" 1%Z ∅)
    as [S | R]; [exact S | discriminate R].
Defined.

(** ** Requests one after the other *)



(** On a table built from the empty one by requests of the kind the
    model holds (text fields that are strings or absent, finite amounts),
    every stored customer can be read by its id: the id is positive and
    [GET] answers 200 with the derived view of the row. *)
Theorem reachable_rows_readable (db : gmap Z customer) i c :
  reachable db -> db !! i = Some c ->
  getCustomer db (Some i) = Served 200 (calculateCustomerDetails c) None
  /\ id c = i /\ (0 < i)%Z.
Proof.
  intros R Hc. pose proof (reachable_wellFormed db R) as W.
  destruct (W i c Hc) as (Hid & Hpos & _).
  split; [| split; [exact Hid | exact Hpos]].
  unfold getCustomer. rewrite Hc. destruct i; [lia | reflexivity | lia].
Qed.

Lemma reachable_rows_readable_witness :
  let db := (serve ∅ (POST "T" 1 (fullBody "Ann" "555" "ann@x.io" 100 0))).2 in
  reachable db
  /\ getCustomer db (Some 1%Z)
     = Served 200 (calculateCustomerDetails
                     (rowOfFields 1 "T" "T"
                        {| f_name := "Ann"; f_number := "555"; f_email := "ann@x.io";
                           f_amountToPay := 100; f_amountPaid := 0 |})) None.
Proof.
  assert (R : reachable (serve ∅ (POST "T" 1 (fullBody "Ann" "555" "ann@x.io" 100 0))).2).
  { apply reachable_serve; [constructor |]. split; reflexivity. }
  split; [exact R |].
  exact (proj1 (reachable_rows_readable _ 1 _ R eq_refl)).
Defined.

(** ** What the page sends and when it lets a payment start *)

Lemma trimStart_head s : starts_with_space (App.trimStart s) = false.
Proof.
  induction s as [| c s IH]; [reflexivity |]. simpl.
  destruct (is_space c) eqn:E; [exact IH | simpl; exact E].
Qed.

Lemma trimEnd_head s :
  starts_with_space s = false -> starts_with_space (App.trimEnd s) = false.
Proof.
  destruct s as [| c s]; [reflexivity |]. simpl. intros E.
  destruct (App.trimEnd s); simpl; [now rewrite E | exact E].
Qed.

Lemma trimEnd_last s : ends_with_space (App.trimEnd s) = false.
Proof.
  induction s as [| c s IH]; [reflexivity |]. simpl.
  destruct (App.trimEnd s) as [| d t] eqn:E.
  - destruct (is_space c) eqn:Ec; [reflexivity | simpl; exact Ec].
  - exact IH.
Qed.

Lemma trim_trimmed s : App.trim s <> "" -> trimmed (App.trim s).
Proof.
  intros N. split; [exact N |]. unfold App.trim. split.
  - apply trimEnd_head, trimStart_head.
  - apply trimEnd_last.
Qed.

(** The name, number and email of every payload the customer form sends
    are non-empty and have no white space at either end; the email has no
    white space at all. *)
Theorem form_payload_trimmed parseFloat form p :
  App.handleSubmit parseFloat form = inr p ->
  trimmed (App.payload_name p) /\ trimmed (App.payload_number p)
  /\ trimmed (App.payload_email p)
  /\ count_chars is_space (App.payload_email p) = 0%nat.
Proof.
  intros H. unfold App.handleSubmit in H.
  destruct (String.eqb (App.trim (App.form_name form)) "") eqn:En; [discriminate |].
  destruct (String.eqb (App.trim (App.form_number form)) "") eqn:Enum; [discriminate |].
  destruct (String.eqb (App.trim (App.form_email form)) "") eqn:Ee; [discriminate |].
  destruct (Regex.test emailRegex (App.trim (App.form_email form))) eqn:T;
    [| discriminate].
  cbn [negb] in H.
  destruct (_ || _); [discriminate |].
  destruct (parseFloat (App.form_amountToPay form)); [| discriminate].
  injection H as <-. cbn [App.payload_name App.payload_number App.payload_email].
  apply String.eqb_neq in En, Enum, Ee.
  repeat split; try (now apply trim_trimmed).
  apply emailRegex_parts in T.
  destruct T as (l & d1 & d2 & -> & [_ Hl] & [_ Hd1] & [_ Hd2]).
  rewrite !count_chars_app.
  rewrite (all_chars_count_0 plain is_space l),
    (all_chars_count_0 plain is_space d1),
    (all_chars_count_0 plain is_space d2) by (auto using plain_not_space).
  reflexivity.
Qed.

Lemma form_payload_trimmed_witness :
  App.handleSubmit parse100 formAnn = inr payloadAnn
  /\ trimmed (App.payload_name payloadAnn).
Proof.
  assert (H : App.handleSubmit parse100 formAnn = inr payloadAnn) by reflexivity.
  split; [exact H |].
  exact (proj1 (form_payload_trimmed parse100 formAnn payloadAnn H)).
Defined.

(** The payment form opens for an entry exactly when the entry has an id
    and its badge is not "Paid", that is, when something is still to be
    paid; the entry is then handed on unchanged. *)
Theorem handlePaymentClick_opens entry :
  (exists e, App.handlePaymentClick entry = inr e) <->
  (exists i, App.id entry = Some i /\ i <> 0%Z)
  /\ App.getStatusBadge (App.amountToPay entry) (App.amountPaid entry) <> "Paid".
Proof.
  unfold App.handlePaymentClick, App.getStatusBadge.
  assert (Open : forall i, i <> 0%Z ->
    (exists e,
       (if JS.ge 0 (App.amountToPay entry - App.amountPaid entry)
        then inl "This customer has no pending payment. Payment is already complete!"
        else inr entry) = inr e) <->
    (exists j, Some i = Some j /\ j <> 0%Z)
    /\ (if JS.ge 0 (App.amountToPay entry - App.amountPaid entry) then "Paid"
        else if JS.gt (App.amountPaid entry) 0 then "Partial" else "Pending")
       <> "Paid").
  { intros i Ni.
    destruct (JS.ge 0 (App.amountToPay entry - App.amountPaid entry)); split.
    - intros [e H]. discriminate H.
    - intros [_ B]. exfalso. now apply B.
    - intros _. split; [now exists i |].
      destruct (JS.gt (App.amountPaid entry) 0); discriminate.
    - intros _. now exists entry. }
  destruct (App.id entry) as [[| p | p] |].
  - split; [intros [e H]; discriminate H |].
    intros [[j [Hj Nj]] _]. injection Hj as <-. contradiction.
  - now apply Open.
  - now apply Open.
  - split; [intros [e H]; discriminate H |].
    intros [[j [Hj _]] _]. discriminate Hj.
Qed.

(** * Binary64: the computed amounts

    The statements of this part are about [Module B64]: inside the section
    the names [customer], [calculateCustomerDetails], [lt], [add] and so
    on are those of that module. *)

Section Binary64.

Import B64.

(** ** Rounding to the nearest binary64 number *)

Lemma Some_eq_inv {A} (x y : A) : Some x = Some y -> x = y.
Proof. congruence. Qed.

Lemma two_neq_0 : ~ 2 == 0.
Proof. discriminate. Qed.

Lemma pow2_pos k : 0 < pow2 k.
Proof. unfold pow2. apply Qpower_0_lt. reflexivity. Qed.

Lemma pow2_plus a b : pow2 (a + b) == pow2 a * pow2 b.
Proof. unfold pow2. apply Qpower_plus, two_neq_0. Qed.

Lemma pow2_succ a : pow2 (a + 1) == 2 * pow2 a.
Proof. rewrite pow2_plus. change (pow2 1) with 2. lra. Qed.

Lemma pow2_le a b : (a <= b)%Z -> pow2 a <= pow2 b.
Proof. intros H. unfold pow2. apply Qpower_le_compat_l; [exact H | discriminate]. Qed.

Lemma pow2_lt_inv a b : pow2 a < pow2 b -> (a < b)%Z.
Proof. intros H. unfold pow2 in H. apply Qpower_lt_compat_l_inv in H; [exact H | reflexivity]. Qed.

Lemma pow2_Z k : (0 <= k)%Z -> pow2 k == inject_Z (2 ^ k).
Proof. intros H. unfold pow2. rewrite Zpower_Qpower by exact H. reflexivity. Qed.

(** [binade q] is the exponent of the power of two at or below [q]. *)

Lemma log2_bounds n :
  (0 < n)%Z ->
  pow2 (Z.log2 n) <= inject_Z n /\ inject_Z n < pow2 (Z.log2 n + 1).
Proof.
  intros H. destruct (Z.log2_spec n H) as [L U].
  pose proof (Z.log2_nonneg n) as N.
  rewrite !pow2_Z by lia. rewrite <- Zle_Qle, <- Zlt_Qlt.
  split; [exact L | exact U].
Qed.

Lemma binade_spec q :
  0 < q -> pow2 (binade q) <= q /\ q < pow2 (binade q + 1).
Proof.
  intros Hq. unfold binade.
  destruct q as [n d]. cbn [Qnum Qden].
  assert (Hn : (0 < n)%Z).
  { unfold Qlt in Hq. simpl in Hq. lia. }
  destruct (log2_bounds n Hn) as [Ln Un].
  destruct (log2_bounds (Zpos d) eq_refl) as [Ld Ud].
  set (a := Z.log2 n) in *. set (b := Z.log2 (Z.pos d)) in *.
  assert (Eq : (n # d) * inject_Z (Z.pos d) == inject_Z n).
  { unfold Qeq, Qmult, inject_Z. simpl. lia. }
  pose proof (pow2_pos a) as Pa. pose proof (pow2_pos b) as Pb.
  pose proof (pow2_succ a) as Sa. pose proof (pow2_succ b) as Sb.
  assert (E0 : pow2 (a - b) * pow2 b == pow2 a).
  { rewrite <- pow2_plus. replace (a - b + b)%Z with a by lia. reflexivity. }
  assert (E1 : pow2 (a - b + 1) == 2 * pow2 (a - b)) by apply pow2_succ.
  assert (Em : pow2 (a - b - 1 + 1) == 2 * pow2 (a - b - 1)) by apply pow2_succ.
  replace (a - b - 1 + 1)%Z with (a - b)%Z in Em by lia.
  pose proof (pow2_pos (a - b)) as Pab.
  pose proof (pow2_pos (a - b - 1)) as Pab1.
  set (X := pow2 (a - b)) in *. set (Y := pow2 (a - b - 1)) in *.
  set (D := inject_Z (Z.pos d)) in *. set (N := inject_Z n) in *.
  set (PA := pow2 a) in *. set (PB := pow2 b) in *.
  set (q := n # d) in *.
  assert (U : q < 2 * X).
  { apply Qnot_le_lt. intros C.
    assert (2 * X * PB <= q * D) by nra. nra. }
  assert (L : Y < q).
  { apply Qnot_le_lt. intros C.
    assert (q * D <= Y * D) by nra.
    assert (Y * D < Y * (2 * PB)) by nra. nra. }
  destruct (Qle_bool X q) eqn:Le.
  - apply Qle_bool_iff in Le. split; [exact Le |]. rewrite E1. exact U.
  - assert (Lt : q < X).
    { apply Qnot_le_lt. intros C. apply Qle_bool_iff in C. congruence. }
    split; [apply Qlt_le_weak; exact L |].
    fold X. replace (a - b - 1 + 1)%Z with (a - b)%Z by lia. exact Lt.
Qed.

Lemma binade_unique q k :
  pow2 k <= q -> q < pow2 (k + 1) -> binade q = k.
Proof.
  intros L U.
  assert (Hq : 0 < q) by (pose proof (pow2_pos k); lra).
  destruct (binade_spec q Hq) as [L' U'].
  assert (A : (k < binade q + 1)%Z) by (apply pow2_lt_inv; lra).
  assert (B : (binade q < k + 1)%Z) by (apply pow2_lt_inv; lra).
  lia.
Qed.

Lemma binade_comp q q' : 0 < q -> q == q' -> binade q = binade q'.
Proof.
  intros Hq E. symmetry.
  destruct (binade_spec q Hq) as [L U].
  apply binade_unique; rewrite <- E; assumption.
Qed.

Lemma binade_mono q q' : 0 < q -> q <= q' -> (binade q <= binade q')%Z.
Proof.
  intros Hq L.
  destruct (binade_spec q Hq) as [L1 U1].
  destruct (binade_spec q') as [L2 U2]; [lra |].
  assert (A : (binade q < binade q' + 1)%Z) by (apply pow2_lt_inv; lra).
  lia.
Qed.

(** Rounding to the nearest integer, ties to even. *)
Lemma rne_cases x :
  (rne x = Qfloor x /\ x - inject_Z (Qfloor x) <= 1 # 2)
  \/ (rne x = (Qfloor x + 1)%Z /\ 1 # 2 <= x - inject_Z (Qfloor x)).
Proof.
  unfold rne.
  destruct (Qle_bool (x - inject_Z (Qfloor x)) (1 # 2)) eqn:L.
  - apply Qle_bool_iff in L.
    destruct (Qeq_bool (x - inject_Z (Qfloor x)) (1 # 2)) eqn:E.
    + apply Qeq_bool_iff in E.
      destruct (Z.even (Qfloor x)); [left | right]; split; auto; lra.
    + left. split; auto.
  - right. split; [reflexivity |].
    apply Qlt_le_weak, Qnot_le_lt. intros C. apply Qle_bool_iff in C. congruence.
Qed.

Lemma floor_bounds x : inject_Z (Qfloor x) <= x /\ x < inject_Z (Qfloor x) + 1.
Proof.
  split; [apply Qfloor_le |].
  pose proof (Qlt_floor x) as H. rewrite inject_Z_plus in H. exact H.
Qed.

Lemma rne_near x : Qabs (inject_Z (rne x) - x) <= 1 # 2.
Proof.
  destruct (floor_bounds x) as [L U].
  apply Qabs_Qle_condition.
  destruct (rne_cases x) as [[-> H] | [-> H]];
    rewrite ?inject_Z_plus; change (inject_Z 1) with 1; split; lra.
Qed.

Lemma rne_ge n x : inject_Z n <= x -> (n <= rne x)%Z.
Proof.
  intros H. assert (F : (n <= Qfloor x)%Z).
  { rewrite <- (Qfloor_Z n). now apply Qfloor_resp_le. }
  destruct (rne_cases x) as [[-> _] | [-> _]]; lia.
Qed.

Lemma rne_le n x : x <= inject_Z n -> (rne x <= n)%Z.
Proof.
  intros H. destruct (floor_bounds x) as [L U].
  destruct (rne_cases x) as [[-> _] | [-> D]].
  - rewrite Zle_Qle. lra.
  - assert (S : (Qfloor x < n)%Z) by (rewrite Zlt_Qlt; lra). lia.
Qed.

Lemma rne_Z n : rne (inject_Z n) = n.
Proof.
  apply Z.le_antisymm; [apply rne_le | apply rne_ge]; apply Qle_refl.
Qed.

Lemma rne_comp x y : x == y -> rne x = rne y.
Proof.
  intros E. unfold rne.
  rewrite (Qfloor_comp _ _ E).
  assert (D : x - inject_Z (Qfloor y) == y - inject_Z (Qfloor y)) by now rewrite E.
  assert (A : Qle_bool (x - inject_Z (Qfloor y)) (1 # 2)
              = Qle_bool (y - inject_Z (Qfloor y)) (1 # 2)).
  { apply eq_true_iff_eq. rewrite !Qle_bool_iff. now rewrite D. }
  assert (B : Qeq_bool (x - inject_Z (Qfloor y)) (1 # 2)
              = Qeq_bool (y - inject_Z (Qfloor y)) (1 # 2)).
  { apply eq_true_iff_eq. rewrite !Qeq_bool_iff. now rewrite D. }
  now rewrite A, B.
Qed.

Lemma rne_mono x y : x <= y -> (rne x <= rne y)%Z.
Proof.
  intros H.
  assert (F : (Qfloor x <= Qfloor y)%Z) by now apply Qfloor_resp_le.
  destruct (floor_bounds x) as [Lx Ux]. destruct (floor_bounds y) as [Ly Uy].
  destruct (Z.eq_dec (Qfloor x) (Qfloor y)) as [E | N].
  - unfold rne. rewrite E in *.
    set (f := Qfloor y) in *.
    destruct (Qle_bool (x - inject_Z f) (1 # 2)) eqn:A1;
      destruct (Qle_bool (y - inject_Z f) (1 # 2)) eqn:A2;
      destruct (Qeq_bool (x - inject_Z f) (1 # 2)) eqn:B1;
      destruct (Qeq_bool (y - inject_Z f) (1 # 2)) eqn:B2;
      destruct (Z.even f); try lia;
      repeat match goal with
        | H : Qle_bool _ _ = true |- _ => apply Qle_bool_iff in H
        | H : Qeq_bool _ _ = true |- _ => apply Qeq_bool_iff in H
        | H : Qle_bool ?a ?b = false |- _ =>
            assert (b < a) by (apply Qnot_le_lt; intros C; apply Qle_bool_iff in C; congruence);
            clear H
        | H : Qeq_bool ?a ?b = false |- _ =>
            assert (~ a == b) by (intros C; apply Qeq_bool_iff in C; congruence);
            clear H
        end;
      exfalso; try lra;
      match goal with N : ~ _ == _ |- _ => apply N; lra end.
  - destruct (rne_cases x) as [[-> _] | [-> _]];
      destruct (rne_cases y) as [[-> _] | [-> _]]; lia.
Qed.

(** Rounding a magnitude to the binary64 grid. *)
Lemma quantum_pos q : 0 < quantum q.
Proof. apply pow2_pos. Qed.

Lemma quantum_comp q q' : 0 < q -> q == q' -> quantum q = quantum q'.
Proof. intros H E. unfold quantum. now rewrite (binade_comp q q' H E). Qed.

Lemma nearest_comp q q' : 0 < q -> q == q' -> nearest q = nearest q'.
Proof.
  intros H E. unfold nearest. rewrite (quantum_comp q q' H E).
  rewrite (rne_comp (q / quantum q') (q' / quantum q')); [reflexivity |].
  now rewrite E.
Qed.

Lemma Qeq_bool_comp a b c : a == b -> Qeq_bool a c = Qeq_bool b c.
Proof. intros E. apply eq_true_iff_eq. rewrite !Qeq_bool_iff. now rewrite E. Qed.

Lemma Qeq_bool_false a b : Qeq_bool a b = false <-> ~ a == b.
Proof.
  split.
  - intros H C. apply Qeq_bool_iff in C. congruence.
  - intros H. destruct (Qeq_bool a b) eqn:E; [| reflexivity].
    apply Qeq_bool_iff in E. contradiction.
Qed.

Lemma Qle_bool_false a b : Qle_bool a b = false <-> b < a.
Proof.
  split.
  - intros H. apply Qnot_le_lt. intros C. apply Qle_bool_iff in C. congruence.
  - intros H. destruct (Qle_bool a b) eqn:E; [| reflexivity].
    apply Qle_bool_iff in E. lra.
Qed.

Lemma round_mag_comp q q' : 0 <= q -> q == q' -> round_mag q = round_mag q'.
Proof.
  intros H E. unfold round_mag.
  rewrite (Qeq_bool_comp q q' 0 E).
  destruct (Qeq_bool q' 0) eqn:Z; [reflexivity |].
  apply Qeq_bool_false in Z.
  assert (P : 0 < q) by lra.
  now rewrite (nearest_comp q q' P E).
Qed.

Lemma round_mag_0 q : q == 0 -> round_mag q = Some 0.
Proof. intros E. unfold round_mag. apply Qeq_bool_iff in E. now rewrite E. Qed.

Lemma nearest_ge_mult n q :
  inject_Z n * quantum q <= q -> inject_Z n * quantum q <= nearest q.
Proof.
  intros H. pose proof (quantum_pos q) as U. unfold nearest.
  apply Qmult_le_compat_r; [| lra].
  rewrite <- Zle_Qle. apply rne_ge. apply Qle_shift_div_l; assumption.
Qed.

Lemma nearest_le_mult n q :
  q <= inject_Z n * quantum q -> nearest q <= inject_Z n * quantum q.
Proof.
  intros H. pose proof (quantum_pos q) as U. unfold nearest.
  apply Qmult_le_compat_r; [| lra].
  rewrite <- Zle_Qle. apply rne_le. apply Qle_shift_div_r; assumption.
Qed.

Lemma nearest_nonneg q : 0 <= q -> 0 <= nearest q.
Proof.
  intros H. pose proof (nearest_ge_mult 0 q) as L.
  change (inject_Z 0) with 0 in L. rewrite Qmult_0_l in L. now apply L.
Qed.

Lemma Qred_nonneg r : 0 <= r -> 0 <= Qred r.
Proof. intros H. now rewrite Qred_correct. Qed.

Lemma round_mag_nonneg q m : 0 <= q -> round_mag q = Some m -> 0 <= m.
Proof.
  intros H. unfold round_mag.
  destruct (Qeq_bool q 0); [intros E; apply Some_eq_inv in E; rewrite <- E; apply Qle_refl |].
  destruct (Qle_bool _ _); [discriminate |].
  intros E. apply Some_eq_inv in E. rewrite <- E.
  apply Qred_nonneg, nearest_nonneg, H.
Qed.

(** What [round_mag] returns, up to [==]. *)
Lemma round_mag_cases q :
  0 <= q ->
  (round_mag q = None /\ pow2 1024 <= nearest q /\ 0 < q)
  \/ exists m, round_mag q = Some m /\ m < pow2 1024
               /\ ((q == 0 /\ m == 0) \/ (0 < q /\ m == nearest q)).
Proof.
  intros H. unfold round_mag.
  destruct (Qeq_bool q 0) eqn:Z.
  - apply Qeq_bool_iff in Z. right. exists 0.
    split; [reflexivity |]. split; [apply pow2_pos |]. left. split; [exact Z | reflexivity].
  - apply Qeq_bool_false in Z. assert (P : 0 < q) by lra.
    destruct (Qle_bool (pow2 1024) (nearest q)) eqn:O.
    + apply Qle_bool_iff in O. left. auto.
    + apply Qle_bool_false in O. right. exists (Qred (nearest q)).
      split; [reflexivity |]. rewrite Qred_correct. split; [exact O |].
      right. split; [exact P | reflexivity].
Qed.

Lemma quantum_cases q :
  0 < q ->
  (quantum q = pow2 (-1074) /\ (binade q <= -1022)%Z)
  \/ (quantum q = pow2 (binade q - 52) /\ (-1022 < binade q)%Z
      /\ inject_Z (2 ^ 52) * quantum q == pow2 (binade q)).
Proof.
  intros H. unfold quantum.
  destruct (Z.max_spec (binade q) (-1022)) as [[L ->] | [L ->]].
  - left. split; [reflexivity | lia].
  - destruct (Z.eq_dec (binade q) (-1022)%Z) as [E | N].
    + left. rewrite E. split; [reflexivity | lia].
    + right. split; [reflexivity |]. split; [lia |].
      rewrite <- pow2_Z by lia. rewrite <- pow2_plus.
      replace (52 + (binade q - 52))%Z with (binade q) by lia. reflexivity.
Qed.

Lemma quantum_upper q :
  0 < q -> q < inject_Z (2 ^ 53) * quantum q.
Proof.
  intros H. destruct (binade_spec q H) as [_ U].
  eapply Qlt_le_trans; [exact U |].
  unfold quantum. rewrite <- pow2_Z by lia. rewrite <- pow2_plus.
  apply pow2_le. lia.
Qed.

Lemma nearest_ge_quantum q :
  pow2 (-1074) <= q -> quantum q <= nearest q.
Proof.
  intros H. assert (P : 0 < q) by (pose proof (pow2_pos (-1074)); lra).
  pose proof (quantum_pos q) as U.
  destruct (quantum_cases q P) as [[E _] | (E & B & E52)].
  - pose proof (nearest_ge_mult 1 q) as L. change (inject_Z 1) with 1 in L.
    rewrite Qmult_1_l in L. apply L. rewrite E. exact H.
  - destruct (binade_spec q P) as [Lb _].
    pose proof (nearest_ge_mult (2 ^ 52) q) as L.
    assert (1 <= inject_Z (2 ^ 52)) by (rewrite <- pow2_Z by lia; change 1 with (pow2 0); apply pow2_le; lia).
    assert (A : inject_Z (2 ^ 52) * quantum q <= nearest q).
    { apply L. rewrite E52. exact Lb. }
    nra.
Qed.

(** Rounding is monotone. *)
Lemma nearest_mono q q' : 0 < q -> q <= q' -> nearest q <= nearest q'.
Proof.
  intros P L. assert (P' : 0 < q') by lra.
  pose proof (binade_mono q q' P L) as Bm.
  pose proof (quantum_pos q) as U. pose proof (quantum_pos q') as U'.
  destruct (Z.eq_dec (Z.max (binade q) (-1022)) (Z.max (binade q') (-1022)))
    as [E | N].
  - assert (Eu : quantum q = quantum q') by (unfold quantum; now rewrite E).
    unfold nearest. rewrite Eu.
    apply Qmult_le_compat_r; [| lra].
    rewrite <- Zle_Qle. apply rne_mono.
    unfold Qdiv. apply Qmult_le_compat_r; [exact L |].
    apply Qlt_le_weak, Qinv_lt_0_compat, U'.
  - assert (Lt : (Z.max (binade q) (-1022) < binade q')%Z) by lia.
    assert (Eq' : Z.max (binade q') (-1022) = binade q') by lia.
    destruct (binade_spec q' P') as [Lb' _].
    apply Qle_trans with (pow2 (binade q')).
    + apply Qle_trans with (inject_Z (2 ^ 53) * quantum q).
      * apply nearest_le_mult, Qlt_le_weak, quantum_upper, P.
      * unfold quantum. rewrite <- pow2_Z by lia. rewrite <- pow2_plus.
        apply pow2_le. lia.
    + assert (E52 : inject_Z (2 ^ 52) * quantum q' == pow2 (binade q')).
      { unfold quantum. rewrite Eq'. rewrite <- pow2_Z by lia.
        rewrite <- pow2_plus.
        replace (52 + (binade q' - 52))%Z with (binade q') by lia. reflexivity. }
      rewrite <- E52. apply nearest_ge_mult. rewrite E52. exact Lb'.
Qed.

(** What rounding returns is a multiple of the smallest positive number. *)
Lemma nearest_grid q :
  0 <= q -> exists k, (0 <= k)%Z /\ nearest q == inject_Z k * pow2 (-1074).
Proof.
  intros H. unfold nearest, quantum.
  set (e := Z.max (binade q) (-1022)).
  set (n := rne (q / pow2 (e - 52))).
  assert (Hn : (0 <= n)%Z).
  { apply (rne_ge 0). apply Qle_shift_div_l; [apply pow2_pos |].
    change (inject_Z 0) with 0. lra. }
  exists (n * 2 ^ (e + 1022))%Z. split; [apply Z.mul_nonneg_nonneg; lia |].
  rewrite inject_Z_mult, <- pow2_Z by lia.
  rewrite <- Qmult_assoc, <- pow2_plus.
  replace (e + 1022 + -1074)%Z with (e - 52)%Z by lia. reflexivity.
Qed.

(** The rounding error is at most half the distance between neighbours:
    a relative 2^-53, or 2^-1075 among the subnormal numbers. *)
Lemma nearest_err q :
  0 < q -> Qabs (nearest q - q) <= q * pow2 (-53) + pow2 (-1075).
Proof.
  intros P. pose proof (quantum_pos q) as U.
  pose proof (rne_near (q / quantum q)) as N.
  set (n := inject_Z (rne (q / quantum q))) in *.
  assert (Eq : q / quantum q * quantum q == q).
  { unfold Qdiv. rewrite <- Qmult_assoc, (Qmult_comm (/ _)), Qmult_inv_r; lra. }
  apply Qabs_Qle_condition in N. destruct N as [N1 N2].
  assert (A : Qabs (nearest q - q) <= quantum q * (1 # 2)).
  { apply Qabs_Qle_condition. unfold nearest. fold n.
    set (x := q / quantum q) in *. set (u := quantum q) in *.
    split; nra. }
  eapply Qle_trans; [exact A |].
  pose proof (pow2_pos (-1075)) as P75. pose proof (pow2_pos (-53)) as P53.
  destruct (quantum_cases q P) as [[E _] | (E & B & E52)].
  - rewrite E.
    assert (S : pow2 (-1075 + 1) == 2 * pow2 (-1075)) by apply pow2_succ.
    change (-1075 + 1)%Z with (-1074)%Z in S. nra.
  - destruct (binade_spec q P) as [Lb _].
    assert (S : quantum q * (1 # 2) == pow2 (binade q) * pow2 (-53)).
    { rewrite E. rewrite <- pow2_plus.
      assert (S1 : pow2 (binade q + -53 + 1) == 2 * pow2 (binade q + -53))
        by apply pow2_succ.
      replace (binade q + -53 + 1)%Z with (binade q - 52)%Z in S1 by lia.
      lra. }
    rewrite S. nra.
Qed.

(** ** Signs and comparisons *)

(** Turn the tests on rationals in the context and the goal into
    propositions. *)

Ltac b2p :=
  repeat match goal with
  | H : negb _ = true |- _ => apply negb_true_iff in H
  | H : negb _ = false |- _ => apply negb_false_iff in H
  | H : Qle_bool _ _ = true |- _ => apply Qle_bool_iff in H
  | H : Qle_bool _ _ = false |- _ => apply Qle_bool_false in H
  | H : Qeq_bool _ _ = true |- _ => apply Qeq_bool_iff in H
  | H : Qeq_bool _ _ = false |- _ => apply Qeq_bool_false in H
  | |- negb _ = true => apply negb_true_iff
  | |- negb _ = false => apply negb_false_iff
  | |- Qle_bool _ _ = true => apply Qle_bool_iff
  | |- Qle_bool _ _ = false => apply Qle_bool_false
  | |- Qeq_bool _ _ = true => apply Qeq_bool_iff
  | |- Qeq_bool _ _ = false => apply Qeq_bool_false
  end.

Lemma negative_true q : negative q = true <-> q < 0.
Proof. unfold negative. rewrite negb_true_iff. apply Qle_bool_false. Qed.

Lemma negative_false q : negative q = false <-> 0 <= q.
Proof. unfold negative. rewrite negb_false_iff. apply Qle_bool_iff. Qed.

(** The shapes of the numbers that pass a comparison with 0. *)
Lemma ge_zero_cases a :
  ge a zero = true <->
  a = Inf false \/ a = NZero \/ exists q, a = Fin q /\ 0 <= q.
Proof.
  unfold ge, le, zero. split.
  - destruct a as [| [|] | | q]; simpl; try discriminate; auto.
    intros H. b2p. right. right. eauto.
  - intros [-> | [-> | (q & -> & H)]]; simpl; auto. now b2p.
Qed.

Lemma gt_zero_cases a :
  gt a zero = true <->
  a = Inf false \/ exists q, a = Fin q /\ 0 < q.
Proof.
  unfold gt, lt, zero. split.
  - destruct a as [| [|] | | q]; simpl; try discriminate; auto.
    intros H. b2p. right. eauto.
  - intros [-> | (q & -> & H)]; simpl; auto. now b2p.
Qed.

Lemma le_zero_cases a :
  le a zero = true <->
  a = Inf true \/ a = NZero \/ exists q, a = Fin q /\ q <= 0.
Proof.
  unfold le, zero. split.
  - destruct a as [| [|] | | q]; simpl; try discriminate; auto.
    intros H. b2p. right. right. eauto.
  - intros [-> | [-> | (q & -> & H)]]; simpl; auto. now b2p.
Qed.

Lemma eq_zero_cases a :
  strict_eq a zero = true <->
  a = NZero \/ exists q, a = Fin q /\ q == 0.
Proof.
  unfold strict_eq, zero. split.
  - destruct a as [| [|] | | q]; simpl; try discriminate; auto.
    intros H. b2p. right. eauto.
  - intros [-> | (q & -> & H)]; simpl; auto. now b2p.
Qed.

(** [mk] by sign. *)
Lemma mk_false_cases o :
  (forall m, o = Some m -> 0 <= m) ->
  (o = None /\ mk false o = Inf false)
  \/ exists m m', o = Some m /\ mk false o = Fin m' /\ m' == m /\ 0 <= m'.
Proof.
  intros H. destruct o as [m |]; [right | left; auto].
  specialize (H m eq_refl). exists m. simpl.
  destruct (Qeq_bool m 0) eqn:E; b2p.
  - exists 0. split; [reflexivity |]. split; [reflexivity |].
    split; [now symmetry | lra].
  - exists m. split; [reflexivity |]. split; [reflexivity |].
    split; [reflexivity | exact H].
Qed.

Lemma mk_true_cases o :
  (forall m, o = Some m -> 0 <= m) ->
  (o = None /\ mk true o = Inf true)
  \/ (exists m, o = Some m /\ m == 0 /\ mk true o = NZero)
  \/ exists m, o = Some m /\ 0 < m /\ mk true o = Fin (- m).
Proof.
  intros H. destruct o as [m |]; [right | left; auto].
  specialize (H m eq_refl). simpl.
  destruct (Qeq_bool m 0) eqn:E; b2p.
  - left. exists m. auto.
  - right. exists m. split; [reflexivity |]. split; [lra | reflexivity].
Qed.

Lemma mk_false_ge o :
  (forall m, o = Some m -> 0 <= m) -> ge (mk false o) zero = true.
Proof.
  intros H. apply ge_zero_cases.
  destruct (mk_false_cases o H) as [[_ ->] | (m & m' & _ & -> & _ & P)]; eauto.
Qed.

Lemma mk_true_le o :
  (forall m, o = Some m -> 0 <= m) -> le (mk true o) zero = true.
Proof.
  intros H. apply le_zero_cases.
  destruct (mk_true_cases o H) as [[_ ->] | [(m & _ & _ & ->) | (m & _ & P & ->)]]; auto.
  right. right. exists (- m). split; [reflexivity | lra].
Qed.

Lemma val_neg b : val (neg b) == - val b.
Proof.
  destruct b as [| s | | q]; simpl; try reflexivity.
  destruct (Qeq_bool q 0) eqn:E; b2p; simpl; lra.
Qed.

Lemma finite_neg b : finite b -> finite (neg b).
Proof. destruct b as [| s | | q]; simpl; auto. now destruct (Qeq_bool q 0). Qed.

Lemma add_finite a b :
  finite a -> finite b ->
  add a b
  = if Qeq_bool (val a + val b) 0
    then (if sign a && sign b then NZero else Fin 0)
    else mk (negative (val a + val b))
           (round_mag (Qabs (val a + val b))).
Proof. destruct a, b; simpl; tauto. Qed.

(** The sign of a difference of finite numbers. *)
Lemma sub_finite_cases a b :
  finite a -> finite b ->
  (val a == val b /\ strict_eq (sub a b) zero = true)
  \/ (val b < val a
      /\ sub a b = mk false (round_mag (val a - val b)))
  \/ (val a < val b
      /\ sub a b = mk true (round_mag (val b - val a))).
Proof.
  intros Fa Fb. unfold sub.
  rewrite (add_finite a (neg b) Fa (finite_neg b Fb)).
  pose proof (val_neg b) as N.
  set (v := val a + val (neg b)) in *.
  assert (Ev : v == val a - val b) by (subst v; lra).
  destruct (Qeq_bool v 0) eqn:Z; b2p.
  - left. split; [lra |]. now destruct (_ && _).
  - destruct (negative v) eqn:S.
    + apply negative_true in S. right. right. split; [lra |].
      f_equal. apply round_mag_comp; [apply Qabs_nonneg |].
      rewrite Qabs_neg by lra. lra.
    + apply negative_false in S. right. left. split; [lra |].
      f_equal. apply round_mag_comp; [apply Qabs_nonneg |].
      rewrite Qabs_pos by lra. lra.
Qed.

Lemma eq_zero_not_gt x : strict_eq x zero = true -> gt x zero = false.
Proof.
  intros H. apply eq_zero_cases in H. destruct H as [-> | (q & -> & E)]; [reflexivity |].
  unfold gt, lt, zero. simpl. b2p. lra.
Qed.

Lemma le_zero_not_gt x : le x zero = true -> gt x zero = false.
Proof.
  intros H. apply le_zero_cases in H.
  destruct H as [-> | [-> | (q & -> & E)]]; try reflexivity.
  unfold gt, lt, zero. simpl. b2p. lra.
Qed.

Lemma num_lt_finite a b :
  finite a -> finite b ->
  lt a b = negb (Qle_bool (val b) (val a)).
Proof. destruct a, b; simpl; tauto. Qed.

Lemma num_le_finite a b :
  finite a -> finite b -> le a b = Qle_bool (val a) (val b).
Proof. destruct a, b; simpl; tauto. Qed.

Lemma strict_eq_finite a b :
  finite a -> finite b ->
  strict_eq a b = Qeq_bool (val a) (val b).
Proof. destruct a, b; simpl; tauto. Qed.

(** A difference is positive only if the first number is the greater. *)
Lemma sub_pos_inv a b : gt (sub a b) zero = true -> lt b a = true.
Proof.
  intros H.
  destruct (lt b a) eqn:L; [reflexivity | exfalso].
  assert (Fin : finite a /\ finite b).
  { destruct a as [| [|] | | ?], b as [| [|] | | ?];
      simpl in *; try discriminate; try (split; exact I);
      try (destruct (Qeq_bool q 0); simpl in H; discriminate). }
  destruct Fin as [Fa Fb].
  rewrite (num_lt_finite b a Fb Fa) in L. b2p.
  destruct (sub_finite_cases a b Fa Fb) as [[_ E] | [[C _] | [_ E]]].
  - apply eq_zero_not_gt in E. congruence.
  - lra.
  - rewrite E in H. rewrite le_zero_not_gt in H; [discriminate |].
    apply mk_true_le. intros m. apply round_mag_nonneg. lra.
Qed.

Lemma eq_zero_ge x : strict_eq x zero = true -> ge x zero = true.
Proof.
  intros H. apply eq_zero_cases in H. apply ge_zero_cases.
  destruct H as [-> | (q & -> & E)]; [auto |].
  right. right. exists q. split; [reflexivity | lra].
Qed.

Lemma eq_zero_le x : strict_eq x zero = true -> le x zero = true.
Proof.
  intros H. apply eq_zero_cases in H. apply le_zero_cases.
  destruct H as [-> | (q & -> & E)]; [auto |].
  right. right. exists q. split; [reflexivity | lra].
Qed.

(** The difference of a number and a greater one is not positive. *)
Lemma sub_nonpos a b : lt a b = true -> le (sub a b) zero = true.
Proof.
  intros H.
  destruct (le (sub a b) zero) eqn:L; [reflexivity | exfalso].
  assert (Fin : finite a /\ finite b).
  { destruct a as [| [|] | | ?], b as [| [|] | | ?];
      simpl in *; try discriminate; try (split; exact I);
      try (destruct (Qeq_bool q 0); simpl in L; discriminate). }
  destruct Fin as [Fa Fb].
  rewrite (num_lt_finite a b Fa Fb) in H. b2p.
  destruct (sub_finite_cases a b Fa Fb) as [[C _] | [[C _] | [_ E]]]; try lra.
  rewrite E, mk_true_le in L; [discriminate |].
  intros m. apply round_mag_nonneg. lra.
Qed.

(** Equal finite numbers have difference zero. *)
Lemma sub_eq_zero a b :
  finite a -> finite b -> strict_eq a b = true ->
  strict_eq (sub a b) zero = true.
Proof.
  intros Fa Fb H. rewrite (strict_eq_finite a b Fa Fb) in H. b2p.
  destruct (sub_finite_cases a b Fa Fb) as [[_ E] | [[C _] | [C _]]]; [exact E | lra | lra].
Qed.

(** The difference of a number and one that is not greater is not
    negative, unless both are the same infinity. *)
Lemma sub_nonneg a b :
  le b a = true -> ~ (exists s, a = Inf s /\ b = Inf s) ->
  ge (sub a b) zero = true.
Proof.
  intros H N.
  destruct (ge (sub a b) zero) eqn:L; [reflexivity | exfalso].
  assert (Fin : finite a /\ finite b).
  { destruct a as [| [|] | | ?], b as [| [|] | | ?];
      simpl in *; try discriminate; try (split; exact I);
      try (destruct (Qeq_bool q 0); simpl in L; discriminate);
      exfalso; apply N; eauto. }
  destruct Fin as [Fa Fb].
  rewrite (num_le_finite b a Fb Fa) in H. b2p.
  destruct (sub_finite_cases a b Fa Fb) as [[_ E] | [[_ E] | [C _]]]; try lra.
  - apply eq_zero_ge in E. congruence.
  - rewrite E, mk_false_ge in L; [discriminate |].
    intros m. apply round_mag_nonneg. lra.
Qed.

(** [Math.max(0, x)]. *)
Lemma Math_max_zero_le x :
  le x zero = true -> Math_max zero x = zero.
Proof.
  intros H. apply le_zero_cases in H.
  destruct H as [-> | [-> | (q & -> & E)]]; try reflexivity.
  unfold Math_max, zero, lt, is_zero, sign. simpl.
  destruct (Qle_bool q 0) eqn:A; b2p; [| lra]. simpl.
  destruct (Qle_bool 0 q) eqn:B; b2p; simpl; [| reflexivity].
  destruct (Qeq_bool q 0) eqn:C; b2p; [reflexivity | exfalso; lra].
Qed.

Lemma Math_max_zero_gt x :
  gt x zero = true -> Math_max zero x = x.
Proof.
  intros H. apply gt_zero_cases in H.
  destruct H as [-> | (q & -> & E)]; [reflexivity |].
  unfold Math_max, zero, lt. simpl.
  destruct (Qle_bool q 0) eqn:A; b2p; [lra | reflexivity].
Qed.

Lemma ge_zero_split x :
  ge x zero = true ->
  gt x zero = true \/ strict_eq x zero = true.
Proof.
  intros H. apply ge_zero_cases in H.
  destruct H as [-> | [-> | (q & -> & E)]]; auto.
  destruct (Qeq_bool q 0) eqn:Z; b2p.
  - right. apply eq_zero_cases. eauto.
  - left. apply gt_zero_cases. right. exists q. split; [reflexivity | lra].
Qed.

Lemma Math_max_zero_ge x :
  ge x zero = true ->
  strict_eq (Math_max zero x) x = true
  /\ ge (Math_max zero x) zero = true.
Proof.
  intros H. destruct (ge_zero_split x H) as [G | Z].
  - rewrite (Math_max_zero_gt x G). split; [| exact H].
    apply gt_zero_cases in G. destruct G as [-> | (q & -> & _)]; simpl; [reflexivity |].
    b2p. reflexivity.
  - rewrite (Math_max_zero_le x (eq_zero_le x Z)). split; [| reflexivity].
    apply eq_zero_cases in Z. destruct Z as [-> | (q & -> & E)]; simpl; b2p; lra.
Qed.

Lemma not_nan_cases x :
  x <> NaN -> le x zero = true \/ gt x zero = true.
Proof.
  intros N. destruct x as [| [|] | | q]; try contradiction; simpl; auto.
  unfold gt, lt, le, zero. simpl.
  destruct (Qle_bool q 0); auto.
Qed.

Lemma Math_max_zero_pos_inv x :
  gt (Math_max zero x) zero = true -> gt x zero = true.
Proof.
  intros H. destruct x as [| s | | q] eqn:X; [discriminate | | |];
    (destruct (not_nan_cases x) as [L | G]; [subst; discriminate | |];
     subst x; [rewrite (Math_max_zero_le _ L) in H; discriminate | exact G]).
Qed.

Lemma num_lt_asym a b : lt a b = true -> lt b a = true -> False.
Proof.
  destruct a as [| [|] | | p], b as [| [|] | | q]; simpl; intros A B;
    try discriminate; b2p; lra.
Qed.

Lemma num_not_le_lt a b :
  a <> NaN -> b <> NaN -> le b a = false -> lt a b = true.
Proof.
  destruct a as [| [|] | | p], b as [| [|] | | q]; simpl; try congruence;
    intros _ _ H; b2p; lra.
Qed.

Lemma ge_zero_not_nan x : ge x zero = true -> x <> NaN.
Proof. intros H ->. discriminate. Qed.

Lemma gt_zero_eq_false x : gt x zero = true -> strict_eq x zero = false.
Proof.
  intros H. apply gt_zero_cases in H.
  destruct H as [-> | (q & -> & P)]; [reflexivity |].
  unfold strict_eq, zero. cbn [val]. b2p. lra.
Qed.

Lemma ge_zero_gt_or_eq x :
  ge x zero = true -> gt x zero = false -> strict_eq x zero = true.
Proof.
  intros H N. destruct (ge_zero_split x H) as [G | Z]; [congruence | exact Z].
Qed.

Lemma strict_eq_zero_not_gt x : strict_eq x zero = false -> ge x zero = true -> gt x zero = true.
Proof.
  intros H G. destruct (ge_zero_split x G) as [P | Z]; [exact P | congruence].
Qed.

Lemma num_ge_not_gt_eq a b : ge a b = true -> gt a b = false -> strict_eq a b = true.
Proof.
  unfold ge, gt.
  destruct a as [| [|] | | p], b as [| [|] | | q]; simpl; try congruence;
    intros A B; b2p; lra.
Qed.

Lemma num_lt_le a b : lt a b = true -> le a b = true.
Proof.
  destruct a as [| [|] | | p], b as [| [|] | | q]; simpl; try congruence;
    intros A; b2p; lra.
Qed.

Lemma strict_eq_le a b : strict_eq a b = true -> le a b = true.
Proof.
  destruct a as [| [|] | | p], b as [| [|] | | q]; simpl; try congruence;
    intros A; b2p; lra.
Qed.

Lemma num_lt_not_le a b : lt a b = true -> le b a = false.
Proof.
  destruct a as [| [|] | | p], b as [| [|] | | q]; simpl; try congruence;
    intros A; b2p; lra.
Qed.

Lemma strict_eq_sym a b : strict_eq a b = true -> strict_eq b a = true.
Proof.
  destruct a as [| [|] | | p], b as [| [|] | | q]; simpl; try congruence;
    intros A; b2p; lra.
Qed.

Lemma strict_eq_not_lt a b : strict_eq a b = true -> lt a b = false.
Proof.
  destruct a as [| [|] | | p], b as [| [|] | | q]; simpl; try congruence;
    intros A; b2p; lra.
Qed.

Lemma strict_eq_gt_zero a b :
  strict_eq a b = true -> gt a zero = true -> gt b zero = true.
Proof.
  unfold gt, zero.
  destruct a as [| [|] | | p], b as [| [|] | | q]; simpl; try congruence;
    intros A B; b2p; lra.
Qed.

Lemma gt_zero_not_lt a : gt a zero = true -> lt a zero = false.
Proof.
  intros H. apply gt_zero_cases in H. destruct H as [-> | (q & -> & P)]; [reflexivity |].
  unfold lt, zero. cbn [val]. b2p. lra.
Qed.

Lemma zeroish_val z : strict_eq z zero = true -> finite z /\ val z == 0.
Proof.
  intros H. apply eq_zero_cases in H.
  destruct H as [-> | (q & -> & E)]; simpl; split; auto; reflexivity.
Qed.

Lemma zeroish_le z b : strict_eq z zero = true -> ge b zero = true -> le z b = true.
Proof.
  intros Hz Hb. apply eq_zero_cases in Hz. apply ge_zero_cases in Hb.
  destruct Hz as [-> | (p & -> & Hp)];
    destruct Hb as [-> | [-> | (q & -> & Hq)]]; simpl; try reflexivity; b2p; lra.
Qed.

Lemma lt_not_same_inf a b : lt a b = true -> ~ (exists s, a = Inf s /\ b = Inf s).
Proof. intros L (s & -> & ->). destruct s; discriminate. Qed.

Lemma finite_not_same_inf a b : finite a -> ~ (exists s, a = Inf s /\ b = Inf s).
Proof. intros F (s & -> & _). exact F. Qed.

Lemma finite_not_same_inf_r a b : finite b -> ~ (exists s, a = Inf s /\ b = Inf s).
Proof. intros F (s & _ & ->). exact F. Qed.

Lemma not_both_inf_same a b :
  ge a zero = true -> ~ (a = Inf false /\ b = Inf false) ->
  ~ (exists s, a = Inf s /\ b = Inf s).
Proof. intros G N (s & -> & ->). destruct s; [discriminate | auto]. Qed.

Lemma not_both_inf_same_r a b :
  ge a zero = true -> ~ (a = Inf false /\ b = Inf false) ->
  ~ (exists s, b = Inf s /\ a = Inf s).
Proof. intros G N (s & -> & ->). destruct s; [discriminate | auto]. Qed.

(** ** Quotients, products and [Math.min(100, x)] *)

Lemma div_nonneg a b :
  ge a zero = true -> gt b zero = true ->
  ~ (a = Inf false /\ b = Inf false) ->
  ge (div a b) zero = true.
Proof.
  intros Ha Hb N. apply ge_zero_cases in Ha. apply gt_zero_cases in Hb.
  destruct Hb as [-> | (q & -> & Hq)];
    destruct Ha as [-> | [-> | (p & -> & Hp)]].
  - exfalso. auto.
  - reflexivity.
  - simpl. apply negative_false in Hp. rewrite Hp. reflexivity.
  - simpl. assert (Z : Qeq_bool q 0 = false) by (b2p; lra).
    assert (S : negative q = false) by (apply negative_false; lra).
    now rewrite S.
  - unfold div. cbn [is_zero sign val xorb].
    assert (Z : Qeq_bool q 0 = false) by (b2p; lra).
    assert (S : negative q = false) by (apply negative_false; lra).
    rewrite Z, S. rewrite round_mag_0; [reflexivity |].
    rewrite Qabs_pos by lra. unfold Qdiv. lra.
  - unfold div. cbn [is_zero sign val].
    assert (Z : Qeq_bool q 0 = false) by (b2p; lra).
    assert (S : negative q = false) by (apply negative_false; lra).
    assert (S' : negative p = false) by (apply negative_false; lra).
    rewrite Z, S, S'. apply mk_false_ge. intros m.
    apply round_mag_nonneg.
    apply Qle_shift_div_l; [rewrite Qabs_pos by lra; lra |].
    rewrite Qmult_0_l. apply Qabs_nonneg.
Qed.

Lemma mul_hundred_nonneg x :
  ge x zero = true -> ge (mul x hundred) zero = true.
Proof.
  intros H. apply ge_zero_cases in H.
  destruct H as [-> | [-> | (q & -> & Hq)]]; [reflexivity | reflexivity |].
  unfold mul, hundred. cbn [sign val].
  assert (S : negative q = false) by (apply negative_false; lra).
  rewrite S. apply mk_false_ge. intros m. apply round_mag_nonneg.
  apply Qmult_le_0_compat; apply Qabs_nonneg.
Qed.

Lemma Math_min_hundred_bounds x :
  ge x zero = true ->
  ge (Math_min hundred x) zero = true
  /\ le (Math_min hundred x) hundred = true.
Proof.
  intros H. apply ge_zero_cases in H.
  destruct H as [-> | [-> | (q & -> & Hq)]]; [split; reflexivity | split; reflexivity |].
  unfold Math_min, hundred, lt, is_zero. cbn [val].
  destruct (Qle_bool q 100) eqn:A; cbn [negb]; [| split; reflexivity].
  destruct (Qle_bool 100 q) eqn:B; cbn [negb]; b2p.
  - change (Qeq_bool 100 0) with false. cbn [andb]. split; reflexivity.
  - unfold ge, le, zero. cbn [val]. split; b2p; lra.
Qed.

(** ** The grid of binary64 numbers *)

Lemma on_grid_0 : on_grid 0.
Proof. exists 0%Z. change (inject_Z 0) with 0. lra. Qed.

Lemma on_grid_comp q q' : q == q' -> on_grid q -> on_grid q'.
Proof. intros E [k H]. exists k. now rewrite <- E. Qed.

Lemma on_grid_opp q : on_grid q -> on_grid (- q).
Proof.
  intros [k H]. exists (- k)%Z. rewrite inject_Z_opp, H. lra.
Qed.

Lemma on_grid_plus p q : on_grid p -> on_grid q -> on_grid (p + q).
Proof.
  intros [k H] [j J]. exists (k + j)%Z. rewrite inject_Z_plus, H, J. lra.
Qed.

Lemma on_grid_pos q : on_grid q -> 0 < q -> pow2 (-1074) <= q.
Proof.
  intros [k H] P. pose proof (pow2_pos (-1074)) as G.
  assert (K : (1 <= k)%Z).
  { destruct (Z_lt_le_dec k 1) as [L | L]; [exfalso | exact L].
    assert (L' : inject_Z k <= 0).
    { change 0 with (inject_Z 0). rewrite <- Zle_Qle. lia. }
    nra. }
  rewrite Zle_Qle in K. change (inject_Z 1) with 1 in K. nra.
Qed.

Lemma round_mag_grid q m : 0 <= q -> round_mag q = Some m -> on_grid m.
Proof.
  intros H E. destruct (round_mag_cases q H) as [[N _] | (m' & E' & _ & C)];
    [congruence |].
  rewrite E in E'. apply Some_eq_inv in E'. subst m'.
  destruct C as [[_ Z] | [P N]].
  - apply (on_grid_comp 0); [now symmetry | apply on_grid_0].
  - destruct (nearest_grid q H) as (k & _ & K). exists k. now rewrite N.
Qed.

Lemma round_mag_pos q m :
  pow2 (-1074) <= q -> round_mag q = Some m -> 0 < m.
Proof.
  intros H E. pose proof (pow2_pos (-1074)) as G.
  destruct (round_mag_cases q) as [[N _] | (m' & E' & _ & C)]; [lra | congruence |].
  rewrite E in E'. apply Some_eq_inv in E'. subst m'.
  destruct C as [[Z _] | [P N]]; [lra |].
  pose proof (nearest_ge_quantum q H). pose proof (quantum_pos q). lra.
Qed.

Lemma mk_grid s o :
  (forall m, o = Some m -> on_grid m) -> on_grid (val (mk s o)).
Proof.
  intros H. destruct o as [m |]; [| apply on_grid_0]. simpl.
  destruct (Qeq_bool m 0); [destruct s; apply on_grid_0 |].
  destruct s; simpl; [apply on_grid_opp |]; now apply H.
Qed.

Lemma add_grid a b : on_grid (val (add a b)).
Proof.
  assert (F : (finite a /\ finite b) \/ ~ finite (add a b)).
  { destruct a as [| sa | | p], b as [| sb | | q]; simpl; auto;
      destruct (Bool.eqb sa sb); simpl; auto. }
  destruct F as [[Fa Fb] | N].
  - rewrite (add_finite a b Fa Fb).
    destruct (Qeq_bool _ 0); [destruct (_ && _); apply on_grid_0 |].
    apply mk_grid. intros m. apply round_mag_grid, Qabs_nonneg.
  - destruct (add a b); simpl in *; try apply on_grid_0. tauto.
Qed.

Lemma is_double_grid a : is_double a = true -> on_grid (val a).
Proof.
  destruct a as [| s | | q]; simpl; try (intros _; apply on_grid_0).
  destruct (round_mag (Qabs q)) as [m |] eqn:E; [| discriminate].
  intros H. b2p.
  pose proof (round_mag_grid _ _ (Qabs_nonneg q) E) as G.
  apply (on_grid_comp _ _ H) in G.
  destruct (Qlt_le_dec q 0) as [N | P].
  - apply (on_grid_comp _ (- q)) in G; [| apply Qabs_neg; lra].
    apply on_grid_opp in G.
    apply (on_grid_comp (- - q)); [lra | exact G].
  - apply (on_grid_comp _ q) in G; [exact G | apply Qabs_pos; lra].
Qed.

Lemma mk_false_gt o :
  (forall m, o = Some m -> 0 < m) -> gt (mk false o) zero = true.
Proof.
  intros H. apply gt_zero_cases. destruct o as [m |]; [| now left].
  specialize (H m eq_refl). right. simpl.
  assert (Z : Qeq_bool m 0 = false) by (b2p; lra).
  rewrite Z. eauto.
Qed.

(** A difference of binary64 numbers is positive when the first is the
    greater: it cannot round to zero. *)
Lemma sub_pos a b :
  lt b a = true -> on_grid (val a) -> on_grid (val b) ->
  gt (sub a b) zero = true.
Proof.
  intros H Ga Gb.
  destruct (gt (sub a b) zero) eqn:L; [reflexivity | exfalso].
  assert (Fin : finite a /\ finite b).
  { destruct a as [| [|] | | ?], b as [| [|] | | ?];
      simpl in *; try discriminate; try (split; exact I);
      try (destruct (Qeq_bool q 0); simpl in L; discriminate). }
  destruct Fin as [Fa Fb].
  rewrite (num_lt_finite b a Fb Fa) in H. b2p.
  destruct (sub_finite_cases a b Fa Fb) as [[C _] | [[C E] | [C _]]]; try lra.
  rewrite E, mk_false_gt in L; [discriminate |].
  intros m. apply round_mag_pos. apply on_grid_pos; [| lra].
  apply on_grid_plus; [exact Ga | now apply on_grid_opp].
Qed.

(** Adding a positive binary64 number to one that is not negative gives a
    positive number. *)
Lemma add_pos a b :
  ge a zero = true -> gt b zero = true ->
  on_grid (val b) -> gt (add a b) zero = true.
Proof.
  intros Ha Hb Gb. apply ge_zero_cases in Ha. apply gt_zero_cases in Hb.
  assert (Step : forall a, finite a -> 0 <= val a ->
            forall q, 0 < q -> on_grid q ->
            gt (add a (Fin q)) zero = true).
  { intros a' Fa Va q Hq Gq. rewrite (add_finite a' (Fin q) Fa I).
    cbn [val]. set (v := val a' + q).
    assert (Hv : q <= v) by (subst v; lra).
    assert (Z : Qeq_bool v 0 = false) by (b2p; lra). rewrite Z.
    assert (S : negative v = false) by (apply negative_false; lra). rewrite S.
    apply mk_false_gt. intros m. apply round_mag_pos.
    rewrite Qabs_pos by lra. pose proof (on_grid_pos q Gq Hq). lra. }
  destruct Hb as [-> | (q & -> & Hq)];
    destruct Ha as [-> | [-> | (p & -> & Hp)]]; try reflexivity.
  - apply Step; [exact I | apply Qle_refl | exact Hq | exact Gb].
  - apply Step; [exact I | exact Hp | exact Hq | exact Gb].
Qed.

(** Lower bounds that rounding keeps. *)
Lemma round_mag_ge c x m :
  0 < c -> nearest c == c -> c <= x -> round_mag x = Some m -> c <= m.
Proof.
  intros P F L E.
  destruct (round_mag_cases x) as [[N _] | (m' & E' & _ & C)]; [lra | congruence |].
  rewrite E in E'. apply Some_eq_inv in E'. subst m'.
  destruct C as [[Z _] | [_ N]]; [lra |].
  rewrite N, <- F. now apply nearest_mono.
Qed.

Lemma nearest_1 : nearest 1 == 1.
Proof. vm_compute. reflexivity. Qed.

Lemma nearest_100 : nearest 100 == 100.
Proof. vm_compute. reflexivity. Qed.

Lemma mk_false_at_least c o :
  0 < c -> (forall m, o = Some m -> c <= m) -> at_least c (mk false o).
Proof.
  intros P H. destruct o as [m |]; [| now left].
  specialize (H m eq_refl). right. simpl.
  assert (Z : Qeq_bool m 0 = false) by (b2p; lra).
  rewrite Z. eauto.
Qed.

Lemma div_at_least_1 a b :
  gt b zero = true -> le b a = true ->
  ~ (a = Inf false /\ b = Inf false) ->
  at_least 1 (div a b).
Proof.
  intros Hb L N. apply gt_zero_cases in Hb.
  destruct Hb as [-> | (q & -> & Hq)].
  - destruct a as [| [|] | | p]; simpl in L; try discriminate. exfalso. auto.
  - assert (Z : Qeq_bool q 0 = false) by (b2p; lra).
    assert (S : negative q = false) by (apply negative_false; lra).
    destruct a as [| [|] | | p]; simpl in L; try discriminate.
    + left. simpl. now rewrite S.
    + apply Qle_bool_iff in L. lra.
    + apply Qle_bool_iff in L. unfold div. cbn [is_zero sign val].
      assert (S' : negative p = false) by (apply negative_false; lra).
      rewrite Z, S, S'. apply mk_false_at_least; [lra |].
      intros m. apply round_mag_ge; [lra | apply nearest_1 |].
      rewrite !Qabs_pos by lra. apply Qle_shift_div_l; lra.
Qed.

Lemma mul_hundred_at_least x :
  at_least 1 x -> at_least 100 (mul x hundred).
Proof.
  intros [-> | (q & -> & Hq)]; [now left |].
  unfold mul, hundred. cbn [sign val].
  assert (S : negative q = false) by (apply negative_false; lra).
  rewrite S. apply mk_false_at_least; [lra |].
  intros m. apply round_mag_ge; [lra | apply nearest_100 |].
  rewrite !Qabs_pos by lra. lra.
Qed.

Lemma Math_min_hundred_full x :
  at_least 100 x -> Math_min hundred x = hundred.
Proof.
  intros [-> | (q & -> & Hq)]; [reflexivity |].
  unfold Math_min, hundred, lt, is_zero. cbn [val].
  destruct (Qle_bool q 100) eqn:A; cbn [negb]; [| reflexivity].
  assert (B : Qle_bool 100 q = true) by now b2p. rewrite B. cbn [negb].
  reflexivity.
Qed.

(** Rounding leaves a binary64 number as it is. *)
Lemma double_round a :
  finite a -> is_double a = true -> 0 < val a ->
  exists m, round_mag (val a) = Some m /\ m == val a.
Proof.
  destruct a as [| s | | q]; simpl; try tauto; [intros _ _ H; lra |].
  intros _ D P. destruct (round_mag (Qabs q)) as [m |] eqn:E; [| discriminate].
  apply Qeq_bool_iff in D. exists m.
  assert (A : Qabs q == q) by (apply Qabs_pos; lra).
  rewrite <- (round_mag_comp (Qabs q) q (Qabs_nonneg q) A).
  split; [exact E | now rewrite D].
Qed.

Lemma double_nearest a :
  finite a -> is_double a = true -> 0 < val a ->
  nearest (val a) == val a /\ val a < pow2 1024.
Proof.
  intros Fa D P. destruct (double_round a Fa D P) as (m & E & V).
  destruct (round_mag_cases (val a)) as [[N _] | (m' & E' & B & C)];
    [lra | congruence |].
  rewrite E in E'. apply Some_eq_inv in E'. subst m'.
  destruct C as [[Z _] | [_ N]]; [lra |].
  split; [now rewrite <- N | now rewrite <- V].
Qed.

Lemma sub_zero_r a z :
  ge a zero = true -> is_double a = true -> strict_eq z zero = true ->
  strict_eq (Math_max zero (sub a z)) a = true.
Proof.
  intros Ha D Hz. destruct (zeroish_val z Hz) as [Fz Vz].
  apply ge_zero_cases in Ha.
  assert (Step : finite a -> 0 <= val a -> strict_eq (Math_max zero (sub a z)) a = true).
  { intros Fa Pa.
    destruct (sub_finite_cases a z Fa Fz) as [[E Z] | [[C E] | [C _]]]; [| | lra].
    - rewrite (Math_max_zero_le _ (eq_zero_le _ Z)).
      rewrite (strict_eq_finite zero a I Fa). cbn [zero val]. b2p. lra.
    - destruct (double_round a Fa D) as (m & Em & Vm); [lra |].
      assert (R : round_mag (val a - val z) = Some m).
      { rewrite <- Em. apply round_mag_comp; lra. }
      rewrite E, R.
      destruct (mk_false_cases (Some m)) as [[Ab _] | (m1 & m2 & E1 & E2 & E3 & _)];
        [intros m0 H0; apply Some_eq_inv in H0; subst m0; lra | discriminate |].
      apply Some_eq_inv in E1. subst m1. rewrite E2.
      assert (G : gt (Fin m2) zero = true).
      { apply gt_zero_cases. right. exists m2. split; [reflexivity | lra]. }
      rewrite (Math_max_zero_gt _ G).
      rewrite (strict_eq_finite (Fin m2) a I Fa). cbn [val]. b2p. lra. }
  destruct Ha as [-> | [-> | (q & -> & Hq)]].
  - destruct z as [| [|] | | ?]; simpl in *; try discriminate; try reflexivity;
      destruct (Qeq_bool q 0); reflexivity.
  - apply Step; [exact I | apply Qle_refl].
  - apply Step; [exact I | exact Hq].
Qed.

(** What is left to pay does not exceed the amount to pay. *)
Lemma sub_le a b :
  ge a zero = true -> ge b zero = true -> is_double a = true ->
  lt b a = true -> le (sub a b) a = true.
Proof.
  intros Ha Hb D L.
  apply ge_zero_cases in Ha. apply ge_zero_cases in Hb.
  assert (Step : finite a -> finite b -> 0 <= val b -> le (sub a b) a = true).
  { intros Fa Fb Pb. rewrite (num_lt_finite b a Fb Fa) in L. b2p.
    destruct (sub_finite_cases a b Fa Fb) as [[C _] | [[_ E] | [C _]]]; [lra | | lra].
    destruct (double_nearest a Fa D) as [Na Ba]; [lra |].
    set (d := val a - val b) in *.
    assert (M : nearest d <= nearest (val a)).
    { apply nearest_mono; subst d; lra. }
    destruct (round_mag_cases d) as [(_ & O & _) | (m & Em & _ & Cm)];
      [subst d; lra | lra |].
    destruct Cm as [[Z0 _] | [_ Nm]]; [subst d; lra |].
    rewrite E, Em.
    destruct (mk_false_cases (Some m)) as [[Ab _] | (m1 & m2 & E1 & -> & E2 & _)];
      [intros m0 H0; apply Some_eq_inv in H0; subst m0;
       rewrite Nm; apply nearest_nonneg; subst d; lra
      | discriminate |].
    apply Some_eq_inv in E1. subst m1.
    rewrite (num_le_finite (Fin m2) a I Fa). cbn [val]. b2p. lra. }
  destruct Ha as [-> | [-> | (p & -> & Hp)]].
  - destruct Hb as [-> | [-> | (q & -> & Hq)]];
      [discriminate | reflexivity |].
    simpl. destruct (Qeq_bool q 0); reflexivity.
  - destruct Hb as [-> | [-> | (q & -> & Hq)]]; try discriminate.
    apply Step; [exact I | exact I | exact Hq].
  - destruct Hb as [-> | [-> | (q & -> & Hq)]]; try discriminate.
    + apply Step; [exact I | exact I | apply Qle_refl].
    + apply Step; [exact I | exact I | exact Hq].
Qed.

(** The overpayment of a customer who paid no more than is due, and
    the remainder of one who paid more. *)
Lemma max_sub_zero a b :
  le a b = true -> ~ (exists s, a = Inf s /\ b = Inf s) ->
  Math_max zero (sub a b) = zero.
Proof.
  intros L N. apply Math_max_zero_le.
  destruct (lt a b) eqn:Lt; [now apply sub_nonpos |].
  assert (F : finite a /\ finite b).
  { destruct a as [| [|] | | p], b as [| [|] | | q]; simpl in *;
      try discriminate; try (split; exact I); exfalso; apply N; eauto. }
  destruct F as [Fa Fb].
  apply eq_zero_le, sub_eq_zero; [assumption .. |].
  rewrite (strict_eq_finite a b Fa Fb).
  rewrite (num_lt_finite a b Fa Fb) in Lt. rewrite (num_le_finite a b Fa Fb) in L.
  b2p. lra.
Qed.

(** The difference of two finite amounts, the smaller taken from a
    binary64 number, is finite and within half a unit in the last place of
    the exact difference. *)
Lemma sub_near a b :
  finite a -> finite b -> is_double a = true ->
  0 <= val b -> val b <= val a ->
  finite (sub a b)
  /\ Qabs (val (sub a b) - (val a - val b))
     <= (val a - val b) * pow2 (-53) + pow2 (-1075).
Proof.
  intros Fa Fb Da Pb L.
  pose proof (pow2_pos (-53)) as P53. pose proof (pow2_pos (-1075)) as P75.
  destruct (sub_finite_cases a b Fa Fb) as [[E Z] | [[C E] | [C _]]]; [| | lra].
  - apply eq_zero_cases in Z.
    assert (V : finite (sub a b) /\ val (sub a b) == 0).
    { destruct Z as [-> | (q & -> & Hq)]; simpl; split; auto; reflexivity. }
    destruct V as [F V]. split; [exact F |].
    apply Qabs_Qle_condition. split; nra.
  - set (d := val a - val b) in *.
    assert (Pd : 0 < d) by (subst d; lra).
    assert (Pa : 0 < val a) by lra.
    destruct (double_nearest a Fa Da Pa) as [Na Ba].
    assert (M : nearest d <= nearest (val a)).
    { apply nearest_mono; [exact Pd | subst d; lra]. }
    destruct (round_mag_cases d) as [(_ & O & _) | (m & Em & _ & Cm)]; [lra | lra |].
    destruct Cm as [[Z0 _] | [_ Nm]]; [lra |].
    rewrite E, Em.
    destruct (mk_false_cases (Some m)) as [[Ab _] | (m1 & m2 & E1 & -> & E2 & _)];
      [intros m0 H0; apply Some_eq_inv in H0; subst m0;
       rewrite Nm; apply nearest_nonneg; lra
      | discriminate |].
    apply Some_eq_inv in E1. subst m1. cbn [finite val]. split; [exact I |].
    assert (Ev : m2 - d == nearest d - d) by (rewrite E2, Nm; reflexivity).
    rewrite Ev. now apply nearest_err.
Qed.

(** ** The calculator over binary64 *)

(** The branches of the status, on binary64. *)
Lemma paymentStatus64_cases c :
  let s := paymentStatus (calculateCustomerDetails c) in
  (strict_eq (amountPaid c) zero = true /\ s = "Not Paid")
  \/ (strict_eq (amountPaid c) zero = false
      /\ ge (amountPaid c) (amountToPay c) = false /\ s = "Partially Paid")
  \/ (strict_eq (amountPaid c) zero = false
      /\ ge (amountPaid c) (amountToPay c) = true
      /\ gt (amountPaid c) (amountToPay c) = false /\ s = "Paid")
  \/ (strict_eq (amountPaid c) zero = false
      /\ gt (amountPaid c) (amountToPay c) = true /\ s = "Overpaid").
Proof.
  cbn [calculateCustomerDetails paymentStatus].
  destruct (strict_eq (amountPaid c) zero) eqn:Z; [now left |].
  destruct (ge (amountPaid c) (amountToPay c)) eqn:G; [| right; left; auto].
  destruct (gt (amountPaid c) (amountToPay c)) eqn:O; right; right; [right | left]; auto.
Qed.

(** Nothing paid gives 0 percent. *)
Lemma mk_zeroish s m : m == 0 -> strict_eq (mk s (Some m)) zero = true.
Proof.
  intros E. simpl. apply Qeq_bool_iff in E. rewrite E. now destruct s.
Qed.

Lemma div_zeroish z b :
  strict_eq z zero = true -> gt b zero = true -> strict_eq (div z b) zero = true.
Proof.
  intros Hz Hb. destruct (zeroish_val z Hz) as [Fz Vz].
  apply gt_zero_cases in Hb. destruct Hb as [-> | (q & -> & Hq)].
  - destruct z as [| [|] | | ?]; try contradiction; unfold div; now apply mk_zeroish.
  - assert (Z : Qeq_bool q 0 = false) by (b2p; lra).
    assert (R : round_mag (Qabs (val z) / Qabs (val (Fin q))) = Some 0).
    { apply round_mag_0. rewrite Vz. reflexivity. }
    destruct z as [| [|] | | ?]; try contradiction; unfold div;
      cbn [is_zero]; rewrite Z; rewrite R; now apply mk_zeroish.
Qed.

Lemma mul_zeroish z :
  strict_eq z zero = true -> strict_eq (mul z hundred) zero = true.
Proof.
  intros Hz. destruct (zeroish_val z Hz) as [Fz Vz].
  assert (R : round_mag (Qabs (val z) * Qabs (val hundred)) = Some 0).
  { apply round_mag_0. rewrite Vz. reflexivity. }
  destruct z as [| [|] | | ?]; try contradiction; unfold mul, hundred in *;
    rewrite R; now apply mk_zeroish.
Qed.

Lemma min_zeroish z :
  strict_eq z zero = true -> strict_eq (Math_min hundred z) zero = true.
Proof.
  intros Hz. apply eq_zero_cases in Hz.
  destruct Hz as [-> | (q & -> & E)]; [reflexivity |].
  unfold Math_min, hundred, lt. cbn [val].
  assert (A : Qle_bool q 100 = true) by (b2p; lra).
  assert (B : Qle_bool 100 q = false) by (b2p; lra).
  rewrite A, B. cbn [negb]. unfold strict_eq, zero. cbn [val]. b2p. exact E.
Qed.

Lemma percentage_unpaid c :
  strict_eq (amountPaid c) zero = true ->
  strict_eq (paymentPercentage (calculateCustomerDetails c)) zero = true.
Proof.
  intros Hz. cbn [calculateCustomerDetails paymentPercentage].
  destruct (gt (amountToPay c) zero) eqn:G; [| reflexivity].
  apply min_zeroish, mul_zeroish, div_zeroish; assumption.
Qed.

(** Who paid at least what is due, and something is due, is at 100
    percent. *)
Lemma percentage_full c :
  gt (amountToPay c) zero = true -> le (amountToPay c) (amountPaid c) = true ->
  ~ (amountToPay c = Inf false /\ amountPaid c = Inf false) ->
  paymentPercentage (calculateCustomerDetails c) = hundred.
Proof.
  intros G L N. cbn [calculateCustomerDetails paymentPercentage]. rewrite G.
  apply Math_min_hundred_full, mul_hundred_at_least, div_at_least_1;
    [assumption .. | tauto].
Qed.

Lemma percentage_bounds c :
  ge (amountToPay c) zero = true -> ge (amountPaid c) zero = true ->
  ~ (amountToPay c = Inf false /\ amountPaid c = Inf false) ->
  ge (paymentPercentage (calculateCustomerDetails c)) zero = true
  /\ le (paymentPercentage (calculateCustomerDetails c)) hundred = true.
Proof.
  intros HtoPay Hpaid N. cbn [calculateCustomerDetails paymentPercentage].
  destruct (gt (amountToPay c) zero) eqn:G; [| split; reflexivity].
  apply Math_min_hundred_bounds, mul_hundred_nonneg, div_nonneg; [assumption .. |].
  tauto.
Qed.

(** ** C4: the percentage *)

(** C4, as the code has it.  For amounts that are not negative and not
    both infinite, the percentage is 0 when nothing is to be paid and
    otherwise [Math.min(100, amountPaid / amountToPay * 100)], the
    quotient and the product each rounded to binary64; it lies between 0
    and 100. *)
Theorem paymentPercentage_binary64 c :
  ge (amountToPay c) zero = true -> ge (amountPaid c) zero = true ->
  ~ (amountToPay c = Inf false /\ amountPaid c = Inf false) ->
  let p := paymentPercentage (calculateCustomerDetails c) in
  (strict_eq (amountToPay c) zero = true -> p = zero)
  /\ (strict_eq (amountToPay c) zero = false ->
      p = Math_min hundred (mul (div (amountPaid c) (amountToPay c)) hundred))
  /\ ge p zero = true /\ le p hundred = true.
Proof.
  intros HtoPay Hpaid N p.
  split; [| split; [| exact (percentage_bounds c HtoPay Hpaid N)]];
    subst p; cbn [calculateCustomerDetails paymentPercentage]; intros Z.
  - now rewrite (eq_zero_not_gt _ Z).
  - now rewrite (strict_eq_zero_not_gt _ Z HtoPay).
Qed.

Lemma paymentPercentage_binary64_witness :
  let c := mkAmounts 5 (of_Q 3) (of_Q 1) in
  (ge (amountToPay c) zero = true /\ ge (amountPaid c) zero = true
   /\ ~ (amountToPay c = Inf false /\ amountPaid c = Inf false))
  /\ paymentPercentage (calculateCustomerDetails c)
     = Math_min hundred (mul (div (of_Q 1) (of_Q 3)) hundred)
  /\ ge (paymentPercentage (calculateCustomerDetails c)) zero = true
  /\ le (paymentPercentage (calculateCustomerDetails c)) hundred = true.
Proof.
  intros c.
  assert (A : ge (amountToPay c) zero = true) by reflexivity.
  assert (B : ge (amountPaid c) zero = true) by reflexivity.
  assert (N : ~ (amountToPay c = Inf false /\ amountPaid c = Inf false)).
  { intros [H _]. vm_compute in H. discriminate H. }
  split; [auto |].
  destruct (paymentPercentage_binary64 c A B N) as (_ & H & G & L).
  split; [apply H; reflexivity |]. split; [exact G | exact L].
Defined.

(** C4, as stated, fails.  [1e999] in a JSON body is read as [Infinity],
    which is a number and not below 0, so the checks of lines 77-88 let it
    through for both amounts; the calculator then divides [Infinity] by
    [Infinity], and the percentage is NaN, which is neither at least 0 nor
    at most 100.  And the formula is the one the code evaluates, not the
    exact one: at amountToPay 3 and amountPaid 1 the percentage is the
    binary64 number written 33.33333333333333, not 100/3. *)
Lemma paymentPercentage_not_a_number :
  let c := mkAmounts 1 (of_Q (inject_Z (10 ^ 999))) (of_Q (inject_Z (10 ^ 999))) in
  let c3 := mkAmounts 5 (of_Q 3) (of_Q 1) in
  (amountToPay c = Inf false /\ amountPaid c = Inf false
   /\ lt (amountToPay c) zero = false /\ lt (amountPaid c) zero = false
   /\ ge (amountToPay c) zero = true /\ ge (amountPaid c) zero = true
   /\ strict_eq (amountToPay c) zero = false
   /\ paymentPercentage (calculateCustomerDetails c) = NaN
   /\ ge (paymentPercentage (calculateCustomerDetails c)) zero = false
   /\ le (paymentPercentage (calculateCustomerDetails c)) hundred = false)
  /\ (paymentPercentage (calculateCustomerDetails c3)
      = of_Q (3333333333333333 # 100000000000000)
      /\ strict_eq (paymentPercentage (calculateCustomerDetails c3))
           (Fin (100 # 3)) = false).
Proof. vm_compute. repeat split. Qed.

(** ** C6: what remains and what was overpaid *)

(** C6, as the code has it.  For amounts that are not negative, the
    remaining amount and the overpayment are never both positive.  When
    the paid amount does not exceed the amount to pay (and the two are not
    both infinite), the remaining amount is the binary64 difference
    [amountToPay - amountPaid]: it is not negative, and for a finite
    amount to pay it is finite and differs from the exact difference by at
    most 2^-53 of it plus 2^-1075.  Otherwise nothing remains. *)
Theorem amountRemaining_overpayment_binary64 c :
  ge (amountToPay c) zero = true -> ge (amountPaid c) zero = true ->
  let d := calculateCustomerDetails c in
  ~ (gt (amountRemaining d) zero = true /\ gt (overpayment d) zero = true)
  /\ (le (amountPaid c) (amountToPay c) = true ->
      ~ (amountToPay c = Inf false /\ amountPaid c = Inf false) ->
      strict_eq (amountRemaining d) (sub (amountToPay c) (amountPaid c)) = true
      /\ ge (amountRemaining d) zero = true
      /\ (finite (amountToPay c) -> is_double (amountToPay c) = true ->
          finite (amountRemaining d)
          /\ Qabs (val (amountRemaining d)
                   - (val (amountToPay c) - val (amountPaid c)))
             <= (val (amountToPay c) - val (amountPaid c)) * pow2 (-53)
                + pow2 (-1075)))
  /\ (le (amountPaid c) (amountToPay c) = false ->
      strict_eq (amountRemaining d) zero = true).
Proof.
  intros HtoPay Hpaid d. subst d.
  cbn [calculateCustomerDetails amountRemaining overpayment].
  split; [| split].
  - intros [R O].
    apply Math_max_zero_pos_inv, sub_pos_inv in R.
    apply Math_max_zero_pos_inv, sub_pos_inv in O.
    exact (num_lt_asym _ _ R O).
  - intros L N.
    assert (G : ge (sub (amountToPay c) (amountPaid c)) zero = true).
    { apply sub_nonneg; [exact L | now apply not_both_inf_same]. }
    destruct (Math_max_zero_ge _ G) as [E P].
    split; [exact E |]. split; [exact P |].
    intros F D.
    assert (Fp : finite (amountPaid c)).
    { destruct (amountToPay c) as [| | |]; try contradiction;
        destruct (amountPaid c) as [| [|] | |]; simpl in *; try discriminate; exact I. }
    assert (Vp : 0 <= val (amountPaid c)).
    { apply ge_zero_cases in Hpaid.
      destruct Hpaid as [H | [H | (q & H & Q)]]; rewrite H in *; simpl;
        [contradiction | apply Qle_refl | exact Q]. }
    assert (Vl : val (amountPaid c) <= val (amountToPay c)).
    { rewrite (num_le_finite _ _ Fp F) in L. now apply Qle_bool_iff in L. }
    destruct (sub_near _ _ F Fp D Vp Vl) as [Fs B].
    set (x := sub (amountToPay c) (amountPaid c)) in *.
    assert (Fm : finite (Math_max zero x) /\ val (Math_max zero x) == val x).
    { destruct (ge_zero_split x G) as [Gx | Zx].
      - rewrite (Math_max_zero_gt x Gx). split; [exact Fs | reflexivity].
      - rewrite (Math_max_zero_le x (eq_zero_le x Zx)).
        split; [exact I |]. apply eq_zero_cases in Zx.
        destruct Zx as [-> | (q & -> & Hq)]; simpl; [reflexivity | now symmetry]. }
    destruct Fm as [Fm Vm]. split; [exact Fm |]. rewrite Vm. exact B.
  - intros L.
    assert (Lt : lt (amountToPay c) (amountPaid c) = true).
    { apply num_not_le_lt; [now apply ge_zero_not_nan .. | exact L]. }
    rewrite (Math_max_zero_le _ (sub_nonpos _ _ Lt)). reflexivity.
Qed.

Lemma amountRemaining_overpayment_binary64_witness :
  let c := mkAmounts 4 (of_Q (21 # 100)) (of_Q (5 # 100)) in
  let d := calculateCustomerDetails c in
  (ge (amountToPay c) zero = true /\ ge (amountPaid c) zero = true
   /\ le (amountPaid c) (amountToPay c) = true
   /\ is_double (amountToPay c) = true)
  /\ strict_eq (amountRemaining d) (sub (of_Q (21 # 100)) (of_Q (5 # 100))) = true
  /\ ge (amountRemaining d) zero = true
  /\ Qabs (val (amountRemaining d) - (val (amountToPay c) - val (amountPaid c)))
     <= (val (amountToPay c) - val (amountPaid c)) * pow2 (-53) + pow2 (-1075).
Proof.
  intros c d.
  assert (A : ge (amountToPay c) zero = true) by reflexivity.
  assert (B : ge (amountPaid c) zero = true) by reflexivity.
  assert (L : le (amountPaid c) (amountToPay c) = true) by (vm_compute; reflexivity).
  assert (D : is_double (amountToPay c) = true) by (vm_compute; reflexivity).
  assert (N : ~ (amountToPay c = Inf false /\ amountPaid c = Inf false)).
  { intros [H _]. vm_compute in H. discriminate H. }
  assert (F : finite (amountToPay c)) by exact I.
  split; [auto |].
  destruct (amountRemaining_overpayment_binary64 c A B) as (_ & H & _).
  destruct (H L N) as (E & G & Near).
  split; [exact E |]. split; [exact G |]. exact (proj2 (Near F D)).
Defined.

(** C6, as stated, fails.  At amountToPay 0.21 and amountPaid 0.05 the
    paid amount is the smaller, the remaining amount is
    0.15999999999999998, and remaining plus paid is 0.20999999999999996,
    below the amount to pay; the sum falls short even when it is taken
    exactly. *)
Lemma amountRemaining_plus_paid_short :
  let c := mkAmounts 4 (of_Q (21 # 100)) (of_Q (5 # 100)) in
  let d := calculateCustomerDetails c in
  ge (amountToPay c) zero = true /\ ge (amountPaid c) zero = true
  /\ le (amountPaid c) (amountToPay c) = true
  /\ amountRemaining d = of_Q (15999999999999998 # 100000000000000000)
  /\ add (amountRemaining d) (amountPaid c)
     = of_Q (20999999999999996 # 100000000000000000)
  /\ ge (add (amountRemaining d) (amountPaid c)) (amountToPay c) = false
  /\ val (amountRemaining d) + val (amountPaid c) < val (amountToPay c).
Proof. vm_compute. repeat split. Qed.

(** ** C9: the collection efficiency *)

Lemma sort64_insert_Permutation Date_ms x l :
  Permutation (sort_insert Date_ms x l) (x :: l).
Proof.
  induction l as [| y l IH]; simpl; [reflexivity |].
  destruct (byCreatedAtDesc Date_ms x y <=? 0)%Z; [reflexivity |].
  rewrite IH. apply perm_swap.
Qed.

Lemma sort64_Permutation Date_ms l : Permutation (sort Date_ms l) l.
Proof.
  induction l as [| x l IH]; simpl; [reflexivity |].
  rewrite sort64_insert_Permutation. now apply perm_skip.
Qed.

Lemma fold_left_add_map (f : customerDetails -> num) l a :
  fold_left (fun sum c => add sum (f c)) l a = fold_left add (map f l) a.
Proof. revert a. induction l as [| d l IH]; intros a; simpl; [reflexivity | apply IH]. Qed.

(** The [reduce] of the dashboard, divided by the length, is the mean of
    the percentages in the order of the array. *)
Lemma reduce_mean (f : customerDetails -> num) l :
  (if (0 <? length l)%nat
   then div (fold_left (fun sum c => add sum (f c)) l zero) (of_nat (length l))
   else zero)
  = mean (map f l).
Proof.
  unfold mean. rewrite fold_left_add_map.
  destruct l as [| d l]; [reflexivity |].
  cbn [length Nat.ltb Nat.leb map]. now rewrite length_map.
Qed.

Lemma sorted_percentages Date_ms rows :
  Permutation
    (map paymentPercentage (sort Date_ms (map calculateCustomerDetails rows)))
    (map (fun c => paymentPercentage (calculateCustomerDetails c)) rows).
Proof.
  rewrite <- (map_map calculateCustomerDetails paymentPercentage).
  apply Permutation_map, sort64_Permutation.
Qed.

(** C9, as the code has it.  What the dashboard reports is
    [Math.round(m * 100) / 100], where [m] is the mean of the customers'
    percentages as binary64 computes it: the percentages are added from
    left to right, starting from 0, in the order of the array sorted by
    creation time, and the sum is divided by their number.  The
    percentages added are those of the rows, each once.  For no customer
    at all the report is 0. *)
Theorem collectionEfficiency_binary64 Date_ms rows :
  let sorted := sort Date_ms (map calculateCustomerDetails rows) in
  collectionEfficiency Date_ms rows = round2 (mean (map paymentPercentage sorted))
  /\ Permutation (map paymentPercentage sorted)
       (map (fun c => paymentPercentage (calculateCustomerDetails c)) rows)
  /\ collectionEfficiency Date_ms [] = zero.
Proof.
  intros sorted. split; [| split].
  - unfold collectionEfficiency. fold sorted. f_equal. apply reduce_mean.
  - apply sorted_percentages.
  - vm_compute. reflexivity.
Qed.

(** The three customers of the counterexample to C9, in binary64: the
    report is 33.33 and differs from the mean of the percentages. *)
Example efficiency_thirds :
  let rows := [mkAmounts 1 (of_Q 3) (of_Q 1); mkAmounts 2 (of_Q 3) (of_Q 1);
               mkAmounts 3 (of_Q 3) (of_Q 1)] in
  collectionEfficiency (fun _ => 0%Z) rows = of_Q (3333 # 100)
  /\ strict_eq (collectionEfficiency (fun _ => 0%Z) rows)
       (mean (map (fun c => paymentPercentage (calculateCustomerDetails c)) rows))
     = false.
Proof. split; vm_compute; reflexivity. Qed.

(** One customer at amountToPay 800 and amountPaid 29: the percentage is
    3.6249999999999996, and the report is 3.62. *)
Example efficiency_800_29 Date_ms :
  collectionEfficiency Date_ms [mkAmounts 1 (of_Q 800) (of_Q 29)] = of_Q (362 # 100)
  /\ paymentPercentage (calculateCustomerDetails (mkAmounts 1 (of_Q 800) (of_Q 29)))
     = of_Q (36249999999999996 # 10000000000000000).
Proof. split; vm_compute; reflexivity. Qed.

(** ** The derived fields against each other *)

(** The four derived fields agree with one another, for binary64 amounts
    that are not negative and not both infinite.  "Not Paid" goes with the
    whole amount remaining, no overpayment and 0 percent; "Partially Paid"
    with a positive remainder that does not exceed the amount to pay (it
    can equal it: 1e17 less 1 is 1e17) and no overpayment; "Paid" with
    nothing remaining, no overpayment and 100 percent; "Overpaid" with
    nothing remaining and a positive overpayment, at 100 percent unless
    nothing was to be paid, when it is 0 percent. *)
Theorem details_agree c :
  is_double (amountToPay c) = true -> is_double (amountPaid c) = true ->
  ge (amountToPay c) zero = true -> ge (amountPaid c) zero = true ->
  ~ (amountToPay c = Inf false /\ amountPaid c = Inf false) ->
  let d := calculateCustomerDetails c in
  (paymentStatus d = "Not Paid" ->
   strict_eq (amountRemaining d) (amountToPay c) = true
   /\ overpayment d = zero
   /\ strict_eq (paymentPercentage d) zero = true)
  /\ (paymentStatus d = "Partially Paid" ->
      gt (amountRemaining d) zero = true
      /\ le (amountRemaining d) (amountToPay c) = true
      /\ overpayment d = zero
      /\ ge (paymentPercentage d) zero = true
      /\ le (paymentPercentage d) hundred = true)
  /\ (paymentStatus d = "Paid" ->
      amountRemaining d = zero /\ overpayment d = zero
      /\ paymentPercentage d = hundred)
  /\ (paymentStatus d = "Overpaid" ->
      amountRemaining d = zero /\ gt (overpayment d) zero = true
      /\ (gt (amountToPay c) zero = true -> paymentPercentage d = hundred)
      /\ (strict_eq (amountToPay c) zero = true -> paymentPercentage d = zero)).
Proof.
  intros DtoPay Dpaid HtoPay Hpaid N d. subst d.
  pose proof (is_double_grid _ DtoPay) as GtoPay.
  pose proof (is_double_grid _ Dpaid) as Gpaid.
  pose proof (ge_zero_not_nan _ HtoPay) as NtoPay.
  pose proof (ge_zero_not_nan _ Hpaid) as Npaid.
  destruct (paymentStatus64_cases c)
    as [[Z S] | [(Z & G & S) | [(Z & G & O & S) | (Z & O & S)]]];
    cbv zeta in S; rewrite S;
    (split; [| split; [| split]]); intros St; try discriminate St; clear St;
    cbn [calculateCustomerDetails amountRemaining overpayment].
  - split; [now apply sub_zero_r |]. split; [| now apply percentage_unpaid].
    apply max_sub_zero; [now apply zeroish_le | now apply not_both_inf_same_r].
  - assert (L : lt (amountPaid c) (amountToPay c) = true) by now apply num_not_le_lt.
    assert (P : gt (sub (amountToPay c) (amountPaid c)) zero = true)
      by now apply sub_pos.
    rewrite (Math_max_zero_gt _ P).
    split; [exact P |]. split; [now apply sub_le |].
    split; [| now apply percentage_bounds].
    apply max_sub_zero; [now apply num_lt_le | now apply lt_not_same_inf].
  - assert (E : strict_eq (amountPaid c) (amountToPay c) = true)
      by now apply num_ge_not_gt_eq.
    assert (Pp : gt (amountPaid c) zero = true) by now apply strict_eq_zero_not_gt.
    split; [| split].
    + apply max_sub_zero; [exact G | now apply not_both_inf_same].
    + apply max_sub_zero; [now apply strict_eq_le | now apply not_both_inf_same_r].
    + apply percentage_full; [now apply (strict_eq_gt_zero _ _ E) | exact G | exact N].
  - assert (L : lt (amountToPay c) (amountPaid c) = true) by exact O.
    split; [| split; [| split]].
    + apply max_sub_zero; [now apply num_lt_le | now apply lt_not_same_inf].
    + assert (P : gt (sub (amountPaid c) (amountToPay c)) zero = true)
        by now apply sub_pos.
      now rewrite (Math_max_zero_gt _ P).
    + intros Gt. apply percentage_full; [exact Gt | now apply num_lt_le | exact N].
    + intros Zt. cbn [calculateCustomerDetails paymentPercentage].
      now rewrite (eq_zero_not_gt _ Zt).
Qed.

Lemma details_agree_witness :
  let c := mkAmounts 9 (of_Q (inject_Z (10 ^ 17))) (of_Q 1) in
  (is_double (amountToPay c) = true /\ is_double (amountPaid c) = true
   /\ ge (amountToPay c) zero = true /\ ge (amountPaid c) zero = true)
  /\ paymentStatus (calculateCustomerDetails c) = "Partially Paid"
  /\ gt (amountRemaining (calculateCustomerDetails c)) zero = true
  /\ le (amountRemaining (calculateCustomerDetails c)) (amountToPay c) = true
  /\ strict_eq (amountRemaining (calculateCustomerDetails c)) (amountToPay c) = true.
Proof.
  intros c.
  assert (A : is_double (amountToPay c) = true) by (vm_compute; reflexivity).
  assert (B : is_double (amountPaid c) = true) by (vm_compute; reflexivity).
  assert (C : ge (amountToPay c) zero = true) by (vm_compute; reflexivity).
  assert (D : ge (amountPaid c) zero = true) by (vm_compute; reflexivity).
  assert (N : ~ (amountToPay c = Inf false /\ amountPaid c = Inf false)).
  { intros [H _]. vm_compute in H. discriminate H. }
  assert (S : paymentStatus (calculateCustomerDetails c) = "Partially Paid")
    by (vm_compute; reflexivity).
  split; [auto |]. split; [exact S |].
  destruct (details_agree c A B C D N) as (_ & H & _).
  destruct (H S) as (R1 & R2 & _).
  split; [exact R1 |]. split; [exact R2 |]. vm_compute. reflexivity.
Defined.

(** ** A payment and the status it leads to *)

(** What an "add" of a positive amount leads to, for the row the payment
    route found, by how the new amount paid, the binary64 sum [amountPaid
    + paymentAmount] of line 417, compares with the amount to pay: below
    it the customer is "Partially Paid" with something remaining and no
    overpayment; equal to it (and finite) the customer is "Paid" with
    nothing remaining and 100 percent; above it the request is served all
    the same and the customer is "Overpaid" with nothing remaining. *)
Theorem payment_outcome now c amount :
  is_double (amountToPay c) = true -> is_double amount = true ->
  ge (amountToPay c) zero = true -> ge (amountPaid c) zero = true ->
  gt amount zero = true ->
  let s := add (amountPaid c) amount in
  exists d,
    patchPaymentOn now c amount false = Some d
    /\ amountPaid (row d) = s /\ amountToPay (row d) = amountToPay c
    /\ (lt s (amountToPay c) = true ->
        paymentStatus d = "Partially Paid"
        /\ gt (amountRemaining d) zero = true /\ overpayment d = zero)
    /\ (strict_eq s (amountToPay c) = true -> finite s ->
        paymentStatus d = "Paid"
        /\ amountRemaining d = zero /\ overpayment d = zero
        /\ paymentPercentage d = hundred)
    /\ (gt s (amountToPay c) = true ->
        paymentStatus d = "Overpaid"
        /\ amountRemaining d = zero /\ gt (overpayment d) zero = true).
Proof.
  intros DtoPay Damount HtoPay Hpaid Hamount s.
  pose proof (is_double_grid _ DtoPay) as GtoPay.
  pose proof (is_double_grid _ Damount) as Gamount.
  assert (Ps : gt s zero = true) by now apply add_pos.
  assert (Gs : on_grid (val s)) by apply add_grid.
  assert (Zs : strict_eq s zero = false) by now apply gt_zero_eq_false.
  unfold patchPaymentOn. rewrite (gt_zero_not_lt _ Hamount). fold s.
  set (c' := setAmountPaid now s c).
  exists (calculateCustomerDetails c'). split; [reflexivity |].
  split; [reflexivity |]. split; [reflexivity |].
  pose proof (paymentStatus64_cases c') as S. cbv zeta in S.
  change (amountPaid c') with s in S.
  change (amountToPay c') with (amountToPay c) in S.
  cbn [calculateCustomerDetails amountRemaining overpayment].
  change (amountPaid c') with s.
  change (amountToPay c') with (amountToPay c).
  split; [| split].
  - intros L. pose proof (num_lt_not_le _ _ L) as NL.
    split; [| split].
    + destruct S as [[Z _] | [(_ & _ & S) | [(_ & G & _) | (_ & O & _)]]];
        [congruence | exact S | unfold ge in G; congruence |].
      exfalso. exact (num_lt_asym _ _ L O).
    + assert (P : gt (sub (amountToPay c) s) zero = true) by now apply sub_pos.
      now rewrite (Math_max_zero_gt _ P).
    + apply max_sub_zero; [now apply num_lt_le | now apply lt_not_same_inf].
  - intros E F.
    assert (E' : strict_eq (amountToPay c) s = true) by now apply strict_eq_sym.
    split; [| split; [| split]].
    + destruct S as [[Z _] | [(_ & G & _) | [(_ & _ & _ & S) | (_ & O & _)]]];
        [congruence | | exact S |].
      * unfold ge in G. rewrite (strict_eq_le _ _ E') in G. discriminate.
      * unfold gt in O. rewrite (strict_eq_not_lt _ _ E') in O. discriminate.
    + apply max_sub_zero; [now apply strict_eq_le | now apply finite_not_same_inf_r].
    + apply max_sub_zero; [now apply strict_eq_le | now apply finite_not_same_inf].
    + apply (percentage_full c').
      * change (amountToPay c') with (amountToPay c).
        now apply (strict_eq_gt_zero s).
      * change (le (amountToPay c) s = true). now apply strict_eq_le.
      * change (~ (amountToPay c = Inf false /\ s = Inf false)).
        intros [_ I']. rewrite I' in F. exact F.
  - intros O. assert (L : lt (amountToPay c) s = true) by exact O.
    split; [| split].
    + destruct S as [[Z _] | [(_ & G & _) | [(_ & _ & G & _) | (_ & _ & S)]]];
        [congruence | | congruence | exact S].
      unfold ge in G. rewrite (num_lt_le _ _ L) in G. discriminate.
    + apply max_sub_zero; [now apply num_lt_le | now apply lt_not_same_inf].
    + assert (P : gt (sub s (amountToPay c)) zero = true) by now apply sub_pos.
      now rewrite (Math_max_zero_gt _ P).
Qed.

Lemma payment_outcome_witness :
  let c := mkAmounts 1 (of_Q (11 # 100)) (of_Q (4 # 100)) in
  let amount := of_Q (7 # 100) in
  (is_double (amountToPay c) = true /\ is_double amount = true
   /\ ge (amountToPay c) zero = true /\ ge (amountPaid c) zero = true
   /\ gt amount zero = true)
  /\ exists d,
      patchPaymentOn "T" c amount false = Some d
      /\ amountPaid (row d) = of_Q (11000000000000001 # 100000000000000000)
      /\ paymentStatus d = "Overpaid"
      /\ gt (overpayment d) zero = true.
Proof.
  intros c amount.
  assert (A : is_double (amountToPay c) = true) by (vm_compute; reflexivity).
  assert (B : is_double amount = true) by (vm_compute; reflexivity).
  assert (C : ge (amountToPay c) zero = true) by (vm_compute; reflexivity).
  assert (D : ge (amountPaid c) zero = true) by (vm_compute; reflexivity).
  assert (E : gt amount zero = true) by (vm_compute; reflexivity).
  split; [auto 6 |].
  destruct (payment_outcome "T" c amount A B C D E) as (d & P & S & _ & _ & _ & H).
  exists d. split; [exact P |].
  split; [rewrite S; vm_compute; reflexivity |].
  destruct H as (H1 & _ & H3); [vm_compute; reflexivity |].
  split; [exact H1 | exact H3].
Defined.

(** The balance check of the page does not keep a payment from
    overpaying.  For a customer at amountToPay 0.11 and amountPaid 0.04
    the page computes the balance 0.07 (line 799), so a payment of 0.07
    is not greater and is sent; the route stores 0.04 + 0.07, which is
    0.11000000000000001, above the amount to pay, and answers
    "Overpaid". *)
Theorem page_payment_can_overpay :
  let toPay := of_Q (11 # 100) in
  let paid := of_Q (4 # 100) in
  let amount := of_Q (7 # 100) in
  handlePayment toPay paid amount = true
  /\ strict_eq amount (sub toPay paid) = true
  /\ exists d,
       patchPaymentOn "T" (mkAmounts 1 toPay paid) amount false = Some d
       /\ amountPaid (row d) = of_Q (11000000000000001 # 100000000000000000)
       /\ gt (amountPaid (row d)) toPay = true
       /\ paymentStatus d = "Overpaid"
       /\ gt (overpayment d) zero = true.
Proof.
  split; [vm_compute; reflexivity |]. split; [vm_compute; reflexivity |].
  eexists. split; [reflexivity |]. repeat split; vm_compute; reflexivity.
Qed.

(** Binary64 addition is not associative: from amountPaid 0.01, adding
    0.01 and then 0.04 stores 0.06, adding 0.04 and then 0.01 stores
    0.060000000000000005. *)
Example payments_order_matters :
  let p := of_Q (1 # 100) in
  let a := of_Q (1 # 100) in
  let b := of_Q (4 # 100) in
  add (add p a) b = of_Q (6 # 100)
  /\ add (add p b) a = of_Q (60000000000000005 # 1000000000000000000)
  /\ strict_eq (add (add p a) b) (add (add p b) a) = false.
Proof. vm_compute. repeat split. Qed.

(** ** The collection efficiency lies between 0 and 100 *)

(** Whole numbers below 2^53 are binary64 numbers. *)
Lemma nearest_int n :
  (0 < n < 2 ^ 53)%Z -> nearest (inject_Z n) == inject_Z n.
Proof.
  intros [Hp Hb].
  assert (P : 0 < inject_Z n).
  { change 0 with (inject_Z 0). now rewrite <- Zlt_Qlt. }
  destruct (binade_spec _ P) as [L U].
  set (b := binade (inject_Z n)) in *.
  assert (B0 : (0 <= b)%Z).
  { assert (A : (0 < b + 1)%Z); [| lia].
    apply pow2_lt_inv. eapply Qle_lt_trans; [| exact U].
    change (pow2 0) with (inject_Z 1). rewrite <- Zle_Qle. lia. }
  assert (B52 : (b <= 52)%Z).
  { assert (A : (b < 53)%Z); [| lia].
    apply pow2_lt_inv. eapply Qle_lt_trans; [exact L |].
    rewrite (pow2_Z 53) by lia. now rewrite <- Zlt_Qlt. }
  unfold nearest, quantum. fold b.
  replace (Z.max b (-1022)) with b by lia.
  assert (E : inject_Z n / pow2 (b - 52) == inject_Z (n * 2 ^ (52 - b))).
  { rewrite inject_Z_mult, <- pow2_Z by lia.
    pose proof (pow2_pos (b - 52)) as Q1.
    assert (I : pow2 (52 - b) * pow2 (b - 52) == 1).
    { rewrite <- pow2_plus. replace (52 - b + (b - 52))%Z with 0%Z by lia. reflexivity. }
    apply (Qmult_inj_r _ _ (pow2 (b - 52))); [lra |].
    unfold Qdiv. rewrite <- !Qmult_assoc, (Qmult_comm (/ _)), Qmult_inv_r by lra.
    rewrite I. lra. }
  rewrite (rne_comp _ _ E), rne_Z.
  rewrite inject_Z_mult, <- pow2_Z by lia.
  rewrite <- Qmult_assoc, <- pow2_plus.
  replace (52 - b + (b - 52))%Z with 0%Z by lia. change (pow2 0) with 1. lra.
Qed.

(** Upper bounds that rounding keeps. *)
Lemma round_mag_le c x :
  0 <= x -> x <= c -> nearest c == c -> c < pow2 1024 ->
  exists m, round_mag x = Some m /\ m <= c.
Proof.
  intros P L F B.
  destruct (round_mag_cases x P) as [(_ & O & Px) | (m & E & _ & C)].
  - exfalso. pose proof (nearest_mono x c Px L). lra.
  - exists m. split; [exact E |].
    destruct C as [[_ Z] | [Px N]]; [lra |].
    rewrite N, <- F. now apply nearest_mono.
Qed.

(** Numbers between 0 and a bound. *)
Lemma between0_bounds x :
  between0 100 x <-> ge x zero = true /\ le x hundred = true.
Proof.
  unfold between0. split.
  - intros [F [A B]]. destruct x as [| s | | q]; try contradiction; simpl in *.
    + split; reflexivity.
    + unfold ge, le, zero, hundred. cbn [val]. split; b2p; assumption.
  - intros [G L]. apply ge_zero_cases in G.
    destruct G as [-> | [-> | (q & -> & Hq)]]; [discriminate | |].
    + split; [exact I |]. simpl. split; lra.
    + split; [exact I |]. unfold le, hundred in L. cbn [val] in *. b2p. split; assumption.
Qed.

Lemma mk_between s m b :
  0 <= m <= b -> (s = true -> m == 0) -> between0 b (mk s (Some m)).
Proof.
  intros [A B] S. unfold between0. simpl.
  destruct (Qeq_bool m 0) eqn:Z.
  - apply Qeq_bool_iff in Z. destruct s; simpl; split; auto; split; lra.
  - destruct s; [apply Qeq_bool_false in Z; exfalso; auto |].
    simpl. split; [exact I |]. split; assumption.
Qed.

Lemma between0_sign b x : between0 b x -> sign x = true -> val x == 0.
Proof.
  intros [F [A B]] S. destruct x as [| s | | q]; try contradiction; simpl in *;
    [reflexivity |]. apply negative_true in S. lra.
Qed.

Lemma add_between a b s p :
  0 <= a -> 0 <= b -> nearest (a + b) == a + b -> a + b < pow2 1024 ->
  between0 a s -> between0 b p -> between0 (a + b) (add s p).
Proof.
  intros Ha Hb F B Hs Hp.
  destruct Hs as [Fs [S0 S1]]. destruct Hp as [Fp [P0 P1]].
  rewrite (add_finite s p Fs Fp).
  set (v := val s + val p).
  assert (V : 0 <= v <= a + b) by (subst v; split; lra).
  destruct (Qeq_bool v 0) eqn:Z.
  - destruct (sign s && sign p); split; try exact I; simpl; split; lra.
  - apply Qeq_bool_false in Z.
    assert (S : negative v = false) by (apply negative_false; lra). rewrite S.
    destruct (round_mag_le (a + b) (Qabs v)) as (m & E & M);
      [apply Qabs_nonneg | rewrite Qabs_pos; lra | exact F | exact B |].
    rewrite E. apply mk_between; [| discriminate].
    split; [| exact M]. exact (round_mag_nonneg _ _ (Qabs_nonneg v) E).
Qed.

Lemma hundreds k :
  (0 <= k < 2 ^ 32)%Z ->
  nearest (inject_Z (100 * k)) == inject_Z (100 * k) \/ k = 0%Z.
Proof.
  intros [A B]. destruct (Z.eq_dec k 0%Z) as [-> | N]; [now right | left].
  apply nearest_int. split; [lia |].
  change (2 ^ 53)%Z with (2 ^ 21 * 2 ^ 32)%Z. nia.
Qed.

Lemma hundreds_below k : (0 <= k < 2 ^ 32)%Z -> inject_Z (100 * k) < pow2 1024.
Proof.
  intros [A B]. apply Qlt_le_trans with (pow2 53).
  - rewrite (pow2_Z 53) by lia. rewrite <- Zlt_Qlt.
    change (2 ^ 53)%Z with (2 ^ 21 * 2 ^ 32)%Z. nia.
  - apply pow2_le. lia.
Qed.

(** The sum of [n] percentages lies between 0 and [100 n]. *)
Lemma fold_between l : forall k acc,
  (0 <= k)%Z -> (k + Z.of_nat (length l) < 2 ^ 32)%Z ->
  Forall (between0 100) l ->
  between0 (inject_Z (100 * k)) acc ->
  between0 (inject_Z (100 * (k + Z.of_nat (length l)))) (fold_left add l acc).
Proof.
  induction l as [| p l IH]; intros k acc Hk Hn Hl Hacc.
  - simpl. now rewrite Z.add_0_r.
  - cbn [fold_left length] in *. rewrite Nat2Z.inj_succ in *.
    inversion Hl as [| ? ? Hp Hl']; subst.
    replace (k + Z.succ (Z.of_nat (length l)))%Z
      with ((k + 1) + Z.of_nat (length l))%Z by lia.
    apply IH; [lia | lia | exact Hl' |].
    assert (E : inject_Z (100 * (k + 1)) == inject_Z (100 * k) + 100).
    { replace (100 * (k + 1))%Z with (100 * k + 100)%Z by lia.
      rewrite inject_Z_plus. reflexivity. }
    destruct (hundreds (k + 1)) as [F | Z0]; [lia | | lia].
    pose proof (hundreds_below (k + 1)) as B.
    assert (R : between0 (inject_Z (100 * k) + 100) (add acc p)).
    { assert (P : 0 < inject_Z (100 * (k + 1))).
      { change 0 with (inject_Z 0). rewrite <- Zlt_Qlt. lia. }
      apply add_between; [| discriminate | | rewrite <- E; apply B; lia
                          | exact Hacc | exact Hp].
      - change 0 with (inject_Z 0). rewrite <- Zle_Qle. lia.
      - rewrite <- (nearest_comp _ _ P E), F. exact E. }
    destruct R as [Rf [R0 R1]]. split; [exact Rf |]. split; [exact R0 | now rewrite E].
Qed.

Lemma sign_finite_pos y : finite y -> 0 < val y -> sign y = false /\ is_zero y = false.
Proof.
  destruct y as [| s | | q]; simpl; try tauto; [intros _ H; lra |].
  intros _ H. split; [apply negative_false; lra | apply Qeq_bool_false; lra].
Qed.

Lemma div_finite a b :
  finite a -> finite b -> is_zero b = false ->
  div a b = mk (xorb (sign a) (sign b)) (round_mag (Qabs (val a) / Qabs (val b))).
Proof.
  destruct a, b; simpl; try tauto; intros _ _ Z; try discriminate Z;
    rewrite Z; reflexivity.
Qed.

Lemma mul_finite a b :
  finite a -> finite b ->
  mul a b = mk (xorb (sign a) (sign b)) (round_mag (Qabs (val a) * Qabs (val b))).
Proof. destruct a, b; simpl; tauto. Qed.

Lemma mk_round_between s x c :
  0 <= x -> x <= c -> nearest c == c -> c < pow2 1024 ->
  (s = true -> x == 0) -> between0 c (mk s (round_mag x)).
Proof.
  intros P L F B S.
  destruct (round_mag_le c x P L F B) as (m & E & M).
  rewrite E. apply mk_between.
  - split; [exact (round_mag_nonneg _ _ P E) | exact M].
  - intros Hs. rewrite (round_mag_0 x (S Hs)) in E. apply Some_eq_inv in E.
    subst m. reflexivity.
Qed.

Lemma div_between a c x y :
  between0 a x -> finite y -> 0 < val y -> a / val y <= c ->
  nearest c == c -> c < pow2 1024 -> between0 c (div x y).
Proof.
  intros Hx Fy Py L F B. destruct (sign_finite_pos y Fy Py) as [Sy Zy].
  pose proof (between0_sign a x Hx) as Sx. destruct Hx as [Fx [X0 X1]].
  rewrite (div_finite x y Fx Fy Zy), Sy, xorb_false_r.
  assert (I : 0 < / val y) by now apply Qinv_lt_0_compat.
  assert (E : round_mag (Qabs (val x) / Qabs (val y)) = round_mag (val x / val y)).
  { assert (Ax : Qabs (val x) == val x) by (apply Qabs_pos; lra).
    assert (Ay : Qabs (val y) == val y) by (apply Qabs_pos; lra).
    apply round_mag_comp; [| now rewrite Ax, Ay].
    rewrite Ax, Ay. unfold Qdiv. apply Qmult_le_0_compat; lra. }
  rewrite E.
  apply mk_round_between; [| | exact F | exact B |].
  - unfold Qdiv. apply Qmult_le_0_compat; lra.
  - eapply Qle_trans; [| exact L]. unfold Qdiv.
    apply Qmult_le_compat_r; lra.
  - intros S. rewrite (Sx S). unfold Qdiv. lra.
Qed.

Lemma mul_between a c x y :
  between0 a x -> finite y -> 0 < val y -> a * val y <= c ->
  nearest c == c -> c < pow2 1024 -> between0 c (mul x y).
Proof.
  intros Hx Fy Py L F B. destruct (sign_finite_pos y Fy Py) as [Sy Zy].
  pose proof (between0_sign a x Hx) as Sx. destruct Hx as [Fx [X0 X1]].
  rewrite (mul_finite x y Fx Fy), Sy, xorb_false_r.
  assert (E : round_mag (Qabs (val x) * Qabs (val y)) = round_mag (val x * val y)).
  { assert (Ax : Qabs (val x) == val x) by (apply Qabs_pos; lra).
    assert (Ay : Qabs (val y) == val y) by (apply Qabs_pos; lra).
    apply round_mag_comp; [| now rewrite Ax, Ay].
    rewrite Ax, Ay. apply Qmult_le_0_compat; lra. }
  rewrite E.
  apply mk_round_between; [| | exact F | exact B |].
  - apply Qmult_le_0_compat; lra.
  - eapply Qle_trans; [| exact L]. apply Qmult_le_compat_r; lra.
  - intros S. rewrite (Sx S). lra.
Qed.

Lemma Math_round_between n y :
  (0 <= n)%Z -> between0 (inject_Z n) y -> between0 (inject_Z n) (Math_round y).
Proof.
  intros Hn [Fy [Y0 Y1]]. destruct y as [| s | | q]; try contradiction.
  - split; [exact I |]. split; assumption.
  - cbn [val] in *. cbn [Math_round].
    destruct (Qeq_bool q 0); [split; [exact I | split; assumption] |].
    assert (R0 : (0 <= Qfloor (q + (1 # 2)))%Z).
    { change 0%Z with (Qfloor 0). apply Qfloor_resp_le. lra. }
    assert (R1 : (Qfloor (q + (1 # 2)) <= n)%Z).
    { destruct (floor_bounds (q + (1 # 2))) as [A _].
      assert (S : (Qfloor (q + (1 # 2)) < n + 1)%Z); [| lia].
      rewrite Zlt_Qlt, inject_Z_plus. change (inject_Z 1) with 1. lra. }
    destruct (Qfloor (q + (1 # 2)) =? 0)%Z eqn:Z.
    + assert (S : negative q = false) by now apply negative_false.
      rewrite S. split; [exact I |]. cbn [val]. split; lra.
    + split; [exact I |]. cbn [val]. rewrite Zle_Qle in R0, R1.
      change (inject_Z 0) with 0 in R0. split; assumption.
Qed.

Lemma nearest_10000 : nearest 10000 == 10000.
Proof. vm_compute. reflexivity. Qed.

Lemma below_overflow c : c <= 10000 -> c < pow2 1024.
Proof.
  intros H. apply Qle_lt_trans with 10000; [exact H |].
  apply Qlt_le_trans with (pow2 14); [reflexivity | apply pow2_le; lia].
Qed.

(** [Math.round(x * 100) / 100] keeps a number between 0 and 100 there. *)
Lemma round2_between x : between0 100 x -> between0 100 (round2 x).
Proof.
  intros H. unfold round2.
  apply (div_between 10000); [| exact I | reflexivity | discriminate
                               | apply nearest_100 | apply below_overflow; discriminate].
  change 10000 with (inject_Z 10000). apply Math_round_between; [lia |].
  apply (mul_between 100); [exact H | exact I | reflexivity | discriminate
                            | apply nearest_10000 | apply below_overflow; discriminate].
Qed.

(** The mean of up to 2^32 numbers between 0 and 100 lies there too. *)
Lemma mean_between l :
  (Z.of_nat (length l) < 2 ^ 32)%Z -> Forall (between0 100) l ->
  between0 100 (mean l).
Proof.
  intros Hn Hl. unfold mean. destruct l as [| p l]; [split; [exact I | simpl; split; lra] |].
  set (n := length (p :: l)) in *.
  assert (Pn : (0 < Z.of_nat n)%Z) by (subst n; simpl; lia).
  pose proof (fold_between (p :: l) 0 zero (Z.le_refl 0)) as S.
  fold n in S. cbn [Z.add] in S.
  assert (S' : between0 (inject_Z (100 * Z.of_nat n)) (fold_left add (p :: l) zero)).
  { apply S; [exact Hn | exact Hl |]. split; [exact I |].
    change (inject_Z (100 * 0)) with 0. split; apply Qle_refl. }
  apply (div_between (inject_Z (100 * Z.of_nat n))); [exact S' | exact I | | |
    apply nearest_100 | apply below_overflow; discriminate].
  - unfold of_nat. cbn [val]. change 0 with (inject_Z 0). now rewrite <- Zlt_Qlt.
  - unfold of_nat. cbn [val]. rewrite inject_Z_mult.
    assert (Q0 : 0 < inject_Z (Z.of_nat n)).
    { change 0 with (inject_Z 0). now rewrite <- Zlt_Qlt. }
    apply Qle_shift_div_r; [exact Q0 |]. change (inject_Z 100) with 100. lra.
Qed.

(** When no row has a negative amount and none has two infinite ones, the
    collection efficiency the dashboard reports lies between 0 and 100.
    An array has fewer than 2^32 elements, so that every bound [100 k] on
    a partial sum is a binary64 number, which rounding cannot pass. *)
Theorem collectionEfficiency_bounds Date_ms rows :
  Forall (fun c => ge (amountToPay c) zero = true /\ ge (amountPaid c) zero = true
                   /\ ~ (amountToPay c = Inf false /\ amountPaid c = Inf false)) rows ->
  (Z.of_nat (length rows) < 2 ^ 32)%Z ->
  ge (collectionEfficiency Date_ms rows) zero = true
  /\ le (collectionEfficiency Date_ms rows) hundred = true.
Proof.
  intros H Hn. unfold collectionEfficiency. cbv zeta. rewrite reduce_mean.
  apply between0_bounds, round2_between, mean_between.
  - rewrite length_map. rewrite (Permutation_length (sort64_Permutation Date_ms _)).
    now rewrite length_map.
  - apply List.Forall_forall. intros p Hp.
    apply (Permutation_in _ (sorted_percentages Date_ms rows)) in Hp.
    apply in_map_iff in Hp. destruct Hp as (c & <- & Hc).
    apply between0_bounds. rewrite List.Forall_forall in H.
    destruct (H c Hc) as (A & B & N). now apply percentage_bounds.
Qed.

Lemma collectionEfficiency_bounds_witness :
  let rows := [mkAmounts 1 (of_Q 3) (of_Q 1); mkAmounts 2 (of_Q 800) (of_Q 29);
               mkAmounts 3 (of_Q (11 # 100)) (Inf false)] in
  (Forall (fun c => ge (amountToPay c) zero = true /\ ge (amountPaid c) zero = true
                    /\ ~ (amountToPay c = Inf false /\ amountPaid c = Inf false)) rows
   /\ (Z.of_nat (length rows) < 2 ^ 32)%Z)
  /\ ge (collectionEfficiency (fun _ => 0%Z) rows) zero = true
  /\ le (collectionEfficiency (fun _ => 0%Z) rows) hundred = true.
Proof.
  intros rows.
  assert (H : Forall (fun c => ge (amountToPay c) zero = true
                      /\ ge (amountPaid c) zero = true
                      /\ ~ (amountToPay c = Inf false /\ amountPaid c = Inf false)) rows).
  { repeat constructor; intros [E _]; vm_compute in E; discriminate E. }
  assert (L : (Z.of_nat (length rows) < 2 ^ 32)%Z) by reflexivity.
  split; [split; [exact H | exact L] |].
  exact (collectionEfficiency_bounds (fun _ => 0%Z) rows H L).
Defined.

End Binary64.
